(** * LedgerFlow: the ledger service (services/ledgerService.ts)

    A shallow embedding of the account-tree queries, the balance
    aggregator, the CSV transaction codec and the recurring-transaction
    engine, with the properties the specification states about them.

    Conventions of the embedding.
    - A JavaScript string is a list of characters ([str]).
    - A JavaScript number is [number]: an exact integer or [NaN].  Sums are
      exact; rounding of binary floating point is outside the model.
    - [string | undefined] is [option str]; [undefined] is [None].
    - Loops and recursions that the source does not bound take a fuel
      argument and answer [None] when it runs out. *)

From Stdlib Require Import ZArith List Ascii String Lia Permutation.
From Stdlib Require Import Numbers.DecimalPos Numbers.DecimalZ Sorting.Sorted.
From stdpp Require Import base option list gmap strings.

Local Open Scope Z_scope.
Local Open Scope list_scope.

(** ** Strings and numbers *)

Definition str := list ascii.

(** String literals. *)
Notation "$ s" := (list_ascii_of_string s) (at level 1, format "$ s").

Inductive number := NaN | Num (z : Z).

Global Instance number_eq_dec : EqDecision number.
Proof. solve_decision. Defined.

(** [a + b] on numbers; [NaN] is absorbing. *)
Definition num_add (a b : number) : number :=
  match a, b with
  | Num x, Num y => Num (x + y)
  | _, _ => NaN
  end.

(** [a - b] on numbers. *)
Definition num_sub (a b : number) : number :=
  match a, b with
  | Num x, Num y => Num (x - y)
  | _, _ => NaN
  end.

(** ** Data model (types.ts) *)

Inductive AccountType := ASSET | LIABILITY | INCOME | EXPENSE | EQUITY.

Record Account := {
  acc_id : str;
  acc_parentId : option str;          (* string | null *)
  acc_name : str;
  acc_type : AccountType;
  acc_budget : option number
}.

Record Split := {
  sp_accountId : option str;
  sp_amount : number
}.

Record Transaction := {
  tx_id : str;
  tx_date : option str;
  tx_payee : option str;
  tx_description : option str;
  tx_splits : list Split;
  tx_createdAt : number
}.

Inductive Frequency := daily | weekly | monthly | yearly.

Record RecurringTransaction := {
  rt_id : str;
  rt_frequency : Frequency;
  rt_nextDueDate : str;
  rt_payee : str;
  rt_description : str;
  rt_splits : list Split;
  rt_lastRun : option str;
  rt_active : bool
}.

Record FlattenedAccountBalance := {
  fb_id : str;
  fb_name : str;
  fb_type : AccountType;
  fb_balance : number;
  fb_budget : number
}.

(** ** Account tree queries *)

(** [allAccounts.find(a => a.id === id)]. *)
Definition find_account (id : str) (allAccounts : list Account) : option Account :=
  List.find (fun a => bool_decide (acc_id a = id)) allAccounts.

(** The body of the [while] loop of [getAccountPath]; [n] is [20 - depth].
    [current.parentId &&] is false for [null] and for the empty string. *)
Fixpoint getAccountPath_loop (n : nat) (path : str) (current : Account)
    (allAccounts : list Account) : str :=
  match n with
  | O => path
  | S n' =>
      match acc_parentId current with
      | Some (c :: p) =>
          match find_account (c :: p) allAccounts with
          | Some parent =>
              getAccountPath_loop n' (acc_name parent ++ $":" ++ path) parent allAccounts
          | None => path
          end
      | _ => path
      end
  end.

Definition getAccountPath (account : Account) (allAccounts : list Account) : str :=
  getAccountPath_loop 20 (acc_name account) account allAccounts.

(** [allAccounts.filter(a => a.parentId === currentId)]. *)
Definition children_of (currentId : str) (allAccounts : list Account) : list Account :=
  List.filter (fun a => bool_decide (acc_parentId a = Some currentId)) allAccounts.

(** [stack.pop()]: the last element of the array and the array without it. *)
Definition pop (stack : list str) : option (list str * str) :=
  match rev stack with
  | [] => None
  | x :: r => Some (rev r, x)
  end.

(** The [while (stack.length > 0)] loop of [getDescendantAccountIds]. *)
Fixpoint getDescendant_loop (fuel : nat) (stack : list str) (result : gset str)
    (allAccounts : list Account) : option (gset str) :=
  match pop stack with
  | None => Some result
  | Some (rest, currentId) =>
      match fuel with
      | O => None
      | S fuel' =>
          getDescendant_loop fuel'
            (rest ++ map acc_id (children_of currentId allAccounts))
            ({[ currentId ]} ∪ result) allAccounts
      end
  end.

Definition getDescendantAccountIds (fuel : nat) (rootId : str)
    (allAccounts : list Account) : option (gset str) :=
  getDescendant_loop fuel [rootId] ∅ allAccounts.

(** The parentId relation has no cycle: ids can be ranked so that every
    account ranks strictly below its parent. *)
Definition acyclic (allAccounts : list Account) : Prop :=
  exists rank : str -> nat,
    forall a p, In a allAccounts -> acc_parentId a = Some p ->
      (rank (acc_id a) < rank p)%nat.

(** [x] is reached from [root] by following child links. *)
Inductive reaches (allAccounts : list Account) (root : str) : str -> Prop :=
  | reaches_refl : reaches allAccounts root root
  | reaches_child a x :
      In a allAccounts -> acc_parentId a = Some root ->
      reaches allAccounts (acc_id a) x -> reaches allAccounts root x.

(** One step of the ancestor walk of [getAccountPath]: the first account
    whose id is the non-empty [parentId] of [current]. *)
Definition parent_step (allAccounts : list Account) (current : Account) : option Account :=
  match acc_parentId current with
  | Some (c :: p) => find_account (c :: p) allAccounts
  | _ => None
  end.

(** [chain] lists the ancestors of [a], nearest first. *)
Fixpoint linked (allAccounts : list Account) (a : Account) (chain : list Account) : Prop :=
  match chain with
  | [] => True
  | p :: rest => parent_step allAccounts a = Some p /\ linked allAccounts p rest
  end.

(** ** Balance aggregator *)

(** [split.accountId === accountId]. *)
Definition split_on (accountId : str) (sp : Split) : bool :=
  bool_decide (sp_accountId sp = Some accountId).

Definition calculateAccountBalance (accountId : str) (transactions : list Transaction)
    : number :=
  fold_left (fun balance tx =>
    fold_left (fun balance split =>
      if split_on accountId split then num_add balance (sp_amount split) else balance)
      (tx_splits tx) balance)
    transactions (Num 0).

(** [total += c] for a recursive call that may not have returned. *)
Definition add_child (total child : option number) : option number :=
  match total, child with
  | Some t, Some c => Some (num_add t c)
  | _, _ => None
  end.

(** [fuel] bounds the depth of the recursion, which the source leaves to
    the call stack. *)
Fixpoint calculateTreeBalance (fuel : nat) (account : Account)
    (allAccounts : list Account) (transactions : list Transaction) : option number :=
  match fuel with
  | O => None
  | S fuel' =>
      fold_left (fun total child =>
          add_child total (calculateTreeBalance fuel' child allAccounts transactions))
        (children_of (acc_id account) allAccounts)
        (Some (calculateAccountBalance (acc_id account) transactions))
  end.

(** [acc.budget || 0]: a missing budget, [NaN] and [0] all give [0]. *)
Definition budget_or_0 (b : option number) : number :=
  match b with
  | Some (Num z) => Num z
  | _ => Num 0
  end.

Definition flatten_one (fuel : nat) (accounts : list Account)
    (transactions : list Transaction) (acc : Account) : option FlattenedAccountBalance :=
  match calculateTreeBalance fuel acc accounts transactions with
  | Some b =>
      Some {| fb_id := acc_id acc; fb_name := acc_name acc; fb_type := acc_type acc;
              fb_balance := b; fb_budget := budget_or_0 (acc_budget acc) |}
  | None => None
  end.

Definition getFlattenedBalances (fuel : nat) (accounts : list Account)
    (transactions : list Transaction) : option (list FlattenedAccountBalance) :=
  mapM (flatten_one fuel accounts transactions) accounts.

(** The flattened balances of the direct children of [acc], read off the
    result [out] of [getFlattenedBalances] entry by entry. *)
Definition child_balances (acc : Account) (accounts : list Account)
    (out : list FlattenedAccountBalance) : list number :=
  map (fun p => fb_balance (snd p))
    (List.filter (fun p => bool_decide (acc_parentId (fst p) = Some (acc_id acc)))
       (combine accounts out)).

Definition num_sum (l : list number) : number := fold_right num_add (Num 0) l.

(** ** Dates (the built-in [Date], on the proleptic Gregorian calendar)

    A time value is a number of milliseconds since 1970-01-01T00:00Z.
    Local time is UTC shifted by a fixed offset; daylight-saving changes
    of the offset are outside the model. *)

Definition msPerDay : Z := 86400000.

(** Day number of the civil date [y]-[m]-[d] ([m] from 1). *)
Definition days_from_civil (y m d : Z) : Z :=
  let y' := if m <=? 2 then y - 1 else y in
  let era := y' / 400 in
  let yoe := y' - era * 400 in
  let mp := if m >? 2 then m - 3 else m + 9 in
  let doy := (153 * mp + 2) / 5 + d - 1 in
  let doe := yoe * 365 + yoe / 4 - yoe / 100 + doy in
  era * 146097 + doe - 719468.

(** Civil date (year, month from 1, day) of a day number. *)
Definition civil_from_days (z : Z) : Z * Z * Z :=
  let z := z + 719468 in
  let era := z / 146097 in
  let doe := z - era * 146097 in
  let yoe := (doe - doe / 1460 + doe / 36524 - doe / 146096) / 365 in
  let doy := doe - (365 * yoe + yoe / 4 - yoe / 100) in
  let mp := (5 * doy + 2) / 153 in
  let d := doy - (153 * mp + 2) / 5 + 1 in
  let m := if mp <? 10 then mp + 3 else mp - 9 in
  let y := yoe + era * 400 in
  (if m <=? 2 then y + 1 else y, m, d).

(** [MakeDay(year, month, date)] with [month] from 0; months and days
    outside their range roll over. *)
Definition MakeDay (year month date : Z) : Z :=
  days_from_civil (year + month / 12) (month mod 12 + 1) 1 + date - 1.

Definition digit_of (c : ascii) : option Z :=
  let n := Z.of_nat (nat_of_ascii c) in
  if (48 <=? n) && (n <=? 57) then Some (n - 48) else None.

Definition char_of_digit (d : Z) : ascii := ascii_of_nat (Z.to_nat (48 + d mod 10)).

(** The [n] low decimal digits of [z], zero padded. *)
Fixpoint pad_digits (n : nat) (z : Z) : str :=
  match n with
  | O => []
  | S n' => pad_digits n' (z / 10) ++ [char_of_digit z]
  end.

(** [new Date(s)] for the date-only form [YYYY-MM-DD], read as UTC
    midnight.  Any other text is [None]: an Invalid Date, or a form whose
    parsing the language leaves to the host. *)
Definition parseDate (s : str) : option Z :=
  match s with
  | [y1; y2; y3; y4; dash1; m1; m2; dash2; d1; d2] =>
      match digit_of y1, digit_of y2, digit_of y3, digit_of y4,
            digit_of m1, digit_of m2, digit_of d1, digit_of d2 with
      | Some a, Some b, Some c, Some d, Some e, Some f, Some g, Some h =>
          let year := 1000 * a + 100 * b + 10 * c + d in
          let month := 10 * e + f in
          let day := 10 * g + h in
          if bool_decide (dash1 = "-"%char) && bool_decide (dash2 = "-"%char)
             && (1 <=? month) && (month <=? 12) && (1 <=? day) && (day <=? 31)
          then Some (MakeDay year (month - 1) day * msPerDay)
          else None
      | _, _, _, _, _, _, _, _ => None
      end
  | _ => None
  end.

(** [d.toISOString().split('T')[0]]: four digits for the years 0 to 9999,
    a sign and six digits otherwise. *)
Definition isoDate (t : Z) : str :=
  let '(y, m, d) := civil_from_days (t / msPerDay) in
  (if (0 <=? y) && (y <=? 9999) then pad_digits 4 y
   else (if y <? 0 then $"-" else $"+") ++ pad_digits 6 (Z.abs y))
  ++ $"-" ++ pad_digits 2 m ++ $"-" ++ pad_digits 2 d.

(** [setDate], [setMonth] and [setFullYear] work on the local fields of
    the date; [tz] is local time minus UTC, in milliseconds. *)
Definition addDays (tz : Z) (date : Z) (days : Z) : Z :=
  let lt := date + tz in
  let '(y, m, d) := civil_from_days (lt / msPerDay) in
  MakeDay y (m - 1) (d + days) * msPerDay + lt mod msPerDay - tz.

Definition addMonths (tz : Z) (date : Z) (months : Z) : Z :=
  let lt := date + tz in
  let '(y, m, d) := civil_from_days (lt / msPerDay) in
  MakeDay y (m - 1 + months) d * msPerDay + lt mod msPerDay - tz.

Definition addYears (tz : Z) (date : Z) (years : Z) : Z :=
  let lt := date + tz in
  let '(y, m, d) := civil_from_days (lt / msPerDay) in
  MakeDay (y + years) (m - 1) d * msPerDay + lt mod msPerDay - tz.

(** [None] is the RangeError that [toISOString] raises on an Invalid Date. *)
Definition calculateNextDueDate (tz : Z) (currentDate : str) (frequency : Frequency)
    : option str :=
  match parseDate currentDate with
  | None => None
  | Some dateObj =>
      let nextDate :=
        match frequency with
        | daily => addDays tz dateObj 1
        | weekly => addDays tz dateObj 7
        | monthly => addMonths tz dateObj 1
        | yearly => addYears tz dateObj 1
        end in
      Some (isoDate nextDate)
  end.

(** ** Recurring transactions *)

(** [a <= b] on strings: code units compared left to right. *)
Fixpoint str_leb (a b : str) : bool :=
  match a, b with
  | [], _ => true
  | _ :: _, [] => false
  | x :: a', y :: b' =>
      if (nat_of_ascii x <? nat_of_ascii y)%nat then true
      else if (nat_of_ascii y <? nat_of_ascii x)%nat then false
      else str_leb a' b'
  end.

(** What the engine reads from its surroundings and not from its
    arguments: the system clock ([clock k] is the k-th reading, in
    milliseconds; reading 0 is [new Date()], the later ones [Date.now()]),
    the results of the successive calls of [generateId] (nine base-36
    digits drawn from [Math.random()]), and the time zone of the host. *)
Record Env := {
  clock : nat -> Z;
  random : nat -> str;
  tzOffset : Z
}.

Definition today (env : Env) : str := isoDate (clock env 0).

Definition is_due (td : str) (item : RecurringTransaction) : bool :=
  rt_active item && str_leb (rt_nextDueDate item) td.

(** The callback of [recurringList.map]; [k] transactions were pushed to
    [newTransactions] before this item, so this is draw [k] of the id
    generator and reading [k + 1] of the clock. *)
Definition process_item (env : Env) (td : str) (k : nat) (item : RecurringTransaction)
    : option (option Transaction * RecurringTransaction) :=
  if is_due td item then
    let newTx :=
      {| tx_id := random env k;
         tx_date := Some (rt_nextDueDate item);
         tx_payee := Some (rt_payee item);
         tx_description := Some (rt_description item ++ $" (Recurring)");
         tx_splits := rt_splits item;
         tx_createdAt := Num (clock env (S k)) |} in
    match calculateNextDueDate (tzOffset env) (rt_nextDueDate item) (rt_frequency item) with
    | None => None
    | Some next =>
        Some (Some newTx,
              {| rt_id := rt_id item;
                 rt_frequency := rt_frequency item;
                 rt_nextDueDate := next;
                 rt_payee := rt_payee item;
                 rt_description := rt_description item;
                 rt_splits := rt_splits item;
                 rt_lastRun := Some (rt_nextDueDate item);
                 rt_active := rt_active item |})
    end
  else Some (None, item).

Fixpoint process_items (env : Env) (td : str) (k : nat)
    (recurringList : list RecurringTransaction)
    : option (list Transaction * list RecurringTransaction) :=
  match recurringList with
  | [] => Some ([], [])
  | item :: rest =>
      match process_item env td k item with
      | None => None
      | Some (Some newTx, activeItem) =>
          match process_items env td (S k) rest with
          | Some (newTransactions, updatedRecurring) =>
              Some (newTx :: newTransactions, activeItem :: updatedRecurring)
          | None => None
          end
      | Some (None, activeItem) =>
          match process_items env td k rest with
          | Some (newTransactions, updatedRecurring) =>
              Some (newTransactions, activeItem :: updatedRecurring)
          | None => None
          end
      end
  end.

(** The result is [(newTransactions, updatedRecurring)]; [None] is an
    exception leaving the function.  [currentTransactions] is not used. *)
Definition processDueRecurringTransactions (env : Env)
    (recurringList : list RecurringTransaction) (currentTransactions : list Transaction)
    : option (list Transaction * list RecurringTransaction) :=
  process_items env (today env) 0 recurringList.

(** A date of the data model: [YYYY-MM-DD]. *)
Definition iso_date (s : str) : Prop := is_Some (parseDate s).

(** ** Transaction codec *)

(** The double-quote character. *)
Definition quote : ascii := ascii_of_nat 34.
Definition comma : ascii := ","%char.
Definition LF : ascii := ascii_of_nat 10.
Definition CR : ascii := ascii_of_nat 13.

(** White space removed by [trim] and skipped by [Number], among the
    characters below 256: TAB, LF, VT, FF, CR, space and NBSP. *)
Definition is_ws (c : ascii) : bool :=
  let n := nat_of_ascii c in
  ((9 <=? n) && (n <=? 13) || (n =? 32) || (n =? 160))%nat.

Fixpoint trimStart (s : str) : str :=
  match s with
  | c :: r => if is_ws c then trimStart r else s
  | [] => []
  end.

Definition trim (s : str) : str := rev (trimStart (rev (trimStart s))).

(** Decimal digits of a [Decimal.uint], most significant first. *)
Fixpoint uint_chars (u : Decimal.uint) : str :=
  match u with
  | Decimal.Nil => []
  | Decimal.D0 u => "0"%char :: uint_chars u
  | Decimal.D1 u => "1"%char :: uint_chars u
  | Decimal.D2 u => "2"%char :: uint_chars u
  | Decimal.D3 u => "3"%char :: uint_chars u
  | Decimal.D4 u => "4"%char :: uint_chars u
  | Decimal.D5 u => "5"%char :: uint_chars u
  | Decimal.D6 u => "6"%char :: uint_chars u
  | Decimal.D7 u => "7"%char :: uint_chars u
  | Decimal.D8 u => "8"%char :: uint_chars u
  | Decimal.D9 u => "9"%char :: uint_chars u
  end.

Fixpoint chars_uint (s : str) : option Decimal.uint :=
  match s with
  | [] => Some Decimal.Nil
  | c :: r =>
      match chars_uint r with
      | None => None
      | Some u =>
          match digit_of c with
          | Some 0 => Some (Decimal.D0 u)
          | Some 1 => Some (Decimal.D1 u)
          | Some 2 => Some (Decimal.D2 u)
          | Some 3 => Some (Decimal.D3 u)
          | Some 4 => Some (Decimal.D4 u)
          | Some 5 => Some (Decimal.D5 u)
          | Some 6 => Some (Decimal.D6 u)
          | Some 7 => Some (Decimal.D7 u)
          | Some 8 => Some (Decimal.D8 u)
          | Some 9 => Some (Decimal.D9 u)
          | _ => None
          end
      end
  end.

(** [String(n)] and the [${n}] of a template, for integers printed in
    plain decimal (magnitude below 10^21). *)
Definition number_to_string (n : number) : str :=
  match n with
  | NaN => $"NaN"
  | Num z =>
      match Z.to_int z with
      | Decimal.Pos u => uint_chars u
      | Decimal.Neg u => "-"%char :: uint_chars u
      end
  end.

(** [Number(s)]: white space is trimmed, the empty string is 0, an
    optionally signed run of decimal digits is its value.  Every other
    text is [NaN] here; fractions, exponents, radix prefixes and
    [Infinity] are outside the model. *)
Definition Number (s : option str) : number :=
  match s with
  | None => NaN
  | Some s =>
      match trim s with
      | [] => Num 0
      | c :: r =>
          if bool_decide (c = "-"%char) then
            match r, chars_uint r with
            | _ :: _, Some u => Num (- Z.of_uint u)
            | _, _ => NaN
            end
          else if bool_decide (c = "+"%char) then
            match r, chars_uint r with
            | _ :: _, Some u => Num (Z.of_uint u)
            | _, _ => NaN
            end
          else
            match chars_uint (c :: r) with
            | Some u => Num (Z.of_uint u)
            | None => NaN
            end
      end
  end.

(** [${v}] for a value that may be [undefined]. *)
Definition tpl (v : option str) : str :=
  match v with
  | Some s => s
  | None => $"undefined"
  end.

(** [v || '']. *)
Definition or_empty (v : option str) : str :=
  match v with
  | Some s => s
  | None => []
  end.

(** [s.replace] of every quote by two quotes. *)
Definition escape_quotes (s : str) : str :=
  flat_map (fun c => if bool_decide (c = quote) then [quote; quote] else [c]) s.

(** [s.replace] of every pair of quotes by one quote, pairs taken left
    to right. *)
Fixpoint unescape_quotes (s : str) : str :=
  match s with
  | [] => []
  | c :: r =>
      match r with
      | c' :: r' =>
          if bool_decide (c = quote) && bool_decide (c' = quote)
          then quote :: unescape_quotes r'
          else c :: unescape_quotes r
      | [] => [c]
      end
  end.

(** [rows.join(sep)]. *)
Fixpoint join (sep : str) (rows : list str) : str :=
  match rows with
  | [] => []
  | [r] => r
  | r :: rest => r ++ sep ++ join sep rest
  end.

Definition csv_header : str :=
  $"Transaction ID,Date,Created At,Payee,Description,Account ID,Amount" ++ [LF].

Definition csv_row (tx : Transaction) (split : Split) : str :=
  tx_id tx ++ [comma] ++ tpl (tx_date tx) ++ [comma]
  ++ number_to_string (tx_createdAt tx) ++ [comma]
  ++ [quote] ++ escape_quotes (or_empty (tx_payee tx)) ++ [quote] ++ [comma]
  ++ [quote] ++ escape_quotes (or_empty (tx_description tx)) ++ [quote] ++ [comma]
  ++ tpl (sp_accountId split) ++ [comma] ++ number_to_string (sp_amount split).

Definition serializeTransactionsToCSV (transactions : list Transaction) : str :=
  csv_header
  ++ join [LF] (flat_map (fun tx => map (csv_row tx) (tx_splits tx)) transactions).

(** [csvContent.split(/\r?\n/)]: the text is cut at every LF, and a CR
    just before the LF goes with it. *)
Fixpoint split_lines (s : str) : list str :=
  match s with
  | [] => [[]]
  | c :: r =>
      if bool_decide (c = LF) then [] :: split_lines r
      else
        match r with
        | c' :: r' =>
            if bool_decide (c = CR) && bool_decide (c' = LF)
            then [] :: split_lines r'
            else match split_lines r with
                 | l :: ls => (c :: l) :: ls
                 | [] => [[c]]
                 end
        | [] => [[c]]
        end
  end.

(** The quoted alternative of the field pattern, after its opening quote:
    characters other than a quote, then any number of doubled quotes each
    followed by characters other than a quote, then the closing quote.
    The answer is the text after the closing quote.  Doubled quotes are
    taken greedily; when no closing quote follows them the last pair is
    given back and its first quote closes the field. *)
Fixpoint quoted_rest (s : str) : option str :=
  match s with
  | [] => None
  | c :: r =>
      if bool_decide (c = quote) then
        match r with
        | c' :: r' =>
            if bool_decide (c' = quote) then
              match quoted_rest r' with
              | Some rest => Some rest
              | None => Some r
              end
            else Some r
        | [] => Some r
        end
      else quoted_rest r
  end.

(** Matches of the field pattern (start of line or comma, then a quoted
    or an unquoted field) found by the repeated [regex.exec(line)] once
    [lastIndex] is past 0: the next
    match starts at the next comma; after it the quoted alternative is
    tried, and the unquoted one, which always matches, runs up to the
    next quote or comma.  [fuel] bounds the scan; the length of the text
    is always enough. *)
Fixpoint count_matches (fuel : nat) (s : str) : nat :=
  match fuel with
  | O => O
  | S fuel' =>
      match s with
      | [] => O
      | c :: r =>
          if bool_decide (c = comma) then
            match r with
            | q :: b =>
                if bool_decide (q = quote) then
                  match quoted_rest b with
                  | Some rest => S (count_matches fuel' rest)
                  | None => S (count_matches fuel' r)
                  end
                else S (count_matches fuel' r)
            | [] => 1%nat
            end
          else count_matches fuel' r
      end
  end.

(** The length of [matches] after the [while ((match = regex.exec(line)))]
    loop.  The first match is sought at index 0, where [^] holds.  When
    the line opens with a comma, or with a quote that the quoted
    alternative cannot close, that match is empty, [lastIndex] stays 0
    and the loop finds the same match for ever: [None]. *)
Definition regex_field_count (line : str) : option nat :=
  match line with
  | [] => Some O
  | c :: r =>
      if bool_decide (c = quote) then
        match quoted_rest r with
        | Some rest => Some (S (count_matches (length rest) rest))
        | None => None
        end
      else if bool_decide (c = comma) then None
      else Some (S (count_matches (length r) r))
  end.

(** The character loop that fills [row]. *)
Fixpoint scan_row (line : str) (inQuote : bool) (currentVal : str) (row : list str)
    : list str :=
  match line with
  | [] => row ++ [currentVal]
  | char :: rest =>
      if bool_decide (char = quote) then scan_row rest (negb inQuote) currentVal row
      else if bool_decide (char = comma) && negb inQuote
           then scan_row rest inQuote [] (row ++ [currentVal])
           else scan_row rest inQuote (currentVal ++ [char]) row
  end.

(** A cell that starts and ends with a quote loses both
    ([c.slice(1, -1)]) and has its doubled quotes undoubled. *)
Definition clean_cell (c : str) : str :=
  match c, rev c with
  | a :: rest, z :: _ =>
      if bool_decide (a = quote) && bool_decide (z = quote)
      then unescape_quotes (removelast rest)
      else c
  | _, _ => c
  end.

(** [txMap]: a [Map] keeps its entries in the order their keys were first
    set. *)
Definition txMap_has (id : str) (txMap : list (str * Transaction)) : bool :=
  existsb (fun e => bool_decide (fst e = id)) txMap.

Definition push_split (split : Split) (tx : Transaction) : Transaction :=
  {| tx_id := tx_id tx; tx_date := tx_date tx; tx_payee := tx_payee tx;
     tx_description := tx_description tx;
     tx_splits := tx_splits tx ++ [split];
     tx_createdAt := tx_createdAt tx |}.

(** [txMap.get(id)!.splits.push(split)]. *)
Definition txMap_push (id : str) (split : Split) (txMap : list (str * Transaction))
    : list (str * Transaction) :=
  map (fun e => if bool_decide (fst e = id) then (fst e, push_split split (snd e)) else e)
    txMap.

(** The part of the loop body after the field-count test. *)
Definition add_row (line : str) (txMap : list (str * Transaction))
    : list (str * Transaction) :=
  let cleanRow := map clean_cell (scan_row line false [] []) in
  let id := hd [] cleanRow in
  let date := nth_error cleanRow 1 in
  let createdAtStr := nth_error cleanRow 2 in
  let payee := nth_error cleanRow 3 in
  let desc := nth_error cleanRow 4 in
  let accId := nth_error cleanRow 5 in
  let amountStr := nth_error cleanRow 6 in
  let txMap' :=
    if txMap_has id txMap then txMap
    else txMap ++ [(id, {| tx_id := id; tx_date := date;
                           tx_createdAt := Number createdAtStr;
                           tx_payee := payee; tx_description := desc;
                           tx_splits := [] |})] in
  txMap_push id {| sp_accountId := accId; sp_amount := Number amountStr |} txMap'.

(** The [for] loop over the lines after the header.  [None]: the loop
    does not end (see [regex_field_count]). *)
Fixpoint parse_lines (lines : list str) (txMap : list (str * Transaction))
    : option (list (str * Transaction)) :=
  match lines with
  | [] => Some txMap
  | l :: rest =>
      let line := trim l in
      match line with
      | [] => parse_lines rest txMap
      | _ :: _ =>
          match regex_field_count line with
          | None => None
          | Some n =>
              if (n <? 7)%nat then parse_lines rest txMap
              else parse_lines rest (add_row line txMap)
          end
      end
  end.

(** [(a, b) => b.createdAt - a.createdAt] is negative: [a] goes first.
    A [NaN] difference counts as 0. *)
Definition goes_before (a b : Transaction) : bool :=
  match num_sub (tx_createdAt b) (tx_createdAt a) with
  | Num z => z <? 0
  | NaN => false
  end.

Fixpoint sort_insert (x : Transaction) (sorted : list Transaction) : list Transaction :=
  match sorted with
  | [] => [x]
  | y :: rest => if goes_before x y then x :: y :: rest else y :: sort_insert x rest
  end.

(** [Array.prototype.sort] is stable: elements that compare equal keep
    their order.  This is the result whenever no [createdAt] is [NaN];
    with a [NaN] the comparator is not consistent, the language leaves
    the order to the implementation, and the list below is one
    permutation among those it may return. *)
Definition sort_by_createdAt_desc (l : list Transaction) : list Transaction :=
  fold_left (fun sorted x => sort_insert x sorted) l [].

Definition parseTransactionsFromCSV (csvContent : str) : option (list Transaction) :=
  match split_lines csvContent with
  | _header :: lines =>
      match parse_lines lines [] with
      | Some txMap => Some (sort_by_createdAt_desc (map snd txMap))
      | None => None
      end
  | [] => Some []
  end.

(** The transaction the engine creates for a due rule at draw [k]. *)
Definition emitted_tx (env : Env) (k : nat) (item : RecurringTransaction) : Transaction :=
  {| tx_id := random env k;
     tx_date := Some (rt_nextDueDate item);
     tx_payee := Some (rt_payee item);
     tx_description := Some (rt_description item ++ $" (Recurring)");
     tx_splits := rt_splits item;
     tx_createdAt := Num (clock env (S k)) |}.

(** [item'] is [item] with its schedule moved by one period. *)
Definition advanced (tz : Z) (item item' : RecurringTransaction) : Prop :=
  calculateNextDueDate tz (rt_nextDueDate item) (rt_frequency item)
    = Some (rt_nextDueDate item')
  /\ rt_lastRun item' = Some (rt_nextDueDate item).

(** [item'] has the template of [item]: all fields but the schedule. *)
Definition same_template (item item' : RecurringTransaction) : Prop :=
  rt_id item' = rt_id item
  /\ rt_frequency item' = rt_frequency item
  /\ rt_payee item' = rt_payee item
  /\ rt_description item' = rt_description item
  /\ rt_splits item' = rt_splits item
  /\ rt_active item' = rt_active item.

(** How one rule comes out of the [map] callback: as it was when it is
    not due, advanced by one period when it is. *)
Inductive item_step (env : Env) (td : str) (item item' : RecurringTransaction) : Prop :=
  | step_skip : is_due td item = false -> item' = item -> item_step env td item item'
  | step_fire :
      is_due td item = true -> same_template item item' ->
      advanced (tzOffset env) item item' -> item_step env td item item'.

(** ** What the codec carries unchanged *)

(** A character that ends no field and no line, and opens no quotation. *)
Definition is_plain (c : ascii) : bool :=
  negb (bool_decide (c = comma) || bool_decide (c = quote) || bool_decide (c = LF)).

(** A character allowed between the quotes of a payee or description. *)
Definition is_quotable (c : ascii) : bool :=
  negb (bool_decide (c = quote) || bool_decide (c = LF)).

Definition plain_field (v : option str) : bool :=
  match v with
  | Some s => forallb is_plain s
  | None => false
  end.

Definition quotable_field (v : option str) : bool :=
  match v with
  | Some s => forallb is_quotable s
  | None => false
  end.

(** An id: not empty, no white space in front, plain characters. *)
Definition plain_id (id : str) : bool :=
  match id with
  | [] => false
  | c :: _ => negb (is_ws c) && forallb is_plain id
  end.

(** A transaction within the reach of the codec: a plain id; date and
    account ids present and plain; payee and description present, free
    of quotes and line feeds (commas are allowed); at least one split. *)
Definition codec_safe (tx : Transaction) : bool :=
  plain_id (tx_id tx)
  && plain_field (tx_date tx)
  && quotable_field (tx_payee tx)
  && quotable_field (tx_description tx)
  && negb (bool_decide (tx_splits tx = []))
  && forallb (fun sp => plain_field (sp_accountId sp)) (tx_splits tx).

(** A character of a printed number: plain, and not white space. *)
Definition number_char (c : ascii) : Prop := is_plain c = true /\ is_ws c = false.

(** The matches of the field pattern from an index past 0, with the
    fuel the parser gives. *)
Definition count_fields (s : str) : nat := count_matches (length s) s.

(** [tx] with other splits. *)
Definition with_splits (tx : Transaction) (splits : list Split) : Transaction :=
  {| tx_id := tx_id tx; tx_date := tx_date tx; tx_payee := tx_payee tx;
     tx_description := tx_description tx; tx_splits := splits;
     tx_createdAt := tx_createdAt tx |}.

(** The row of [csv_row], by its seven fields. *)
Definition row_of_fields (id date created payee desc acc amount : str) : str :=
  id ++ comma :: date ++ comma :: created ++ comma
     :: quote :: payee ++ quote :: comma
     :: quote :: desc ++ quote :: comma
     :: acc ++ comma :: amount.

(** ** Sample data *)

(** A clock stopped at [ms], an id generator that keeps drawing the same
    id, and a host on UTC. *)
Definition env_at (ms : Z) : Env :=
  {| clock := fun _ => ms; random := fun _ => $"i"; tzOffset := 0 |}.

(** The same with the first reading of the clock, which gives the date,
    apart from the later ones. *)
Definition env_at' (first later : Z) : Env :=
  {| clock := fun k => match k with O => first | S _ => later end;
     random := fun _ => $"i"; tzOffset := 0 |}.

(** 2024-01-10T00:00:00Z and 2023-12-31T00:00:00Z. *)
Definition jan10 : Z := 1704844800000.
Definition dec31 : Z := 1703980800000.

Definition rule (id : string) (f : Frequency) (due : string) (active : bool)
    : RecurringTransaction :=
  {| rt_id := $id; rt_frequency := f; rt_nextDueDate := $due;
     rt_payee := $"Landlord"; rt_description := $"Rent";
     rt_splits := [{| sp_accountId := Some $"rent"; sp_amount := Num 900 |};
                   {| sp_accountId := Some $"bank"; sp_amount := Num (-900) |}];
     rt_lastRun := None; rt_active := active |}.


(** A self-parented account: the walk stops at the ceiling with the name
    repeated 21 times. *)
Definition loop_account : Account :=
  {| acc_id := $"a"; acc_parentId := Some $"a"; acc_name := $"A";
     acc_type := ASSET; acc_budget := None |}.

Definition acct (id : string) (parent : option string) (name : string) : Account :=
  {| acc_id := $id; acc_parentId := option_map list_ascii_of_string parent;
     acc_name := $name; acc_type := ASSET; acc_budget := None |}.

(** A root with one child. *)
Definition two_accounts : list Account :=
  [acct "A" None "Assets"; acct "B" (Some "A") "Bank"].

Definition two_accounts_rank (id : str) : nat :=
  if bool_decide (id = $"A") then 1%nat else 0%nat.

(** One transaction with a single split of 100 on the child. *)
Definition two_account_txs : list Transaction :=
  [{| tx_id := $"t1"; tx_date := Some $"2024-01-05"; tx_payee := None;
      tx_description := None;
      tx_splits := [{| sp_accountId := Some $"B"; sp_amount := Num 100 |}];
      tx_createdAt := Num 1 |}].

(** Two due rules, one rule due later and one inactive overdue rule. *)
Definition sample_rules : list RecurringTransaction :=
  [rule "r1" monthly "2024-01-05" true; rule "r2" weekly "2024-01-10" true;
   rule "r3" daily "2024-02-01" true; rule "r4" daily "2023-11-01" false].

(** A daily rule nine days overdue on 2024-01-10. *)
Definition overdue_rules : list RecurringTransaction :=
  [rule "r1" daily "2024-01-01" true].

(** A transaction already in the ledger under the id [i]. *)
Definition ledger_i : list Transaction :=
  [{| tx_id := $"i"; tx_date := Some $"2024-01-02"; tx_payee := None;
      tx_description := None;
      tx_splits := [{| sp_accountId := Some $"bank"; sp_amount := Num 0 |}];
      tx_createdAt := Num 5 |}].

(** Lines of text joined by LF. *)
Definition text (lines : list string) : str :=
  join [LF] (map list_ascii_of_string lines).

(** A header, a row of seven fields and a row of four fields; and the
    same without the row of four fields. *)
Definition csv_with_short_row : str :=
  text ["Transaction ID,Date,Created At,Payee,Description,Account ID,Amount";
        "t1,2024-01-05,17,Landlord,Rent,bank,-900";
        "t9,2024-01-06,18,Grocer"].

Definition csv_without_short_row : str :=
  text ["Transaction ID,Date,Created At,Payee,Description,Account ID,Amount";
        "t1,2024-01-05,17,Landlord,Rent,bank,-900"].

(** A purchase split over two accounts, with a comma in the payee; a
    note of two lines; a note with a quoted word. *)
Definition sample_splits : list Split :=
  [{| sp_accountId := Some $"cash"; sp_amount := Num (-5) |};
   {| sp_accountId := Some $"food"; sp_amount := Num 5 |}].

Definition tx_comma : Transaction :=
  {| tx_id := $"t1"; tx_date := Some $"2024-01-01"; tx_payee := Some $"Acme, Inc.";
     tx_description := Some $"lunch"; tx_splits := sample_splits; tx_createdAt := Num 17 |}.

Definition tx_plain : Transaction :=
  {| tx_id := $"t2"; tx_date := Some $"2024-01-03"; tx_payee := Some [];
     tx_description := Some $"tea"; tx_splits := sample_splits; tx_createdAt := Num 19 |}.

Definition tx_two_lines : Transaction :=
  {| tx_id := $"t3"; tx_date := Some $"2024-01-02"; tx_payee := Some $"Acme";
     tx_description := Some ($"first line" ++ [LF] ++ $"second line");
     tx_splits := sample_splits; tx_createdAt := Num 18 |}.

Definition tx_quoted_word : Transaction :=
  {| tx_id := $"t4"; tx_date := Some $"2024-01-02"; tx_payee := Some $"Acme";
     tx_description := Some ($"the " ++ [quote] ++ $"big" ++ [quote] ++ $" one");
     tx_splits := sample_splits; tx_createdAt := Num 18 |}.

(** ** Account tree: further notions *)

(** A walk of [n] child links starts at [s]. *)
Inductive descends (allAccounts : list Account) : str -> nat -> Prop :=
  | descends_here s : descends allAccounts s O
  | descends_child s a n :
      In a allAccounts -> acc_parentId a = Some s ->
      descends allAccounts (acc_id a) n -> descends allAccounts s (S n).

(** [x] lies on a cycle of the parentId relation: a child of [x] reaches
    [x] again. *)
Definition on_cycle (allAccounts : list Account) (x : str) : Prop :=
  exists a, In a allAccounts /\ acc_parentId a = Some x
            /\ reaches allAccounts (acc_id a) x.

(** ** Account tree: [buildAccountTree] *)

(** A node of the tree: a copy of the account with its [children] array.
    The nodes are objects shared between [accountMap], [roots] and the
    [children] arrays; a node is referred to by the key under which
    [accountMap] holds it. *)
Record TreeNode := {
  node_account : Account;
  node_children : list str
}.

(** The first [forEach]: [accountMap.set(acc.id, { ...acc, children: [] })];
    a later account with the same id takes the place of an earlier one. *)
Definition make_nodes (accounts : list Account) : gmap str TreeNode :=
  fold_left (fun accountMap acc =>
      <[acc_id acc := {| node_account := acc; node_children := [] |}]> accountMap)
    accounts ∅.

Definition push_child (child : str) (node : TreeNode) : TreeNode :=
  {| node_account := node_account node;
     node_children := node_children node ++ [child] |}.

(** The callback of the second [forEach], on the state
    [(accountMap, roots)]. *)
Definition place_node (st : gmap str TreeNode * list str) (acc : Account)
    : gmap str TreeNode * list str :=
  let '(accountMap, roots) := st in
  match accountMap !! acc_id acc with
  | None => st
  | Some _ =>
      match acc_parentId acc with
      | Some (c :: p) =>
          match accountMap !! (c :: p) with
          | Some parent => (<[(c :: p) := push_child (acc_id acc) parent]> accountMap, roots)
          | None => (accountMap, roots ++ [acc_id acc])
          end
      | _ => (accountMap, roots ++ [acc_id acc])
      end
  end.

(** The nodes and the array [roots] that is returned. *)
Definition buildAccountTree (accounts : list Account) : gmap str TreeNode * list str :=
  fold_left place_node accounts (make_nodes accounts, []).

(** [acc.parentId && accountMap.has(acc.parentId)], read off the account
    list: the parent id is not empty and is the id of some account. *)
Definition has_parent_in (accounts : list Account) (acc : Account) : bool :=
  match acc_parentId acc with
  | Some (c :: p) => existsb (fun a => bool_decide (acc_id a = c :: p)) accounts
  | _ => false
  end.

(** What holds of [(accountMap, roots)] when the second [forEach] has
    gone through the accounts [done]. *)
Definition placed (accounts : list Account) (done : list Account)
    (st : gmap str TreeNode * list str) : Prop :=
  (forall id, is_Some (st.1 !! id) <-> is_Some (make_nodes accounts !! id))
  /\ st.2 = map acc_id (List.filter (fun a => negb (has_parent_in accounts a)) done)
  /\ forall id n, st.1 !! id = Some n ->
       exists a, In a accounts /\ acc_id a = id /\ node_account n = a
         /\ node_children n
            = map acc_id (List.filter (fun a => has_parent_in accounts a
                            && bool_decide (acc_parentId a = Some id)) done).

(** ** Balances: further notions *)

(** All splits of a list of transactions, in order. *)
Definition all_splits (transactions : list Transaction) : list Split :=
  flat_map tx_splits transactions.

(** [ids.has(s.accountId)]. *)
Definition split_in (ids : gset str) (s : Split) : bool :=
  match sp_accountId s with
  | Some id => bool_decide (id ∈ ids)
  | None => false
  end.

(** The total of a branch in the detail view of the reports
    ([subCategoryGroups]): the splits of each transaction that fall on an
    id of the branch are added up per transaction, transactions without
    such a split are left out, and the sums are added up. *)
Definition relevant_amounts (allIdsInBranch : gset str) (transactions : list Transaction)
    : list (Transaction * number) :=
  flat_map (fun tx =>
      let relevantSplits := List.filter (split_in allIdsInBranch) (tx_splits tx) in
      match relevantSplits with
      | [] => []
      | _ :: _ =>
          [(tx, fold_left (fun sum s => num_add sum (sp_amount s)) relevantSplits (Num 0))]
      end)
    transactions.

Definition branch_total (fuel : nat) (acc : Account) (accounts : list Account)
    (transactions : list Transaction) : option number :=
  match getDescendantAccountIds fuel (acc_id acc) accounts with
  | Some descendantIds =>
      let allIdsInBranch := {[ acc_id acc ]} ∪ descendantIds in
      Some (fold_left (fun sum t => num_add sum (snd t))
              (relevant_amounts allIdsInBranch transactions) (Num 0))
  | None => None
  end.

(** The ids that the recursion of [calculateTreeBalance] visits, each as
    often as it is visited. *)
Fixpoint visited_ids (fuel : nat) (account : Account) (allAccounts : list Account)
    : list str :=
  match fuel with
  | O => []
  | S fuel' =>
      acc_id account
      :: flat_map (fun child => visited_ids fuel' child allAccounts)
           (children_of (acc_id account) allAccounts)
  end.

(** ** Dates and rows: further notions *)

(** The year, month and day written in a text of the form [YYYY-MM-DD],
    whatever their values. *)
Definition date_fields (s : str) : option (Z * Z * Z) :=
  match s with
  | [y1; y2; y3; y4; dash1; m1; m2; dash2; d1; d2] =>
      match digit_of y1, digit_of y2, digit_of y3, digit_of y4,
            digit_of m1, digit_of m2, digit_of d1, digit_of d2 with
      | Some a, Some b, Some c, Some d, Some e, Some f, Some g, Some h =>
          if bool_decide (dash1 = "-"%char) && bool_decide (dash2 = "-"%char)
          then Some (1000 * a + 100 * b + 10 * c + d, 10 * e + f, 10 * g + h)
          else None
      | _, _, _, _, _, _, _, _ => None
      end
  | _ => None
  end.

(** Earlier or equal, by year, then month, then day. *)
Definition ymd_leb (a b : Z * Z * Z) : bool :=
  let '(y1, m1, d1) := a in
  let '(y2, m2, d2) := b in
  (y1 <? y2) || ((y1 =? y2) && ((m1 <? m2) || ((m1 =? m2) && (d1 <=? d2)))).

(** A row on which the loop over the matches of the field pattern does
    not end: it starts with a comma, or with a quote that no second
    quote closes. *)
Definition endless_row (line : str) : Prop :=
  match line with
  | c :: r => c = comma \/ (c = quote /\ ~ In quote r)
  | [] => False
  end.

(** A field without a quote character. *)
Definition quote_free (v : option str) : Prop :=
  match v with
  | Some s => ~ In quote s
  | None => True
  end.

(** A transaction none of whose texts has a quote character. *)
Definition tx_quote_free (tx : Transaction) : Prop :=
  ~ In quote (tx_id tx) /\ quote_free (tx_date tx) /\ quote_free (tx_payee tx)
  /\ quote_free (tx_description tx)
  /\ Forall (fun sp => quote_free (sp_accountId sp)) (tx_splits tx).

(** The text with every LF replaced by CR LF. *)
Definition crlf (s : str) : str :=
  flat_map (fun c => if bool_decide (c = LF) then [CR; LF] else [c]) s.

(** A list in the order that [sort] with the comparator of the reader
    leaves: no element has to go before one that stands earlier. *)
Definition in_order (l : list Transaction) : Prop :=
  StronglySorted (fun a b => goes_before b a = false) l.

(** ** Filters *)

(** [d.setHours(h, m, s, ms)]: the local day of [d] is kept and the time
    within the day is set. *)
Definition setHours (tz : Z) (t : Z) (h m s ms : Z) : Z :=
  let lt := t + tz in
  lt / msPerDay * msPerDay + (h * 3600000 + m * 60000 + s * 1000 + ms) - tz.

(** [d.setDate(date)] and [d.setMonth(month)]: the other local fields
    and the time within the day are kept. *)
Definition setDate (tz : Z) (t : Z) (date : Z) : Z :=
  let lt := t + tz in
  let '(y, m, _) := civil_from_days (lt / msPerDay) in
  MakeDay y (m - 1) date * msPerDay + lt mod msPerDay - tz.

Definition setMonth (tz : Z) (t : Z) (month : Z) : Z :=
  let lt := t + tz in
  let '(y, _, d) := civil_from_days (lt / msPerDay) in
  MakeDay y month d * msPerDay + lt mod msPerDay - tz.

(** [d.getMonth()], from 0. *)
Definition getMonth (tz : Z) (t : Z) : Z :=
  let '(_, m, _) := civil_from_days ((t + tz) / msPerDay) in m - 1.

(** [new Date(v)] for a date of the data model; [None] is an Invalid
    Date, which [new Date(undefined)] is too. *)
Definition newDate (v : option str) : option Z :=
  match v with
  | Some s => parseDate s
  | None => None
  end.

(** [a <= b] on two dates: false when one of them is invalid. *)
Definition date_leb (a b : option Z) : bool :=
  match a, b with
  | Some x, Some y => x <=? y
  | _, _ => false
  end.

(** [toLowerCase] on the characters below 256: the letters A to Z and
    the accented capitals (all of 192 to 222 but the multiplication sign)
    move up by 32. *)
Definition toLowerCase_char (c : ascii) : ascii :=
  let n := nat_of_ascii c in
  if ((65 <=? n) && (n <=? 90) || (192 <=? n) && (n <=? 222) && negb (n =? 215))%nat
  then ascii_of_nat (n + 32)
  else c.

Definition toLowerCase (s : str) : str := map toLowerCase_char s.

Fixpoint startsWith (s prefix : str) : bool :=
  match prefix, s with
  | [], _ => true
  | p :: prefix', c :: s' => bool_decide (c = p) && startsWith s' prefix'
  | _ :: _, [] => false
  end.

(** [s.includes(term)]. *)
Fixpoint includes (s term : str) : bool :=
  startsWith s term
  || match s with
     | [] => false
     | _ :: s' => includes s' term
     end.

(** [payeeFilter ? payeeFilter.toLowerCase() : empty]. *)
Definition filter_term (payeeFilter : option str) : str :=
  match payeeFilter with
  | Some (c :: r) => toLowerCase (c :: r)
  | _ => []
  end.

(** [!term || (tx.payee || empty).toLowerCase().includes(term)]. *)
Definition payeeMatch (term : str) (tx : Transaction) : bool :=
  match term with
  | [] => true
  | _ :: _ => includes (toLowerCase (or_empty (tx_payee tx))) term
  end.

(** [tz] is the time zone of the host, local time minus UTC in
    milliseconds; an invalid bound is [None], and no date compares with
    it. *)
Definition filterTransactions (tz : Z) (transactions : list Transaction)
    (startDateStr endDateStr : str) (payeeFilter : option str) : list Transaction :=
  let start := option_map (fun t => setHours tz t 0 0 0 0) (parseDate startDateStr) in
  let end_ := option_map (fun t => setHours tz t 23 59 59 999) (parseDate endDateStr) in
  let term := filter_term payeeFilter in
  List.filter (fun tx =>
      let txDate := newDate (tx_date tx) in
      let dateMatch := date_leb start txDate && date_leb txDate end_ in
      dateMatch && payeeMatch term tx)
    transactions.

(** The ranges [MTD], [1M], [3M], [6M] and [1Y]. *)
Inductive DateRangeOption := MTD | M1 | M3 | M6 | Y1.

(** Both [new Date()] read the clock: readings 0 and 1 of [env]. *)
Definition filterTransactionsByDateRange (env : Env) (transactions : list Transaction)
    (range : DateRangeOption) : list Transaction :=
  let tz := tzOffset env in
  let now := setHours tz (clock env 0) 23 59 59 999 in
  let startDate := setHours tz (clock env 1) 0 0 0 0 in
  let startDate :=
    match range with
    | MTD => setDate tz startDate 1
    | _ =>
        let months :=
          match range with
          | M3 => 3
          | M6 => 6
          | Y1 => 12
          | _ => 1
          end in
        setMonth tz startDate (getMonth tz now - months)
    end in
  List.filter (fun tx =>
      let txDate := newDate (tx_date tx) in
      date_leb (Some startDate) txDate && date_leb txDate (Some now))
    transactions.

(** The transactions dated from day [s] to day [e], both included. *)
Definition dated_between (s e : Z) (tx : Transaction) : bool :=
  match newDate (tx_date tx) with
  | Some t => (s <=? t) && (t <=? e)
  | None => false
  end.

(** UTC midnight of the first day of the local month of [t]. *)
Definition month_start (tz : Z) (t : Z) : Z :=
  let '(y, m, _) := civil_from_days ((t + tz) / msPerDay) in
  MakeDay y (m - 1) 1 * msPerDay.

(** A host five hours behind UTC, the clock stopped at [ms]. *)
Definition env_west (ms : Z) : Env :=
  {| clock := fun _ => ms; random := fun _ => $"i"; tzOffset := -18000000 |}.

(** ** Dates: further notions *)

(** The local day of a time. *)
Definition local_day_of (tz : Z) (t : Z) : Z := (t + tz) / msPerDay.

(** West of UTC the local day of a UTC midnight is the day before; what
    is counted on local days is then one day off. *)
Definition west_shift (tz : Z) : Z := if tz <? 0 then 1 else 0.

(** The day reached from day [q] by one period: a number of days, or the
    same day of the next month or year, rolling over when that month is
    shorter. *)
Definition plus_period (frequency : Frequency) (q : Z) : Z :=
  let '(y, m, d) := civil_from_days q in
  match frequency with
  | daily => q + 1
  | weekly => q + 7
  | monthly => MakeDay y m d
  | yearly => MakeDay (y + 1) (m - 1) d
  end.

(** The first day of a range, counted on days: [q0] is the day of the
    first reading of the clock and [q1] of the second. *)
Definition range_first_day (range : DateRangeOption) (q0 q1 : Z) : Z :=
  let '(y1, m1, d1) := civil_from_days q1 in
  let '(_, m0, _) := civil_from_days q0 in
  match range with
  | MTD => MakeDay y1 (m1 - 1) 1
  | M1 => MakeDay y1 (m0 - 1 - 1) d1
  | M3 => MakeDay y1 (m0 - 1 - 3) d1
  | M6 => MakeDay y1 (m0 - 1 - 6) d1
  | Y1 => MakeDay y1 (m0 - 1 - 12) d1
  end.

(** The year of a time, on UTC. *)
Definition year_of (t : Z) : Z :=
  let '(y, _, _) := civil_from_days (t / msPerDay) in y.

(** A number that orders civil dates as year, month and day do. *)
Definition date_key (ymd : Z * Z * Z) : Z :=
  let '(y, m, d) := ymd in (12 * y + m) * 32 + d.

(** ** Numbers and dates within the model *)

(** [Number.MAX_SAFE_INTEGER], 2^53 - 1: up to it every integer is a
    number of the language, printed in plain digits and read back as
    itself. *)
Definition MAX_SAFE_INTEGER : Z := 9007199254740991.

(** A number that the model renders as the language does when it is
    printed and read: a safe integer or [NaN]. *)
Definition integer_or_NaN (n : number) : bool :=
  match n with
  | Num z => (- MAX_SAFE_INTEGER <=? z) && (z <=? MAX_SAFE_INTEGER)
  | NaN => true
  end.

(** A transaction whose [createdAt] and amounts are such numbers. *)
Definition codec_numbers (tx : Transaction) : bool :=
  integer_or_NaN (tx_createdAt tx)
  && forallb (fun sp => integer_or_NaN (sp_amount sp)) (tx_splits tx).

Definition magnitude (n : number) : Z :=
  match n with
  | Num z => Z.abs z
  | NaN => 0
  end.

(** Amounts on which no addition of the language rounds, in whatever
    order they are added: integers whose magnitudes total at most 2^53,
    so that every partial sum is an integer of at most that magnitude. *)
Definition exact_amounts (transactions : list Transaction) : Prop :=
  Forall (fun sp => sp_amount sp <> NaN) (all_splits transactions)
  /\ fold_right Z.add 0 (map (fun sp => magnitude (sp_amount sp)) (all_splits transactions))
     <= MAX_SAFE_INTEGER + 1.

(** Transactions whose date is missing or is a date of the data model,
    [YYYY-MM-DD]: the dates that [newDate] reads as [new Date] does. *)
Definition plain_dates (transactions : list Transaction) : Prop :=
  Forall (fun tx => match tx_date tx with
                    | Some s => iso_date s
                    | None => True
                    end) transactions.

(** * Properties *)

(** ** Account paths *)

Section AccountPath.

Variable allAccounts : list Account.

Lemma join_cons_nonempty (sep x : str) (l : list str) :
  l <> [] -> join sep (x :: l) = x ++ sep ++ join sep l.
Proof. destruct l; [congruence | reflexivity]. Qed.

Lemma path_accumulates (chain : list Account) (names : list str) :
  names <> [] ->
  fold_left (fun path parent => acc_name parent ++ $":" ++ path) chain (join $":" names)
  = join $":" (rev (map acc_name chain) ++ names).
Proof.
  revert names. induction chain as [|p chain IH]; intros names Hne; [reflexivity|].
  cbn [fold_left map rev].
  rewrite <- join_cons_nonempty by assumption.
  rewrite IH by discriminate.
  now rewrite <- app_assoc.
Qed.

Lemma last_cons_default (chain : list Account) (p d : Account) :
  List.last (p :: chain) d = List.last chain p.
Proof.
  revert p d. induction chain as [|x chain IH]; intros p d; [reflexivity|].
  change (List.last (p :: x :: chain) d) with (List.last (x :: chain) d).
  now rewrite (IH x d), (IH x p).
Qed.

Lemma getAccountPath_loop_chain (n : nat) (path : str) (current : Account) :
  exists chain : list Account,
    (length chain <= n)%nat
    /\ linked allAccounts current chain
    /\ ((length chain < n)%nat -> parent_step allAccounts (List.last chain current) = None)
    /\ getAccountPath_loop n path current allAccounts
       = fold_left (fun path parent => acc_name parent ++ $":" ++ path) chain path.
Proof.
  revert path current. induction n as [|n IH]; intros path current.
  - exists []. cbn. repeat split; auto; lia.
  - cbn [getAccountPath_loop].
    destruct (parent_step allAccounts current) as [parent|] eqn:Hstep.
    + unfold parent_step in Hstep.
      destruct (acc_parentId current) as [[|c p]|] eqn:Hpid; try discriminate.
      rewrite Hstep.
      destruct (IH (acc_name parent ++ $":" ++ path) parent) as (chain & Hlen & Hlink & Hend & Heq).
      exists (parent :: chain). repeat split.
      * cbn. lia.
      * unfold parent_step. now rewrite Hpid.
      * exact Hlink.
      * intros Hlt. cbn [length] in Hlt.
        replace (List.last (parent :: chain) current) with (List.last chain parent).
        { apply Hend. lia. }
        symmetry. apply last_cons_default.
      * exact Heq.
    + exists []. cbn [length linked List.last fold_left]. repeat split; auto; try lia.
      unfold parent_step in Hstep.
      destruct (acc_parentId current) as [[|c p]|]; try reflexivity.
      now rewrite Hstep.
Qed.

(** C8. [getAccountPath] is a total function that follows at most 20
    parent links, on every account list, cyclic ones included.  The links
    it follows form the chain of nearest ancestors; the result is the
    names of that chain, outermost first, then the account's own name,
    joined with a colon.  The walk ends early only where no parent can be
    found; at the ceiling of 20 it stops and returns what it has. *)
Theorem getAccountPath_bounded_root_first (account : Account) :
  exists chain : list Account,
    (length chain <= 20)%nat
    /\ linked allAccounts account chain
    /\ ((length chain < 20)%nat -> parent_step allAccounts (List.last chain account) = None)
    /\ getAccountPath account allAccounts
       = join $":" (map acc_name (rev (account :: chain))).
Proof.
  destruct (getAccountPath_loop_chain 20 (acc_name account) account)
    as (chain & Hlen & Hlink & Hend & Heq).
  exists chain. repeat split; auto.
  unfold getAccountPath. rewrite Heq.
  change (acc_name account) with (join $":" [acc_name account]).
  rewrite path_accumulates by discriminate.
  cbn [rev]. now rewrite map_app, map_rev.
Qed.

End AccountPath.

Example getAccountPath_of_child :
  getAccountPath (acct "B" (Some "A") "Bank") two_accounts = $"Assets:Bank".
Proof. reflexivity. Qed.

Example getAccountPath_on_cycle :
  getAccountPath loop_account [loop_account]
  = $"A:A:A:A:A:A:A:A:A:A:A:A:A:A:A:A:A:A:A:A:A".
Proof. reflexivity. Qed.

(** ** Descendants *)

Section Descendants.

Local Open Scope nat_scope.

Variable allAccounts : list Account.

Lemma pop_nil : pop [] = None.
Proof. reflexivity. Qed.

Lemma pop_snoc (rest : list str) (x : str) : pop (rest ++ [x]) = Some (rest, x).
Proof. unfold pop. rewrite rev_unit. now rewrite rev_involutive. Qed.

Lemma getDescendant_loop_nil (fuel : nat) (result : gset str) :
  getDescendant_loop fuel [] result allAccounts = Some result.
Proof. destruct fuel; reflexivity. Qed.

Lemma getDescendant_loop_snoc (fuel : nat) (rest : list str) (x : str) (result : gset str) :
  getDescendant_loop (S fuel) (rest ++ [x]) result allAccounts
  = getDescendant_loop fuel (rest ++ map acc_id (children_of x allAccounts))
      ({[ x ]} ∪ result) allAccounts.
Proof. cbn [getDescendant_loop]. now rewrite pop_snoc. Qed.

Lemma in_child_ids (cur s : str) :
  In s (map acc_id (children_of cur allAccounts))
  <-> exists a, In a allAccounts /\ acc_parentId a = Some cur /\ acc_id a = s.
Proof.
  unfold children_of. rewrite in_map_iff. split.
  - intros (a & <- & Hin). apply filter_In in Hin as [Hin Hp].
    apply bool_decide_eq_true in Hp. eauto.
  - intros (a & Hin & Hp & <-). exists a. split; [reflexivity|].
    apply filter_In. split; [assumption|]. now apply bool_decide_eq_true.
Qed.

Lemma reaches_inv (root x : str) :
  reaches allAccounts root x
  <-> x = root \/ exists s, In s (map acc_id (children_of root allAccounts))
                         /\ reaches allAccounts s x.
Proof.
  split.
  - intros H. destruct H as [|a x Hin Hp Hr]; [now left|].
    right. exists (acc_id a). split; [|assumption]. apply in_child_ids. eauto.
  - intros [->|(s & Hs & Hr)]; [constructor|].
    apply in_child_ids in Hs as (a & Hin & Hp & <-). econstructor; eauto.
Qed.

Lemma reaches_trans (a b c : str) :
  reaches allAccounts a b -> reaches allAccounts b c -> reaches allAccounts a c.
Proof. induction 1; [auto|]. intros. econstructor; eauto. Qed.

(** What the loop returns: the ids already collected and everything
    reachable from the stack. *)
Lemma getDescendant_loop_spec (fuel : nat) :
  forall (stack : list str) (result out : gset str),
    getDescendant_loop fuel stack result allAccounts = Some out ->
    forall x, x ∈ out <-> (x ∈ result \/ exists s, In s stack /\ reaches allAccounts s x).
Proof.
  induction fuel as [|fuel IH]; intros stack result out Hrun x;
    destruct stack as [|top stack _] using rev_ind.
  - rewrite getDescendant_loop_nil in Hrun. injection Hrun as <-.
    split; [auto|]. intros [H|(s & [] & _)]. exact H.
  - cbn [getDescendant_loop] in Hrun. rewrite pop_snoc in Hrun. discriminate.
  - rewrite getDescendant_loop_nil in Hrun. injection Hrun as <-.
    split; [auto|]. intros [H|(s & [] & _)]. exact H.
  - rewrite getDescendant_loop_snoc in Hrun.
    rewrite (IH _ _ _ Hrun x). rewrite elem_of_union, elem_of_singleton. split.
    + intros [[->|H]|(s & Hs & Hr)].
      * right. exists top. split; [apply in_or_app; right; now left | constructor].
      * now left.
      * right. apply in_app_or in Hs as [Hs|Hs].
        -- exists s. split; [apply in_or_app; now left | assumption].
        -- exists top. split; [apply in_or_app; right; now left|].
           apply reaches_inv. right. eauto.
    + intros [H|(s & Hs & Hr)]; [now left; right|].
      apply in_app_or in Hs as [Hs|[<-|[]]].
      * right. exists s. split; [apply in_or_app; now left | assumption].
      * apply reaches_inv in Hr as [->|(c & Hc & Hr)]; [now left; left|].
        right. exists c. split; [apply in_or_app; now right | assumption].
Qed.

Section Ranked.

Variable rank : str -> nat.
Hypothesis rank_decreases :
  forall a p, In a allAccounts -> acc_parentId a = Some p -> rank (acc_id a) < rank p.

(** Under a ranking the loop works off the top of its stack in finitely
    many steps, leaving the rest of the stack as it was. *)
Lemma getDescendant_loop_pops (n : nat) :
  forall id, rank id < n ->
  forall (rest : list str) (result : gset str),
    exists fuel result', forall extra,
      getDescendant_loop (fuel + extra) (rest ++ [id]) result allAccounts
      = getDescendant_loop extra rest result' allAccounts.
Proof.
  induction n as [|n IH]; intros id Hid rest result; [lia|].
  assert (Hmany : forall ids, Forall (fun c => rank c < n) ids ->
            forall rest result, exists fuel result', forall extra,
              getDescendant_loop (fuel + extra) (rest ++ ids) result allAccounts
              = getDescendant_loop extra rest result' allAccounts).
  { induction ids as [|c ids IHids] using rev_ind; intros Hall rest0 result0.
    - exists 0, result0. intros extra. now rewrite app_nil_r.
    - apply Forall_app in Hall as [Hids Hc]. apply Forall_inv in Hc.
      destruct (IH c Hc (rest0 ++ ids) result0) as (f1 & r1 & H1).
      destruct (IHids Hids rest0 r1) as (f2 & r2 & H2).
      exists (f1 + f2), r2. intros extra.
      rewrite app_assoc. replace (f1 + f2 + extra) with (f1 + (f2 + extra)) by lia.
      rewrite H1. apply H2. }
  destruct (Hmany (map acc_id (children_of id allAccounts))) with (rest := rest)
    (result := ({[ id ]} ∪ result : gset str)) as (f & r & H).
  { apply List.Forall_forall. intros s Hs.
    apply in_child_ids in Hs as (a & Hin & Hp & <-).
    specialize (rank_decreases a id Hin Hp). lia. }
  exists (S f), r. intros extra.
  change (S f + extra) with (S (f + extra)).
  rewrite getDescendant_loop_snoc. apply H.
Qed.

Lemma getDescendantAccountIds_terminates (rootId : str) :
  exists fuel out, forall extra,
    getDescendantAccountIds (fuel + extra) rootId allAccounts = Some out.
Proof.
  destruct (getDescendant_loop_pops (S (rank rootId)) rootId (Nat.lt_succ_diag_r _) [] ∅)
    as (fuel & out & H).
  exists fuel, out. intros extra. unfold getDescendantAccountIds.
  change [rootId] with ([] ++ [rootId]). rewrite H. apply getDescendant_loop_nil.
Qed.

End Ranked.

Lemma getDescendantAccountIds_spec (fuel : nat) (rootId : str) (out : gset str) :
  getDescendantAccountIds fuel rootId allAccounts = Some out ->
  forall x, x ∈ out <-> reaches allAccounts rootId x.
Proof.
  intros Hrun x. unfold getDescendantAccountIds in Hrun.
  rewrite (getDescendant_loop_spec _ _ _ _ Hrun x). split.
  - intros [H|(s & [<-|[]] & Hr)]; [|assumption]. now apply not_elem_of_empty in H.
  - intros H. right. exists rootId. split; [now left | assumption].
Qed.

(** C7. On an account list whose parentId relation is acyclic,
    [getDescendantAccountIds] terminates for every root id (some fuel,
    and any larger one, gives the result), the result contains the root
    id, and for every account whose parentId is the root id the call on
    that account's id terminates too, with a result included in the
    root's.  No amount of fuel gives another result. *)
Theorem getDescendantAccountIds_root_and_children (rootId : str) :
  acyclic allAccounts ->
  exists out : gset str,
    (exists fuel, forall extra,
        getDescendantAccountIds (fuel + extra) rootId allAccounts = Some out)
    /\ (forall fuel' out',
          getDescendantAccountIds fuel' rootId allAccounts = Some out' -> out' = out)
    /\ rootId ∈ out
    /\ forall c, In c allAccounts -> acc_parentId c = Some rootId ->
         exists out_c : gset str,
           (exists fuel, forall extra,
               getDescendantAccountIds (fuel + extra) (acc_id c) allAccounts = Some out_c)
           /\ out_c ⊆ out.
Proof.
  intros [rank Hrank].
  destruct (getDescendantAccountIds_terminates rank Hrank rootId) as (fuel & out & Hrun).
  exists out. split; [eauto|].
  pose proof (getDescendantAccountIds_spec _ _ _ (Hrun 0)) as Hout.
  split.
  { intros fuel' out' Hrun'. apply set_eq. intros x.
    rewrite (getDescendantAccountIds_spec _ _ _ Hrun' x). now rewrite Hout. }
  split; [apply Hout; constructor|].
  intros c Hin Hp.
  destruct (getDescendantAccountIds_terminates rank Hrank (acc_id c)) as (fuel_c & out_c & Hrun_c).
  exists out_c. split; [eauto|].
  pose proof (getDescendantAccountIds_spec _ _ _ (Hrun_c 0)) as Hout_c.
  intros x Hx. apply Hout. apply Hout_c in Hx. econstructor; eauto.
Qed.

End Descendants.

Example getDescendantAccountIds_of_root :
  getDescendantAccountIds 2 $"A" two_accounts = Some ({[ $"B" ]} ∪ ({[ $"A" ]} ∪ ∅)).
Proof. reflexivity. Qed.

(** On a self-parented account the loop pushes the id back for ever. *)
Example getDescendantAccountIds_on_cycle :
  getDescendantAccountIds 50 $"a" [loop_account] = None.
Proof. reflexivity. Qed.

Lemma two_accounts_acyclic : acyclic two_accounts.
Proof.
  exists two_accounts_rank. intros a p Hin Hp.
  destruct Hin as [<-|[<-|[]]]; cbn in Hp; [discriminate|].
  injection Hp as <-. vm_compute. lia.
Qed.

Lemma getDescendantAccountIds_root_and_children_witness :
  acyclic two_accounts /\
  exists out : gset str,
    (exists fuel, forall extra,
        getDescendantAccountIds (fuel + extra) $"A" two_accounts = Some out)
    /\ (forall fuel' out',
          getDescendantAccountIds fuel' $"A" two_accounts = Some out' -> out' = out)
    /\ $"A" ∈ out
    /\ forall c, In c two_accounts -> acc_parentId c = Some $"A" ->
         exists out_c : gset str,
           (exists fuel, forall extra,
               getDescendantAccountIds (fuel + extra) (acc_id c) two_accounts = Some out_c)
           /\ out_c ⊆ out.
Proof.
  split; [exact two_accounts_acyclic|].
  apply (getDescendantAccountIds_root_and_children two_accounts $"A").
  exact two_accounts_acyclic.
Defined.

(** ** Balances *)

Lemma num_add_assoc (a b c : number) : num_add (num_add a b) c = num_add a (num_add b c).
Proof. destruct a, b, c; cbn; try reflexivity. now rewrite Z.add_assoc. Qed.

Lemma num_add_0_r (a : number) : num_add a (Num 0) = a.
Proof. destruct a; cbn; [reflexivity|]. now rewrite Z.add_0_r. Qed.

Lemma fold_left_num_add (bs : list number) (a : number) :
  fold_left num_add bs a = num_add a (num_sum bs).
Proof.
  revert a. induction bs as [|b bs IH]; intros a; cbn.
  - now rewrite num_add_0_r.
  - now rewrite IH, num_add_assoc.
Qed.

Section TreeBalance.

Local Open Scope nat_scope.

Variable allAccounts : list Account.
Variable transactions : list Transaction.

Local Abbreviation own a := (calculateAccountBalance (acc_id a) transactions).
Local Abbreviation tree fuel a := (calculateTreeBalance fuel a allAccounts transactions).

(** The [forEach] over the children, when every recursive call returns. *)
Lemma fold_children_Some (f : Account -> option number) (cs : list Account)
    (bs : list number) (total : number) :
  Forall2 (fun c b => f c = Some b) cs bs ->
  fold_left (fun t c => add_child t (f c)) cs (Some total) = Some (fold_left num_add bs total).
Proof.
  intros H. revert total. induction H as [|c b cs bs Hc _ IH]; intros total; [reflexivity|].
  cbn [fold_left]. rewrite Hc. cbn [add_child]. apply IH.
Qed.

Lemma fold_children_None (f : Account -> option number) (cs : list Account) :
  fold_left (fun t c => add_child t (f c)) cs None = None.
Proof. induction cs as [|c cs IH]; [reflexivity|]. exact IH. Qed.

Lemma fold_children_inv (f : Account -> option number) (cs : list Account)
    (total b : number) :
  fold_left (fun t c => add_child t (f c)) cs (Some total) = Some b ->
  exists bs, Forall2 (fun c b => f c = Some b) cs bs /\ b = fold_left num_add bs total.
Proof.
  revert total. induction cs as [|c cs IH]; intros total H.
  - injection H as <-. exists []. split; [constructor | reflexivity].
  - cbn [fold_left] in H. destruct (f c) as [bc|] eqn:Hc.
    + cbn [add_child] in H. destruct (IH _ H) as (bs & Hbs & ->).
      exists (bc :: bs). split; [now constructor | reflexivity].
    + cbn [add_child] in H. rewrite fold_children_None in H. discriminate.
Qed.

(** More fuel does not change a result. *)
Lemma calculateTreeBalance_mono (fuel : nat) :
  forall a b, tree fuel a = Some b -> forall extra, tree (fuel + extra) a = Some b.
Proof.
  induction fuel as [|fuel IH]; intros a b H extra; [discriminate|].
  cbn [calculateTreeBalance plus] in *.
  apply fold_children_inv in H as (bs & Hbs & ->).
  apply fold_children_Some.
  eapply Forall2_impl; [exact Hbs|]. cbn. intros c bc Hc. now apply IH.
Qed.

Lemma calculateTreeBalance_unique (f1 f2 : nat) (a : Account) (b1 b2 : number) :
  tree f1 a = Some b1 -> tree f2 a = Some b2 -> b1 = b2.
Proof.
  intros H1 H2.
  apply calculateTreeBalance_mono with (extra := f2) in H1.
  apply calculateTreeBalance_mono with (extra := f1) in H2.
  rewrite (Nat.add_comm f2 f1) in H2. congruence.
Qed.

(** The recursion unfolded once, with the children's balances taken at
    any fuel at which they are defined, and added as the source adds
    them: one after the other onto the own balance. *)
Lemma calculateTreeBalance_adds_children (fuel fuel' : nat) (a : Account) (b : number)
    (bs : list number) :
  tree fuel a = Some b ->
  Forall2 (fun c bc => tree fuel' c = Some bc) (children_of (acc_id a) allAccounts) bs ->
  b = fold_left num_add bs (own a).
Proof.
  intros H Hbs. destruct fuel as [|fuel]; [discriminate|].
  cbn [calculateTreeBalance] in H.
  apply fold_children_inv in H as (bs' & Hbs' & ->). f_equal.
  revert bs' Hbs'. induction Hbs as [|c bc cs bs Hc _ IH]; intros bs' Hbs'.
  - now inversion Hbs'.
  - inversion Hbs' as [|c' bc' cs' bs'' Hc' Hrest]; subst.
    f_equal; [|now apply IH].
    eapply calculateTreeBalance_unique; eassumption.
Qed.

Section RankedBalance.

Variable rank : str -> nat.
Hypothesis rank_decreases :
  forall a p, In a allAccounts -> acc_parentId a = Some p -> rank (acc_id a) < rank p.

Lemma calculateTreeBalance_terminates (fuel : nat) :
  forall a, rank (acc_id a) < fuel -> exists b, tree fuel a = Some b.
Proof.
  induction fuel as [|fuel IH]; intros a Ha; [lia|].
  cbn [calculateTreeBalance].
  assert (Hcs : exists bs, Forall2 (fun c b => tree fuel c = Some b)
                             (children_of (acc_id a) allAccounts) bs).
  { unfold children_of.
    assert (Hsub : forall c, In c (List.filter
                (fun c => bool_decide (acc_parentId c = Some (acc_id a))) allAccounts) ->
              rank (acc_id c) < fuel).
    { intros c Hc. apply filter_In in Hc as [Hin Hp].
      apply bool_decide_eq_true in Hp.
      specialize (rank_decreases c _ Hin Hp). lia. }
    revert Hsub. generalize (List.filter
      (fun c => bool_decide (acc_parentId c = Some (acc_id a))) allAccounts).
    induction l as [|c cs IHcs]; intros Hsub.
    - exists []. constructor.
    - destruct (IH c) as [bc Hbc]; [apply Hsub; now left|].
      destruct IHcs as [bs Hbs]; [intros; apply Hsub; now right|].
      exists (bc :: bs). now constructor. }
  destruct Hcs as [bs Hbs]. eexists. apply fold_children_Some. exact Hbs.
Qed.

End RankedBalance.

End TreeBalance.

Section Flattened.

Local Open Scope nat_scope.

Variable accounts : list Account.
Variable transactions : list Transaction.

Lemma flatten_one_inv (fuel : nat) (a : Account) (fb : FlattenedAccountBalance) :
  flatten_one fuel accounts transactions a = Some fb ->
  calculateTreeBalance fuel a accounts transactions = Some (fb_balance fb)
  /\ fb_id fb = acc_id a.
Proof.
  unfold flatten_one.
  destruct (calculateTreeBalance fuel a accounts transactions); [|discriminate].
  intros [= <-]. now split.
Qed.

Lemma flatten_one_mono (fuel extra : nat) (a : Account) (fb : FlattenedAccountBalance) :
  flatten_one fuel accounts transactions a = Some fb ->
  flatten_one (fuel + extra) accounts transactions a = Some fb.
Proof.
  unfold flatten_one.
  destruct (calculateTreeBalance fuel a accounts transactions) as [b|] eqn:Hb; [|discriminate].
  now rewrite (calculateTreeBalance_mono _ _ _ _ _ Hb extra).
Qed.

Lemma child_balances_Forall2 (fuel : nat) (parent : Account)
    (accs : list Account) (out : list FlattenedAccountBalance) :
  Forall2 (fun a fb => calculateTreeBalance fuel a accounts transactions
                       = Some (fb_balance fb)) accs out ->
  Forall2 (fun c bc => calculateTreeBalance fuel c accounts transactions = Some bc)
    (children_of (acc_id parent) accs) (child_balances parent accs out).
Proof.
  unfold children_of, child_balances.
  induction 1 as [|a fb accs out Ha _ IH]; [constructor|].
  cbn [combine List.filter fst]. destruct (bool_decide _); [|exact IH].
  cbn [map snd]. now constructor.
Qed.

(** C4, on acyclic account lists.  When the parentId relation of the
    account list has no cycle, [getFlattenedBalances] returns (some
    recursion depth, and any larger one, is enough), with one entry per
    account in the order of the list; the balance of each entry is the
    account's own balance with the balances of the entries of its direct
    children added to it one after the other, in the order of the list,
    and the own balance alone when no account names it as parent.  No
    law of addition is used: the identity holds as the source adds. *)
Theorem getFlattenedBalances_identity :
  acyclic accounts ->
  exists fuel out,
    (forall extra, getFlattenedBalances (fuel + extra) accounts transactions = Some out)
    /\ map fb_id out = map acc_id accounts
    /\ forall i acc fb,
         accounts !! i = Some acc -> out !! i = Some fb ->
         fb_balance fb
         = fold_left num_add (child_balances acc accounts out)
             (calculateAccountBalance (acc_id acc) transactions)
         /\ ((forall c, In c accounts -> acc_parentId c <> Some (acc_id acc)) ->
             fb_balance fb = calculateAccountBalance (acc_id acc) transactions).
Proof.
  intros [rank Hrank].
  set (fuel := S (max_list (map (fun a => rank (acc_id a)) accounts))).
  assert (Hall : Forall (is_Some ∘ flatten_one fuel accounts transactions) accounts).
  { apply List.Forall_forall. intros a Ha. cbn.
    destruct (calculateTreeBalance_terminates accounts transactions rank Hrank fuel a)
      as [b Hb].
    - unfold fuel. apply Nat.lt_succ_r. apply max_list_elem_of_le.
      apply list_elem_of_In. apply in_map_iff. eauto.
    - unfold flatten_one. rewrite Hb. eauto. }
  clearbody fuel. apply mapM_is_Some_2 in Hall as [out Hout].
  pose proof (mapM_Some_1 _ _ _ Hout) as HF.
  exists fuel, out. split; [|split].
  - intros extra. apply mapM_Some_2.
    eapply Forall2_impl; [exact HF|]. intros a fb H. exact (flatten_one_mono fuel extra a fb H).
  - clear Hout. induction HF as [|a fb accs out' Ha _ IH]; [reflexivity|].
    cbn [map]. apply flatten_one_inv in Ha as [_ ->]. now rewrite IH.
  - intros i acc fb Hacc Hfb.
    assert (HF' : Forall2 (fun a fb => calculateTreeBalance fuel a accounts transactions
                                       = Some (fb_balance fb)) accounts out).
    { eapply Forall2_impl; [exact HF|]. cbn. intros a fb' H.
      now apply flatten_one_inv in H. }
    pose proof (Forall2_lookup_lr _ _ _ _ _ _ HF' Hacc Hfb) as Hb. cbv beta in Hb.
    pose proof (calculateTreeBalance_adds_children _ _ _ _ _ _ _ Hb
                  (child_balances_Forall2 fuel acc accounts out HF')) as Heq.
    split; [exact Heq|].
    intros Hleaf. rewrite Heq.
    assert (Hnone : children_of (acc_id acc) accounts = []).
    { destruct (children_of (acc_id acc) accounts) as [|c cs] eqn:Hcs; [reflexivity|].
      assert (Hc : In c (children_of (acc_id acc) accounts)) by (rewrite Hcs; now left).
      apply filter_In in Hc as [Hc Hp]. apply bool_decide_eq_true in Hp.
      now destruct (Hleaf c Hc). }
    pose proof (child_balances_Forall2 fuel acc accounts out HF') as Hcb.
    rewrite Hnone in Hcb. inversion Hcb. reflexivity.
Qed.

End Flattened.

(** C4 as stated fails: on an account that is its own parent the
    recursion of [calculateTreeBalance] never returns, whatever depth is
    allowed, and [getFlattenedBalances] yields no entry. *)
Lemma getFlattenedBalances_cycle_no_result :
  ~ exists fuel out, getFlattenedBalances fuel [loop_account] [] = Some out.
Proof.
  intros (fuel & out & Hrun). revert fuel Hrun.
  enough (Hnone : forall fuel, getFlattenedBalances fuel [loop_account] [] = None)
    by (intros fuel Hrun; rewrite Hnone in Hrun; discriminate).
  assert (H : forall fuel, calculateTreeBalance fuel loop_account [loop_account] [] = None).
  { induction fuel as [|fuel IH]; [reflexivity|].
    cbn [calculateTreeBalance]. cbn [children_of List.filter loop_account acc_parentId acc_id].
    rewrite bool_decide_eq_true_2 by reflexivity.
    cbn [fold_left]. rewrite IH. reflexivity. }
  intros fuel. unfold getFlattenedBalances. apply mapM_None_2.
  constructor. unfold flatten_one. now rewrite H.
Qed.

Lemma getFlattenedBalances_identity_witness :
  acyclic two_accounts /\
  exists fuel out,
    (forall extra, getFlattenedBalances (fuel + extra) two_accounts two_account_txs = Some out)
    /\ map fb_id out = map acc_id two_accounts
    /\ forall i acc fb,
         two_accounts !! i = Some acc -> out !! i = Some fb ->
         fb_balance fb
         = fold_left num_add (child_balances acc two_accounts out)
             (calculateAccountBalance (acc_id acc) two_account_txs)
         /\ ((forall c, In c two_accounts -> acc_parentId c <> Some (acc_id acc)) ->
             fb_balance fb = calculateAccountBalance (acc_id acc) two_account_txs).
Proof.
  split; [exact two_accounts_acyclic|].
  apply (getFlattenedBalances_identity two_accounts two_account_txs).
  exact two_accounts_acyclic.
Defined.

(** The scenario of the specification: a split of 100 on the child shows
    in the balance of the child and of its parent. *)
Example getFlattenedBalances_scenario :
  option_map (map fb_balance) (getFlattenedBalances 2 two_accounts two_account_txs)
  = Some [Num 100; Num 100].
Proof. reflexivity. Qed.

(** ** Recurring transactions *)

Section Engine.

Local Open Scope nat_scope.

Variable env : Env.
Variable td : str.

Lemma process_item_inv (k : nat) (item item' : RecurringTransaction)
    (emitted : option Transaction) :
  process_item env td k item = Some (emitted, item') ->
  item_step env td item item'
  /\ emitted = if is_due td item then Some (emitted_tx env k item) else None.
Proof.
  unfold process_item. destruct (is_due td item) eqn:Hdue.
  - destruct (calculateNextDueDate _ _ _) as [next|] eqn:Hnext; [|discriminate].
    intros [= <- <-]. split; [|reflexivity].
    apply step_fire; [assumption | repeat split | split; [exact Hnext | reflexivity]].
  - intros [= <- <-]. split; [|reflexivity]. now apply step_skip.
Qed.

Lemma process_items_inv (rules : list RecurringTransaction) :
  forall (k : nat) (new : list Transaction) (upd : list RecurringTransaction),
    process_items env td k rules = Some (new, upd) ->
    Forall2 (item_step env td) rules upd
    /\ new = imap (fun j r => emitted_tx env (k + j) r) (List.filter (is_due td) rules).
Proof.
  induction rules as [|item rest IH]; intros k new upd H.
  - injection H as <- <-. split; [constructor | reflexivity].
  - cbn [process_items] in H.
    destruct (process_item env td k item) as [[emitted item']|] eqn:Hitem; [|discriminate].
    apply process_item_inv in Hitem as [Hstep ->].
    cbn [List.filter]. destruct (is_due td item).
    + destruct (process_items env td (S k) rest) as [[new' upd']|] eqn:Hrest; [|discriminate].
      injection H as <- <-. apply IH in Hrest as [HF ->].
      split; [now constructor|].
      cbn [imap]. rewrite Nat.add_0_r. f_equal.
      apply imap_ext. intros j r _. cbn. f_equal. lia.
    + destruct (process_items env td k rest) as [[new' upd']|] eqn:Hrest; [|discriminate].
      injection H as <- <-. apply IH in Hrest as [HF ->].
      split; [now constructor | reflexivity].
Qed.

(** The engine returns when the due dates it has to advance are dates. *)
Lemma process_items_total (rules : list RecurringTransaction) :
  Forall (fun r => iso_date (rt_nextDueDate r)) rules ->
  forall k, is_Some (process_items env td k rules).
Proof.
  induction 1 as [|item rest [t Ht] _ IH]; intros k; [cbn; eauto|].
  cbn [process_items]. unfold process_item, calculateNextDueDate. rewrite Ht.
  destruct (is_due td item).
  - destruct (IH (S k)) as [[new upd] ->]. eauto.
  - destruct (IH k) as [[new upd] ->]. eauto.
Qed.

(** Nothing is due: nothing is emitted and the rules come back as they
    were. *)
Lemma process_items_none_due (rules : list RecurringTransaction) (k : nat) :
  Forall (fun r => is_due td r = false) rules ->
  process_items env td k rules = Some ([], rules).
Proof.
  induction 1 as [|item rest Hitem _ IH]; [reflexivity|].
  cbn [process_items]. unfold process_item. rewrite Hitem. now rewrite IH.
Qed.

Lemma process_items_emits_nothing (rules : list RecurringTransaction) (k : nat)
    (upd : list RecurringTransaction) :
  process_items env td k rules = Some ([], upd) ->
  Forall (fun r => is_due td r = false) rules.
Proof.
  intros H. apply process_items_inv in H as [_ H].
  apply List.Forall_forall. intros r Hr.
  destruct (is_due td r) eqn:Hdue; [|reflexivity].
  assert (Hin : In r (List.filter (is_due td) rules)) by (apply filter_In; auto).
  destruct (List.filter (is_due td) rules); [destruct Hin | discriminate].
Qed.

(** An inactive rule can be taken out of the list without any effect on
    what the others produce. *)
Lemma process_items_inactive (rules : list RecurringTransaction) :
  forall (k i : nat) (r : RecurringTransaction) (new : list Transaction)
         (upd : list RecurringTransaction),
    process_items env td k rules = Some (new, upd) ->
    rules !! i = Some r -> rt_active r = false ->
    upd !! i = Some r
    /\ process_items env td k (delete i rules) = Some (new, delete i upd).
Proof.
  induction rules as [|item rest IH]; intros k i r new upd H Hi Hr; [discriminate|].
  cbn [process_items] in H.
  destruct i as [|i].
  - injection Hi as ->.
    assert (Hskip : process_item env td k r = Some (None, r)).
    { unfold process_item, is_due. now rewrite Hr. }
    rewrite Hskip in H.
    destruct (process_items env td k rest) as [[new' upd']|] eqn:Hrest; [|discriminate].
    injection H as <- <-. split; [reflexivity | exact Hrest].
  - cbn in Hi.
    destruct (process_item env td k item) as [[[tx|] item']|] eqn:Hitem; [| |discriminate].
    + destruct (process_items env td (S k) rest) as [[new' upd']|] eqn:Hrest; [|discriminate].
      injection H as <- <-.
      destruct (IH _ _ _ _ _ Hrest Hi Hr) as [Hupd Hdel].
      split; [exact Hupd|].
      change (delete (S i) (item :: rest)) with (item :: delete i rest).
      cbn [process_items]. now rewrite Hitem, Hdel.
    + destruct (process_items env td k rest) as [[new' upd']|] eqn:Hrest; [|discriminate].
      injection H as <- <-.
      destruct (IH _ _ _ _ _ Hrest Hi Hr) as [Hupd Hdel].
      split; [exact Hupd|].
      change (delete (S i) (item :: rest)) with (item :: delete i rest).
      cbn [process_items]. now rewrite Hitem, Hdel.
Qed.

Lemma item_step_same_template (item item' : RecurringTransaction) :
  item_step env td item item' -> same_template item item'.
Proof. intros [_ ->|_ H _]; [repeat split | exact H]. Qed.

End Engine.

(** C10. [processDueRecurringTransactions] returns whenever the due dates
    of the rules are dates, and the list of rules it returns has the
    length and the order of its input, each rule with its id, frequency,
    payee, description, splits and active flag as they were; only
    [nextDueDate] and [lastRun] can differ. *)
Theorem processDue_keeps_rule_templates (env : Env)
    (rules : list RecurringTransaction) (txs : list Transaction) :
  (Forall (fun r => iso_date (rt_nextDueDate r)) rules ->
   is_Some (processDueRecurringTransactions env rules txs))
  /\ forall new upd,
       processDueRecurringTransactions env rules txs = Some (new, upd) ->
       length upd = length rules
       /\ forall i r, rules !! i = Some r ->
            exists r', upd !! i = Some r' /\ same_template r r'.
Proof.
  split; [intros Hdates; now apply process_items_total|].
  intros new upd H. apply process_items_inv in H as [HF _]. split.
  - symmetry. eapply Forall2_length. exact HF.
  - intros i r Hi.
    destruct (Forall2_lookup_l _ _ _ _ _ HF Hi) as (r' & Hr' & Hstep).
    exists r'. split; [exact Hr'|]. eapply item_step_same_template. exact Hstep.
Qed.

Lemma sample_rules_dates : Forall (fun r => iso_date (rt_nextDueDate r)) sample_rules.
Proof. repeat constructor; vm_compute; eauto. Qed.

Lemma processDue_keeps_rule_templates_witness :
  Forall (fun r => iso_date (rt_nextDueDate r)) sample_rules
  /\ exists new upd,
    processDueRecurringTransactions (env_at jan10) sample_rules [] = Some (new, upd)
    /\ length upd = length sample_rules
    /\ forall i r, sample_rules !! i = Some r ->
         exists r', upd !! i = Some r' /\ same_template r r'.
Proof.
  split; [exact sample_rules_dates|].
  destruct (processDue_keeps_rule_templates (env_at jan10) sample_rules []) as [Hret Hkeep].
  eexists _, _. split; [vm_compute; reflexivity|].
  eapply Hkeep. vm_compute. reflexivity.
Defined.

(** C6. The engine returns whenever the due dates of the rules are
    dates, and in what it returns a rule with [active == false] is at its
    position unchanged in every field, wherever its [nextDueDate] lies,
    and nothing is emitted for it: without the rule in the list the
    engine emits the same transactions and returns the same other
    rules. *)
Theorem processDue_skips_inactive (env : Env)
    (rules : list RecurringTransaction) (txs : list Transaction) :
  (Forall (fun r => iso_date (rt_nextDueDate r)) rules ->
   is_Some (processDueRecurringTransactions env rules txs))
  /\ forall new upd i r,
       processDueRecurringTransactions env rules txs = Some (new, upd) ->
       rules !! i = Some r -> rt_active r = false ->
       upd !! i = Some r
       /\ processDueRecurringTransactions env (delete i rules) txs
          = Some (new, delete i upd).
Proof.
  split; [intros Hdates; now apply process_items_total|].
  intros new upd i r. apply process_items_inactive.
Qed.

Lemma processDue_skips_inactive_witness :
  Forall (fun r => iso_date (rt_nextDueDate r)) sample_rules
  /\ exists new upd,
    processDueRecurringTransactions (env_at jan10) sample_rules [] = Some (new, upd)
    /\ sample_rules !! 3%nat = Some (rule "r4" daily "2023-11-01" false)
    /\ upd !! 3%nat = Some (rule "r4" daily "2023-11-01" false)
    /\ processDueRecurringTransactions (env_at jan10) (delete 3%nat sample_rules) []
       = Some (new, delete 3%nat upd).
Proof.
  split; [exact sample_rules_dates|].
  destruct (processDue_skips_inactive (env_at jan10) sample_rules []) as [Hret Hskip].
  eexists _, _. split; [vm_compute; reflexivity|]. split; [reflexivity|].
  eapply Hskip; [vm_compute; reflexivity | reflexivity | reflexivity].
Defined.

Lemma emitted_ids (env : Env) (rules : list RecurringTransaction) (k : nat) :
  map tx_id (imap (fun j r => emitted_tx env (k + j) r) rules)
  = map (random env) (seq k (length rules)).
Proof.
  revert k. induction rules as [|r rules IH]; intros k; [reflexivity|].
  rewrite imap_cons. cbn [map length seq]. rewrite Nat.add_0_r. f_equal.
  rewrite <- IH. f_equal. apply imap_ext. intros j x _. cbn. f_equal. lia.
Qed.

(** C5, with the id as the code produces it.  When the due dates of the
    rules are dates, one invocation returns; it emits one transaction per
    active rule with [nextDueDate <= today], in the order of the rules:
    the transaction of the j-th such rule has the j-th id drawn from the
    id generator, the rule's old [nextDueDate] as date, the rule's payee,
    its description followed by the marker, its splits, and the clock
    reading as [createdAt].  Each such rule comes back advanced by one
    period, once, however many periods have gone by, with [lastRun] set
    to the old due date.  The ids are fresh when the generator's draws
    are: pairwise distinct and not among the ids in use. *)
Theorem processDue_single_catch_up (env : Env)
    (rules : list RecurringTransaction) (txs : list Transaction) :
  Forall (fun r => iso_date (rt_nextDueDate r)) rules ->
  exists new upd,
    processDueRecurringTransactions env rules txs = Some (new, upd)
    /\ new = imap (emitted_tx env) (List.filter (is_due (today env)) rules)
    /\ (forall i r, rules !! i = Some r -> is_due (today env) r = true ->
          exists r', upd !! i = Some r'
                     /\ advanced (tzOffset env) r r' /\ same_template r r')
    /\ forall used : list str,
         (forall j j', (j < length new)%nat -> (j' < length new)%nat ->
                       random env j = random env j' -> j = j') ->
         (forall j, (j < length new)%nat -> ~ In (random env j) used) ->
         List.NoDup (map tx_id new) /\ forall tx, In tx new -> ~ In (tx_id tx) used.
Proof.
  intros Hdates.
  destruct (process_items_total env (today env) rules Hdates 0%nat) as [[new upd] Hrun].
  exists new, upd. split; [exact Hrun|].
  apply process_items_inv in Hrun as [HF ->]. split; [reflexivity|]. split.
  - intros i r Hi Hdue.
    destruct (Forall2_lookup_l _ _ _ _ _ HF Hi) as (r' & Hr' & Hstep).
    exists r'. split; [exact Hr'|].
    destruct Hstep as [Hno _|_ Hsame Hadv]; [congruence | now split].
  - intros used. rewrite length_imap.
    set (due := List.filter (is_due (today env)) rules).
    pose proof (emitted_ids env due 0) as Hids.
    intros Hinj Hunused. split.
    + rewrite Hids. apply List.NoDup_map_NoDup_ForallPairs; [|apply List.seq_NoDup].
      intros j j' Hj Hj'. apply in_seq in Hj, Hj'. apply Hinj; lia.
    + intros tx Htx Hused. apply (in_map tx_id) in Htx. rewrite Hids in Htx.
      apply in_map_iff in Htx as (j & Hj & Hin). apply in_seq in Hin.
      apply (Hunused j); [lia|]. now rewrite Hj.
Qed.

Lemma processDue_single_catch_up_witness :
  Forall (fun r => iso_date (rt_nextDueDate r)) sample_rules /\
  exists new upd,
    processDueRecurringTransactions (env_at jan10) sample_rules [] = Some (new, upd)
    /\ new = imap (emitted_tx (env_at jan10))
               (List.filter (is_due (today (env_at jan10))) sample_rules)
    /\ forall i r, sample_rules !! i = Some r -> is_due (today (env_at jan10)) r = true ->
         exists r', upd !! i = Some r'
                    /\ advanced (tzOffset (env_at jan10)) r r' /\ same_template r r'.
Proof.
  split; [exact sample_rules_dates|].
  destruct (processDue_single_catch_up (env_at jan10) sample_rules [] sample_rules_dates)
    as (new & upd & Hrun & Hnew & Hupd & _).
  exists new, upd. repeat split; assumption.
Defined.

(** C5 as stated fails on the id: it is whatever the generator draws, and
    nothing compares it with the ids in use.  Here two rules are due, the
    generator draws [i] twice, and [i] is already the id of a transaction
    of the ledger. *)
Lemma processDue_id_not_fresh :
  exists new upd,
    processDueRecurringTransactions (env_at jan10) sample_rules ledger_i = Some (new, upd)
    /\ map tx_id new = [$"i"; $"i"]
    /\ In $"i" (map tx_id ledger_i).
Proof. eexists _, _. split; [vm_compute; reflexivity|]. split; [reflexivity | now left]. Qed.

(** Month ends roll over into the next month; on a host west of
    Greenwich the local date is the day before, and the roll-over moves
    with it. *)
Example calculateNextDueDate_jan31_monthly :
  calculateNextDueDate 0 $"2024-01-31" monthly = Some $"2024-03-02".
Proof. vm_compute. reflexivity. Qed.

Example calculateNextDueDate_west_of_utc :
  calculateNextDueDate (-18000000) $"2024-02-01" monthly = Some $"2024-03-03".
Proof. vm_compute. reflexivity. Qed.

(** The single catch-up on a rule nine days overdue: one transaction,
    dated on the old due date, and the due date moved by one day. *)
Example processDue_overdue_once :
  processDueRecurringTransactions (env_at jan10) overdue_rules []
  = Some ([emitted_tx (env_at jan10) 0 (rule "r1" daily "2024-01-01" true)],
          [{| rt_id := $"r1"; rt_frequency := daily; rt_nextDueDate := $"2024-01-02";
              rt_payee := $"Landlord"; rt_description := $"Rent";
              rt_splits := rt_splits (rule "r1" daily "2024-01-01" true);
              rt_lastRun := Some $"2024-01-01"; rt_active := true |}]).
Proof. vm_compute. reflexivity. Qed.

Lemma item_step_of_rule (env : Env) (td : str)
    (rules upd : list RecurringTransaction) (r : RecurringTransaction) :
  Forall2 (item_step env td) rules upd -> In r rules ->
  exists r', In r' upd /\ item_step env td r r'.
Proof.
  induction 1 as [|x y rules upd Hxy _ IH]; intros Hin; [destruct Hin|].
  destruct Hin as [->|Hin].
  - exists y. split; [now left | exact Hxy].
  - destruct (IH Hin) as (r' & Hr' & Hstep). exists r'. split; [now right | exact Hstep].
Qed.

Lemma item_step_to_rule (env : Env) (td : str)
    (rules upd : list RecurringTransaction) (r' : RecurringTransaction) :
  Forall2 (item_step env td) rules upd -> In r' upd ->
  exists r, In r rules /\ item_step env td r r'.
Proof.
  induction 1 as [|x y rules upd Hxy _ IH]; intros Hin; [destruct Hin|].
  destruct Hin as [->|Hin].
  - exists x. split; [now left | exact Hxy].
  - destruct (IH Hin) as (r & Hr & Hstep). exists r. split; [now right | exact Hstep].
Qed.

(** C2, as the single catch-up allows it.  Let a first invocation return,
    let its rules be taken over, and let a second invocation run on the
    same [today].  If the one advance of the first invocation has moved
    every rule that was due past [today], the second invocation returns
    no transaction and the rules as they are.  And whenever the second
    invocation returns, it returns no transaction only in that case: a
    rule whose advanced due date is still not after [today] is emitted
    again. *)
Theorem processDue_second_run (env1 env2 : Env)
    (rules : list RecurringTransaction) (txs1 txs2 new1 : list Transaction)
    (upd1 : list RecurringTransaction) :
  processDueRecurringTransactions env1 rules txs1 = Some (new1, upd1) ->
  today env2 = today env1 ->
  let moved_past_today :=
    forall r next, In r rules -> is_due (today env1) r = true ->
      calculateNextDueDate (tzOffset env1) (rt_nextDueDate r) (rt_frequency r) = Some next ->
      str_leb next (today env1) = false in
  (moved_past_today ->
   processDueRecurringTransactions env2 upd1 txs2 = Some ([], upd1))
  /\ (forall upd2,
        processDueRecurringTransactions env2 upd1 txs2 = Some ([], upd2) ->
        moved_past_today).
Proof.
  intros Hrun Htoday moved. unfold processDueRecurringTransactions. rewrite Htoday.
  apply process_items_inv in Hrun as [HF _]. split.
  - intros Hmoved. apply process_items_none_due.
    apply List.Forall_forall. intros r' Hr'.
    destruct (item_step_to_rule _ _ _ _ _ HF Hr') as (r & Hr & [Hno ->|Hdue Hsame [Hnext _]]).
    + exact Hno.
    + unfold is_due. rewrite (Hmoved r _ Hr Hdue Hnext). apply andb_false_r.
  - intros upd2 Hrun2 r next Hr Hdue Hnext.
    apply process_items_emits_nothing in Hrun2.
    destruct (item_step_of_rule _ _ _ _ _ HF Hr) as (r' & Hr' & [Hno _|_ Hsame [Hnext' _]]).
    + congruence.
    + rewrite List.Forall_forall in Hrun2. specialize (Hrun2 r' Hr').
      unfold is_due in Hrun2, Hdue.
      destruct Hsame as (_ & _ & _ & _ & _ & Hact). rewrite Hact in Hrun2.
      apply andb_true_iff in Hdue as [Ha _]. rewrite Ha in Hrun2.
      rewrite Hnext in Hnext'. injection Hnext' as ->. exact Hrun2.
Qed.

Lemma processDue_second_run_witness :
  exists new1 upd1,
    processDueRecurringTransactions (env_at jan10) sample_rules [] = Some (new1, upd1)
    /\ today (env_at (jan10 + 1)) = today (env_at jan10)
    /\ processDueRecurringTransactions (env_at (jan10 + 1)) upd1 new1 = Some ([], upd1).
Proof.
  eexists _, _. split; [vm_compute; reflexivity|]. split; [vm_compute; reflexivity|].
  refine (proj1 (processDue_second_run (env_at jan10) (env_at (jan10 + 1))
                   sample_rules [] _ _ _ _ _) _).
  - vm_compute. reflexivity.
  - vm_compute. reflexivity.
  - intros r next Hr Hdue Hnext.
    destruct Hr as [<-|[<-|[<-|[<-|[]]]]]; vm_compute in Hdue; vm_compute in Hnext;
      first [discriminate Hdue | injection Hnext as <-; vm_compute; reflexivity].
Defined.

(** C2 as stated fails: a daily rule nine days overdue is emitted by the
    first invocation and, its due date moved by one day only, emitted
    again by a second invocation on the same [today]. *)
Lemma processDue_second_run_emits :
  exists new1 upd1 new2 upd2 tx,
    processDueRecurringTransactions (env_at jan10) overdue_rules [] = Some (new1, upd1)
    /\ processDueRecurringTransactions (env_at jan10) upd1 (new1 ++ []) = Some (new2, upd2)
    /\ new2 = [tx]
    /\ tx_date tx = Some $"2024-01-02".
Proof.
  eexists _, _, _, _, _. split; [vm_compute; reflexivity|].
  split; [vm_compute; reflexivity|]. split; [reflexivity | vm_compute; reflexivity].
Qed.

(** C3, with the surroundings made explicit.  The engine takes no date
    parameter; it is a function of the rule list and of what it reads
    from the clock, the id generator and the host's time zone.  Two runs
    on the same rules return the same transactions and the same rules
    when they agree on today's date, on the time zone, on the ids drawn
    and on the later clock readings; the transactions passed in have no
    influence. *)
Theorem processDue_deterministic_in_env (env1 env2 : Env)
    (rules : list RecurringTransaction) (txs1 txs2 : list Transaction) :
  today env1 = today env2 ->
  tzOffset env1 = tzOffset env2 ->
  (forall k, random env1 k = random env2 k) ->
  (forall k, clock env1 (S k) = clock env2 (S k)) ->
  processDueRecurringTransactions env1 rules txs1
  = processDueRecurringTransactions env2 rules txs2.
Proof.
  intros Htoday Htz Hrandom Hclock. unfold processDueRecurringTransactions.
  rewrite <- Htoday. generalize (today env1) as td. intros td.
  generalize 0%nat as k. induction rules as [|item rest IH]; intros k; [reflexivity|].
  cbn [process_items].
  assert (Hitem : process_item env1 td k item = process_item env2 td k item).
  { unfold process_item. now rewrite Htz, Hrandom, Hclock. }
  rewrite Hitem. destruct (process_item env2 td k item) as [[[tx|] item']|];
    [now rewrite IH | now rewrite IH | reflexivity].
Qed.

Lemma processDue_deterministic_in_env_witness :
  today (env_at (jan10 + 1)) = today (env_at jan10)
  /\ processDueRecurringTransactions (env_at (jan10 + 1)) sample_rules []
     = processDueRecurringTransactions (env_at' jan10 (jan10 + 1)) sample_rules ledger_i.
Proof.
  split; [vm_compute; reflexivity|].
  apply (processDue_deterministic_in_env (env_at (jan10 + 1)) (env_at' jan10 (jan10 + 1)));
    [vm_compute; reflexivity | reflexivity | intros k; reflexivity | intros k; reflexivity].
Defined.

(** C3 as stated fails: the same rules and the same transactions give
    different results under two readings of the clock, which is not among
    the arguments. *)
Lemma processDue_depends_on_clock :
  processDueRecurringTransactions (env_at jan10) sample_rules []
  <> processDueRecurringTransactions (env_at dec31) sample_rules [].
Proof. vm_compute. discriminate. Qed.

(** ** Codec: rows that are skipped *)

Lemma parse_lines_skips (row : str) (n : nat) (after : list str) :
  regex_field_count (trim row) = Some n -> (n < 7)%nat ->
  forall (before : list str) (txMap : list (str * Transaction)),
    parse_lines (before ++ row :: after) txMap = parse_lines (before ++ after) txMap.
Proof.
  intros Hcount Hn. induction before as [|l before IH]; intros txMap.
  - cbn [app parse_lines]. destruct (trim row) as [|c r]; [reflexivity|].
    rewrite Hcount. apply Nat.ltb_lt in Hn. now rewrite Hn.
  - cbn [app parse_lines]. destruct (trim l) as [|c r]; [apply IH|].
    destruct (regex_field_count (c :: r)) as [m|]; [|reflexivity].
    destruct (m <? 7)%nat; apply IH.
Qed.

(** C9, without the warning.  A data row on which the field pattern finds
    fewer than 7 fields is skipped: the parser gives for the input what it
    gives for the input without that row, so the row adds no transaction
    and no split.  The parser returns the transactions alone; it has no
    channel on which the skip could be reported. *)
Theorem parse_skips_short_rows (csv csv' header header' row : str)
    (before after : list str) (n : nat) :
  split_lines csv = header :: before ++ row :: after ->
  split_lines csv' = header' :: before ++ after ->
  regex_field_count (trim row) = Some n -> (n < 7)%nat ->
  parseTransactionsFromCSV csv = parseTransactionsFromCSV csv'.
Proof.
  intros Hcsv Hcsv' Hcount Hn. unfold parseTransactionsFromCSV.
  rewrite Hcsv, Hcsv'. now rewrite (parse_lines_skips row n after Hcount Hn).
Qed.

Lemma parse_skips_short_rows_witness :
  regex_field_count (trim $"t9,2024-01-06,18,Grocer") = Some 4%nat
  /\ parseTransactionsFromCSV csv_with_short_row
     = parseTransactionsFromCSV csv_without_short_row.
Proof.
  split; [reflexivity|].
  apply (parse_skips_short_rows csv_with_short_row csv_without_short_row
           $"Transaction ID,Date,Created At,Payee,Description,Account ID,Amount"
           $"Transaction ID,Date,Created At,Payee,Description,Account ID,Amount"
           $"t9,2024-01-06,18,Grocer"
           [$"t1,2024-01-05,17,Landlord,Rent,bank,-900"] [] 4%nat);
    [reflexivity | reflexivity | reflexivity | lia].
Defined.

(** C9 as stated fails on the report: the result for the input with the
    row of four fields is the result for the input without it, one
    transaction and nothing else, so nothing in it tells that a row was
    dropped. *)
Lemma parse_short_row_leaves_no_trace :
  parseTransactionsFromCSV csv_with_short_row
  = Some [{| tx_id := $"t1"; tx_date := Some $"2024-01-05";
             tx_payee := Some $"Landlord"; tx_description := Some $"Rent";
             tx_splits := [{| sp_accountId := Some $"bank"; sp_amount := Num (-900) |}];
             tx_createdAt := Num 17 |}]
  /\ parseTransactionsFromCSV csv_without_short_row
     = parseTransactionsFromCSV csv_with_short_row.
Proof. split; vm_compute; reflexivity. Qed.

(** A row that opens with a comma: the first match of the field pattern
    is empty, and the loop that collects the matches does not end. *)
Example regex_loop_on_leading_comma : regex_field_count $",b,c,d" = None.
Proof. reflexivity. Qed.

(** ** Codec: numbers *)

Lemma uint_chars_number_chars (u : Decimal.uint) : Forall number_char (uint_chars u).
Proof. induction u; cbn [uint_chars]; constructor; auto; split; reflexivity. Qed.

Lemma uint_chars_nonempty (u : Decimal.uint) : u <> Decimal.Nil -> uint_chars u <> [].
Proof. destruct u; [congruence | discriminate..]. Qed.

Lemma uint_chars_head (u : Decimal.uint) (c : ascii) (r : str) :
  uint_chars u = c :: r -> c <> "-"%char /\ c <> "+"%char.
Proof. destruct u; cbn; intros [= <- _]; split; discriminate. Qed.

Lemma chars_uint_uint_chars (u : Decimal.uint) : chars_uint (uint_chars u) = Some u.
Proof. induction u; cbn [uint_chars chars_uint]; [reflexivity|..]; now rewrite IHu. Qed.

Lemma to_int_nonnil (z : Z) :
  match Z.to_int z with Decimal.Pos u | Decimal.Neg u => u <> Decimal.Nil end.
Proof. destruct z; cbn; [discriminate | apply Unsigned.to_uint_nonnil..]. Qed.

Lemma number_to_string_chars (n : number) : Forall number_char (number_to_string n).
Proof.
  destruct n as [|z]; cbn [number_to_string].
  - repeat constructor.
  - destruct (Z.to_int z); [|constructor; [split; reflexivity|]];
      apply uint_chars_number_chars.
Qed.

Lemma number_to_string_nonempty (n : number) : number_to_string n <> [].
Proof.
  destruct n as [|z]; cbn [number_to_string]; [discriminate|].
  pose proof (to_int_nonnil z) as H. destruct (Z.to_int z); [|discriminate].
  now apply uint_chars_nonempty.
Qed.

Lemma trimStart_id (s : str) :
  match s with c :: _ => is_ws c = false | [] => True end -> trimStart s = s.
Proof. destruct s as [|c r]; [reflexivity|]. cbn. now intros ->. Qed.

(** Text with no white space at either end is left alone by [trim]. *)
Lemma trim_id (c z : ascii) (mid : str) :
  is_ws c = false -> is_ws z = false -> trim (c :: mid ++ [z]) = c :: mid ++ [z].
Proof.
  intros Hc Hz. unfold trim. rewrite (trimStart_id (c :: mid ++ [z])) by exact Hc.
  assert (Hrev : rev (c :: mid ++ [z]) = z :: rev (c :: mid))
    by (rewrite app_comm_cons; apply rev_unit).
  rewrite Hrev. rewrite trimStart_id by exact Hz. rewrite <- Hrev. apply rev_involutive.
Qed.

Lemma trim_single (c : ascii) : is_ws c = false -> trim [c] = [c].
Proof. intros Hc. unfold trim. cbn. rewrite Hc. cbn. now rewrite Hc. Qed.

Lemma trim_number_chars (s : str) : Forall number_char s -> trim s = s.
Proof.
  intros H. destruct s as [|c r]; [reflexivity|].
  destruct r as [|c' r'] using rev_ind.
  - apply trim_single. now apply Forall_inv in H as [_ H].
  - apply trim_id.
    + now apply Forall_inv in H as [_ H].
    + apply Forall_inv_tail, Forall_app in H as [_ H]. now apply Forall_inv in H as [_ H].
Qed.

(** Reading back a printed number gives the number. *)
Lemma Number_number_to_string (n : number) : Number (Some (number_to_string n)) = n.
Proof.
  unfold Number. rewrite trim_number_chars by apply number_to_string_chars.
  destruct n as [|z]; [reflexivity|]. cbn [number_to_string].
  pose proof (to_int_nonnil z) as Hnil. pose proof (DecimalZ.of_to z) as Hz.
  destruct (Z.to_int z) as [u|u]; cbn [Z.of_int] in Hz.
  - destruct (uint_chars u) as [|c r] eqn:Hu; [now apply uint_chars_nonempty in Hu|].
    destruct (uint_chars_head _ _ _ Hu) as [Hm Hp].
    rewrite !bool_decide_eq_false_2 by assumption.
    rewrite <- Hu, chars_uint_uint_chars. now rewrite Hz.
  - rewrite bool_decide_eq_true_2 by reflexivity.
    destruct (uint_chars u) as [|c r] eqn:Hu; [now apply uint_chars_nonempty in Hu|].
    rewrite <- Hu, chars_uint_uint_chars. now rewrite Hz.
Qed.

(** ** Codec: lines *)

Lemma split_lines_no_LF (l : str) : Forall (fun c => c <> LF) l -> split_lines l = [l].
Proof.
  induction l as [|c r IH]; intros H; [reflexivity|].
  apply Forall_cons in H as [Hc Hr]. cbn [split_lines].
  rewrite bool_decide_eq_false_2 by exact Hc.
  destruct r as [|c' r']; [reflexivity|].
  assert (Hc' : c' <> LF) by now apply Forall_inv in Hr.
  rewrite (bool_decide_eq_false_2 (c' = LF)) by exact Hc'. rewrite andb_false_r.
  now rewrite (IH Hr).
Qed.

(** A line without LF that does not end in CR, followed by LF, is cut
    off whole. *)
Lemma split_lines_app (l rest : str) :
  Forall (fun c => c <> LF) l -> (forall pre, l <> pre ++ [CR]) ->
  split_lines (l ++ LF :: rest) = l :: split_lines rest.
Proof.
  induction l as [|c r IH]; intros H Hend.
  - cbn [app split_lines]. now rewrite bool_decide_eq_true_2.
  - apply Forall_cons in H as [Hc Hr]. cbn [app split_lines].
    rewrite bool_decide_eq_false_2 by exact Hc.
    destruct r as [|c' r'].
    + cbn [app]. rewrite (bool_decide_eq_true_2 (LF = LF)) by reflexivity.
      rewrite andb_true_r.
      rewrite bool_decide_eq_false_2 by (intros ->; now apply (Hend [])).
      cbn [split_lines]. now rewrite bool_decide_eq_true_2.
    + assert (Hc' : c' <> LF) by now apply Forall_inv in Hr.
      cbn [app]. rewrite (bool_decide_eq_false_2 (c' = LF)) by exact Hc'.
      rewrite andb_false_r.
      change (c' :: r' ++ LF :: rest) with ((c' :: r') ++ LF :: rest).
      rewrite IH; [reflexivity | exact Hr |].
      intros pre Hpre. apply (Hend (c :: pre)). now rewrite Hpre.
Qed.

Lemma split_lines_join (rows : list str) :
  rows <> [] ->
  Forall (fun l => Forall (fun c => c <> LF) l /\ forall pre, l <> pre ++ [CR]) rows ->
  split_lines (join [LF] rows) = rows.
Proof.
  induction rows as [|l rows IH]; intros Hne H; [congruence|].
  apply Forall_cons in H as [[Hl Hend] Hrows].
  destruct rows as [|l' rows'].
  - cbn [join]. now apply split_lines_no_LF.
  - rewrite join_cons_nonempty by discriminate. cbn [app].
    rewrite split_lines_app by assumption. now rewrite IH.
Qed.

(** ** Codec: the field pattern on a row *)

Lemma quoted_rest_shorter (n : nat) :
  forall s rest, (length s <= n)%nat -> quoted_rest s = Some rest ->
    (length rest <= length s)%nat.
Proof.
  induction n as [|n IH]; intros s rest Hlen H; destruct s as [|c r]; try discriminate.
  - cbn in Hlen. lia.
  - cbn [length] in *. cbn [quoted_rest] in H. destruct (bool_decide (c = quote)).
    + destruct r as [|c' r']; [injection H as <-; cbn; lia|].
      destruct (bool_decide (c' = quote)); [|injection H as <-; cbn; lia].
      destruct (quoted_rest r') as [rest'|] eqn:Hr'; injection H as <-; [|cbn; lia].
      cbn [length] in *. specialize (IH r' rest' ltac:(lia) Hr'). lia.
    + specialize (IH r rest ltac:(lia) H). lia.
Qed.

(** Any fuel that covers the text gives the same count. *)
Lemma count_matches_fuel (f1 : nat) :
  forall f2 s, (length s <= f1)%nat -> (length s <= f2)%nat ->
    count_matches f1 s = count_matches f2 s.
Proof.
  induction f1 as [|f1 IH]; intros f2 s H1 H2.
  - destruct s; [|cbn in H1; lia]. now destruct f2.
  - destruct f2 as [|f2]; [destruct s; [reflexivity | cbn in H2; lia]|].
    destruct s as [|c r]; [reflexivity|]. cbn [length] in *. cbn [count_matches].
    destruct (bool_decide (c = comma)); [|apply IH; lia].
    destruct r as [|q b]; [reflexivity|]. cbn [length] in *.
    destruct (bool_decide (q = quote)); [|f_equal; apply IH; cbn; lia].
    destruct (quoted_rest b) as [rest|] eqn:Hb; [|f_equal; apply IH; cbn; lia].
    pose proof (quoted_rest_shorter _ _ _ (Nat.le_refl _) Hb).
    f_equal; apply IH; lia.
Qed.

Lemma count_fields_skip (s rest : str) :
  Forall (fun c => c <> comma) s -> count_fields (s ++ rest) = count_fields rest.
Proof.
  induction 1 as [|c s Hc _ IH]; [reflexivity|].
  unfold count_fields in *. cbn [app length count_matches].
  now rewrite bool_decide_eq_false_2 by exact Hc.
Qed.

Lemma count_fields_comma (rest : str) :
  match rest with q :: _ => q <> quote | [] => True end ->
  count_fields (comma :: rest) = S (count_fields rest).
Proof.
  intros H. unfold count_fields. cbn [length count_matches].
  rewrite bool_decide_eq_true_2 by reflexivity.
  destruct rest as [|q b]; [reflexivity|].
  now rewrite bool_decide_eq_false_2 by exact H.
Qed.

Lemma quoted_rest_closed (p rest : str) (c : ascii) :
  Forall (fun c => c <> quote) p -> c <> quote ->
  quoted_rest (p ++ quote :: c :: rest) = Some (c :: rest).
Proof.
  intros Hp Hc. induction Hp as [|x p Hx _ IH]; cbn [app quoted_rest].
  - rewrite bool_decide_eq_true_2 by reflexivity.
    now rewrite bool_decide_eq_false_2 by exact Hc.
  - now rewrite bool_decide_eq_false_2 by exact Hx.
Qed.

Lemma count_matches_quoted_step (fuel : nat) (b rest : str) :
  quoted_rest b = Some rest ->
  count_matches (S fuel) (comma :: quote :: b) = S (count_matches fuel rest).
Proof.
  intros H. cbn [count_matches]. rewrite !bool_decide_eq_true_2 by reflexivity.
  now rewrite H.
Qed.

Lemma count_fields_quoted (p rest : str) (c : ascii) :
  Forall (fun c => c <> quote) p -> c <> quote ->
  count_fields (comma :: quote :: p ++ quote :: c :: rest) = S (count_fields (c :: rest)).
Proof.
  intros Hp Hc. unfold count_fields.
  change (length (comma :: quote :: p ++ quote :: c :: rest))
    with (S (S (length (p ++ quote :: c :: rest)))).
  rewrite (count_matches_quoted_step _ _ _ (quoted_rest_closed p rest c Hp Hc)). f_equal.
  apply count_matches_fuel; [|lia].
  rewrite length_app. cbn [length]. lia.
Qed.

Lemma head_not_quote (s rest : str) :
  Forall (fun c => c <> quote) s ->
  match s ++ comma :: rest with q :: _ => q <> quote | [] => True end.
Proof. intros H. destruct H as [|c s' Hc _]; cbn; [discriminate | exact Hc]. Qed.

(** ** Codec: the character loop on a row *)

Lemma scan_row_chars (s rest cur : str) (row : list str) (inQuote : bool) :
  Forall (fun c => c <> quote /\ (c <> comma \/ inQuote = true)) s ->
  scan_row (s ++ rest) inQuote cur row = scan_row rest inQuote (cur ++ s) row.
Proof.
  intros H. revert cur. induction H as [|c s [Hq Hc] _ IH]; intros cur.
  - now rewrite app_nil_r.
  - cbn [app scan_row]. rewrite bool_decide_eq_false_2 by exact Hq.
    replace (bool_decide (c = comma) && negb inQuote) with false.
    + rewrite IH. now rewrite <- app_assoc.
    + destruct Hc as [Hc| ->]; [now rewrite bool_decide_eq_false_2 | now rewrite andb_false_r].
Qed.

Lemma scan_row_comma (rest cur : str) (row : list str) :
  scan_row (comma :: rest) false cur row = scan_row rest false [] (row ++ [cur]).
Proof. reflexivity. Qed.

Lemma scan_row_quote (rest cur : str) (row : list str) (inQuote : bool) :
  scan_row (quote :: rest) inQuote cur row = scan_row rest (negb inQuote) cur row.
Proof. reflexivity. Qed.

Lemma clean_cell_no_quote (c : str) : Forall (fun x => x <> quote) c -> clean_cell c = c.
Proof.
  intros H. destruct H as [|a rest Ha _]; [reflexivity|]. unfold clean_cell.
  destruct (rev (a :: rest)); [reflexivity|].
  now rewrite bool_decide_eq_false_2 by exact Ha.
Qed.

Lemma escape_quotes_no_quote (s : str) :
  Forall (fun x => x <> quote) s -> escape_quotes s = s.
Proof.
  induction 1 as [|c s Hc _ IH]; [reflexivity|].
  unfold escape_quotes in *. cbn [flat_map].
  rewrite bool_decide_eq_false_2 by exact Hc. cbn [app]. now rewrite IH.
Qed.

Lemma is_plain_true (c : ascii) :
  is_plain c = true -> c <> comma /\ c <> quote /\ c <> LF.
Proof.
  unfold is_plain. intros H. apply negb_true_iff in H.
  apply orb_false_iff in H as [H HLF]. apply orb_false_iff in H as [Hc Hq].
  repeat split; intros ->; now rewrite bool_decide_eq_true_2 in * by reflexivity.
Qed.

Lemma is_quotable_true (c : ascii) : is_quotable c = true -> c <> quote /\ c <> LF.
Proof.
  unfold is_quotable. intros H. apply negb_true_iff in H.
  apply orb_false_iff in H as [Hq HLF].
  split; intros ->; now rewrite bool_decide_eq_true_2 in * by reflexivity.
Qed.

Lemma csv_row_fields (tx : Transaction) (sp : Split) :
  csv_row tx sp
  = row_of_fields (tx_id tx) (tpl (tx_date tx)) (number_to_string (tx_createdAt tx))
      (escape_quotes (or_empty (tx_payee tx)))
      (escape_quotes (or_empty (tx_description tx)))
      (tpl (sp_accountId sp)) (number_to_string (sp_amount sp)).
Proof.
  reflexivity.
Qed.

Section Row.

Variables (c0 : ascii) (id' date created payee desc acc amount : str).

Hypothesis Hws : is_ws c0 = false.
Hypothesis Hid : Forall (fun c => is_plain c = true) (c0 :: id').
Hypothesis Hdate : Forall (fun c => is_plain c = true) date.
Hypothesis Hcreated : Forall number_char created.
Hypothesis Hpayee : Forall (fun c => is_quotable c = true) payee.
Hypothesis Hdesc : Forall (fun c => is_quotable c = true) desc.
Hypothesis Hacc : Forall (fun c => is_plain c = true) acc.
Hypothesis Hamount : Forall number_char amount.
Hypothesis Hamount_ne : amount <> [].

Local Abbreviation row :=
  (row_of_fields (c0 :: id') date created payee desc acc amount).

Local Ltac plain_chars :=
  repeat match goal with
    | H : Forall _ _ |- Forall _ _ =>
        refine (Forall_impl _ _ _ H _); clear; intros c Hc
    | Hc : is_plain _ = true |- _ => apply is_plain_true in Hc as (? & ? & ?)
    | Hc : is_quotable _ = true |- _ => apply is_quotable_true in Hc as (? & ?)
    | Hc : number_char _ |- _ => destruct Hc as [Hc ?]
    end; auto.

Lemma row_ends : exists mid z, row = c0 :: mid ++ [z] /\ is_ws z = false.
Proof.
  destruct (exists_last Hamount_ne) as (pre & z & Hz).
  assert (Hzc : number_char z).
  { rewrite Hz in Hamount. apply Forall_app in Hamount as [_ H]. now apply Forall_inv in H. }
  exists (id' ++ comma :: date ++ comma :: created ++ comma
          :: quote :: payee ++ quote :: comma
          :: quote :: desc ++ quote :: comma :: acc ++ comma :: pre), z.
  split; [|apply Hzc]. unfold row_of_fields. rewrite Hz.
  repeat (rewrite <- ?app_assoc; cbn [app]; f_equal).
Qed.

Lemma row_trim : trim row = row.
Proof.
  destruct row_ends as (mid & z & -> & Hz). now apply trim_id.
Qed.

Lemma row_no_LF : Forall (fun c => c <> LF) row.
Proof.
  unfold row_of_fields.
  pose proof (Forall_inv Hid) as Hc0. pose proof (Forall_inv_tail Hid) as Hid'.
  cbv beta in Hc0.
  repeat first [apply Forall_app; split | apply Forall_cons; split];
    try discriminate; plain_chars.
Qed.

Lemma row_no_CR_end (pre : str) : row <> pre ++ [CR].
Proof.
  destruct row_ends as (mid & z & -> & Hz). intros H.
  rewrite app_comm_cons in H. apply app_inj_tail in H as [_ ->]. discriminate.
Qed.

Lemma row_count : regex_field_count row = Some 7%nat.
Proof.
  unfold row_of_fields. cbn [app regex_field_count].
  pose proof (Forall_inv Hid) as Hc0. pose proof (Forall_inv_tail Hid) as Hid'.
  cbv beta in Hc0.
  apply is_plain_true in Hc0 as (Hcomma & Hquote & _).
  rewrite !bool_decide_eq_false_2 by assumption.
  fold (count_fields (id' ++ comma :: date ++ comma :: created ++ comma
          :: quote :: payee ++ quote :: comma
          :: quote :: desc ++ quote :: comma :: acc ++ comma :: amount)).
  rewrite count_fields_skip by plain_chars.
  rewrite count_fields_comma by (apply head_not_quote; plain_chars).
  rewrite count_fields_skip by plain_chars.
  rewrite count_fields_comma by (apply head_not_quote; plain_chars).
  rewrite count_fields_skip by plain_chars.
  rewrite count_fields_quoted by (try discriminate; plain_chars).
  rewrite count_fields_quoted by (try discriminate; plain_chars).
  rewrite count_fields_comma by (apply head_not_quote; plain_chars).
  rewrite count_fields_skip by plain_chars.
  rewrite count_fields_comma
    by (destruct Hamount as [|z zs Hz _]; [exact I | plain_chars]).
  rewrite <- (app_nil_r amount). rewrite count_fields_skip by plain_chars.
  reflexivity.
Qed.

Lemma row_scan :
  map clean_cell (scan_row row false [] [])
  = [c0 :: id'; date; created; payee; desc; acc; amount].
Proof.
  unfold row_of_fields.
  rewrite scan_row_chars by plain_chars. rewrite scan_row_comma.
  rewrite scan_row_chars by plain_chars. rewrite scan_row_comma.
  rewrite scan_row_chars by plain_chars. rewrite scan_row_comma.
  rewrite scan_row_quote. rewrite scan_row_chars by plain_chars.
  rewrite scan_row_quote. cbn [negb]. rewrite scan_row_comma.
  rewrite scan_row_quote. rewrite scan_row_chars by plain_chars.
  rewrite scan_row_quote. cbn [negb]. rewrite scan_row_comma.
  rewrite scan_row_chars by plain_chars. rewrite scan_row_comma.
  rewrite <- (app_nil_r amount) at 1. rewrite scan_row_chars by plain_chars.
  cbn [scan_row app map].
  rewrite !clean_cell_no_quote by plain_chars. reflexivity.
Qed.

End Row.

(** ** Codec: one row into the map *)

Lemma forallb_Forall_true {A} (f : A -> bool) (l : list A) :
  forallb f l = true -> Forall (fun x => f x = true) l.
Proof. intros H. apply List.Forall_forall. now apply forallb_forall. Qed.

Lemma plain_field_inv (v : option str) :
  plain_field v = true -> exists s, v = Some s /\ Forall (fun c => is_plain c = true) s.
Proof.
  destruct v as [s|]; [|discriminate]. intros H. exists s.
  split; [reflexivity|]. now apply forallb_Forall_true.
Qed.

Lemma quotable_field_inv (v : option str) :
  quotable_field v = true ->
  exists s, v = Some s /\ Forall (fun c => is_quotable c = true) s.
Proof.
  destruct v as [s|]; [|discriminate]. intros H. exists s.
  split; [reflexivity|]. now apply forallb_Forall_true.
Qed.

Lemma quotable_no_quote (s : str) :
  Forall (fun c => is_quotable c = true) s -> Forall (fun c => c <> quote) s.
Proof.
  intros H. eapply Forall_impl; [exact H|]. intros c Hc. now apply is_quotable_true in Hc.
Qed.

Section SafeRow.

Variable tx : Transaction.
Variable sp : Split.
Hypothesis Htx : codec_safe tx = true.
Hypothesis Hsp : plain_field (sp_accountId sp) = true.

(** The row of a transaction within reach is as [Row] wants it. *)
Lemma safe_row_facts :
  trim (csv_row tx sp) = csv_row tx sp
  /\ csv_row tx sp <> []
  /\ regex_field_count (csv_row tx sp) = Some 7%nat
  /\ Forall (fun c => c <> LF) (csv_row tx sp)
  /\ (forall pre, csv_row tx sp <> pre ++ [CR])
  /\ map clean_cell (scan_row (csv_row tx sp) false [] [])
     = [tx_id tx; tpl (tx_date tx); number_to_string (tx_createdAt tx);
        or_empty (tx_payee tx); or_empty (tx_description tx);
        tpl (sp_accountId sp); number_to_string (sp_amount sp)]
  /\ tx_date tx = Some (tpl (tx_date tx))
  /\ tx_payee tx = Some (or_empty (tx_payee tx))
  /\ tx_description tx = Some (or_empty (tx_description tx))
  /\ sp_accountId sp = Some (tpl (sp_accountId sp)).
Proof.
  unfold codec_safe in Htx.
  repeat (apply andb_true_iff in Htx as [Htx ?]).
  destruct (plain_field_inv _ Hsp) as (a & Ha & Hachars).
  match goal with H : plain_field (tx_date tx) = true |- _ =>
    destruct (plain_field_inv _ H) as (d & Hd & Hdchars) end.
  match goal with H : quotable_field (tx_payee tx) = true |- _ =>
    destruct (quotable_field_inv _ H) as (p & Hp & Hpchars) end.
  match goal with H : quotable_field (tx_description tx) = true |- _ =>
    destruct (quotable_field_inv _ H) as (ds & Hds & Hdschars) end.
  unfold plain_id in Htx. destruct (tx_id tx) as [|c0 id'] eqn:Hid; [discriminate|].
  apply andb_true_iff in Htx as [Hws Hidchars].
  apply negb_true_iff in Hws. apply forallb_Forall_true in Hidchars.
  rewrite csv_row_fields, Hid, Hd, Hp, Hds, Ha. cbn [tpl or_empty].
  rewrite !escape_quotes_no_quote by now apply quotable_no_quote.
  pose proof (number_to_string_chars (tx_createdAt tx)) as Hcreated.
  pose proof (number_to_string_chars (sp_amount sp)) as Hamount.
  pose proof (number_to_string_nonempty (sp_amount sp)) as Hne.
  split; [now apply row_trim|].
  split; [discriminate|].
  split; [now apply row_count|].
  split; [now apply row_no_LF|].
  split; [intros pre; now apply row_no_CR_end|].
  split; [now apply row_scan|].
  repeat split.
Qed.

Lemma add_row_safe (txMap : list (str * Transaction)) :
  add_row (csv_row tx sp) txMap
  = txMap_push (tx_id tx) sp
      (if txMap_has (tx_id tx) txMap then txMap
       else txMap ++ [(tx_id tx, with_splits tx [])]).
Proof.
  destruct safe_row_facts as (_ & _ & _ & _ & _ & Hscan & Hd & Hp & Hds & Ha).
  unfold add_row. rewrite Hscan. cbn [hd nth_error].
  rewrite !Number_number_to_string.
  rewrite <- Hd, <- Hp, <- Hds, <- Ha.
  replace {| sp_accountId := sp_accountId sp; sp_amount := sp_amount sp |} with sp
    by now destruct sp.
  reflexivity.
Qed.

Lemma parse_lines_safe_row (rest : list str) (txMap : list (str * Transaction)) :
  parse_lines (csv_row tx sp :: rest) txMap
  = parse_lines rest (add_row (csv_row tx sp) txMap).
Proof.
  destruct safe_row_facts as (Htrim & Hne & Hcount & _).
  cbn [parse_lines]. rewrite Htrim.
  destruct (csv_row tx sp) as [|c r] eqn:Hrow; [congruence|].
  now rewrite Hcount.
Qed.

End SafeRow.

(** ** Codec: the rows of a list of transactions *)

Lemma txMap_push_absent (id : str) (sp : Split) (txMap : list (str * Transaction)) :
  txMap_has id txMap = false -> txMap_push id sp txMap = txMap.
Proof.
  induction txMap as [|e txMap IH]; [reflexivity|]. cbn [txMap_has existsb].
  intros H. apply orb_false_iff in H as [He Hrest].
  unfold txMap_push in *. cbn [map]. rewrite He. now rewrite (IH Hrest).
Qed.

Lemma txMap_has_app (id : str) (m1 m2 : list (str * Transaction)) :
  txMap_has id (m1 ++ m2) = txMap_has id m1 || txMap_has id m2.
Proof. apply existsb_app. Qed.

Lemma txMap_push_last (id : str) (sp : Split) (txMap : list (str * Transaction))
    (tx : Transaction) :
  txMap_has id txMap = false ->
  txMap_push id sp (txMap ++ [(id, tx)]) = txMap ++ [(id, push_split sp tx)].
Proof.
  intros H. unfold txMap_push. rewrite map_app.
  fold (txMap_push id sp txMap). rewrite (txMap_push_absent _ _ _ H).
  cbn [map fst snd]. now rewrite bool_decide_eq_true_2.
Qed.

Lemma with_splits_own (tx : Transaction) : with_splits tx (tx_splits tx) = tx.
Proof. now destruct tx. Qed.

Section SafeTransaction.

Variable tx : Transaction.
Hypothesis Htx : codec_safe tx = true.

(** The rows of the later splits of a transaction add to its entry. *)
Lemma parse_lines_more_splits (rest : list str) (txMap : list (str * Transaction)) :
  txMap_has (tx_id tx) txMap = false ->
  forall todo done : list Split,
    Forall (fun sp => plain_field (sp_accountId sp) = true) todo ->
    parse_lines (map (csv_row tx) todo ++ rest)
      (txMap ++ [(tx_id tx, with_splits tx done)])
    = parse_lines rest (txMap ++ [(tx_id tx, with_splits tx (done ++ todo))]).
Proof.
  intros Hfresh. induction todo as [|sp todo IH]; intros done Htodo.
  - now rewrite app_nil_r.
  - apply Forall_cons in Htodo as [Hsp Htodo].
    cbn [map app]. rewrite (parse_lines_safe_row tx sp Htx Hsp).
    rewrite (add_row_safe tx sp Htx Hsp).
    rewrite txMap_has_app, Hfresh. cbn [txMap_has existsb fst orb].
    rewrite bool_decide_eq_true_2 by reflexivity. cbn [orb].
    rewrite (txMap_push_last _ _ _ _ Hfresh).
    change (push_split sp (with_splits tx done)) with (with_splits tx (done ++ [sp])).
    rewrite (IH _ Htodo). now rewrite <- app_assoc.
Qed.

(** The rows of a transaction whose id is new to the map add one entry:
    the transaction. *)
Lemma parse_lines_transaction (rest : list str) (txMap : list (str * Transaction)) :
  txMap_has (tx_id tx) txMap = false ->
  parse_lines (map (csv_row tx) (tx_splits tx) ++ rest) txMap
  = parse_lines rest (txMap ++ [(tx_id tx, tx)]).
Proof.
  intros Hfresh.
  assert (Hsplits : tx_splits tx <> []
                    /\ Forall (fun sp => plain_field (sp_accountId sp) = true) (tx_splits tx)).
  { unfold codec_safe in Htx. apply andb_true_iff in Htx as [H Hall].
    apply andb_true_iff in H as [_ Hne]. split.
    - apply negb_true_iff in Hne. intros Heq.
      now rewrite bool_decide_eq_true_2 in Hne by assumption.
    - now apply forallb_Forall_true. }
  destruct Hsplits as [Hne Hall].
  transitivity (parse_lines rest (txMap ++ [(tx_id tx, with_splits tx (tx_splits tx))]));
    [|now rewrite with_splits_own].
  destruct (tx_splits tx) as [|sp todo]; [congruence|].
  apply Forall_cons in Hall as [Hsp Htodo].
  cbn [map app]. rewrite (parse_lines_safe_row tx sp Htx Hsp).
  rewrite (add_row_safe tx sp Htx Hsp). rewrite Hfresh.
  rewrite (txMap_push_last _ _ _ _ Hfresh).
  change (push_split sp (with_splits tx [])) with (with_splits tx [sp]).
  now rewrite (parse_lines_more_splits rest txMap Hfresh todo [sp] Htodo).
Qed.

End SafeTransaction.

Lemma txMap_has_entries (id : str) (txs : list Transaction) :
  ~ In id (map tx_id txs) ->
  txMap_has id (map (fun tx => (tx_id tx, tx)) txs) = false.
Proof.
  induction txs as [|tx txs IH]; intros Hnot; [reflexivity|].
  cbn [map txMap_has existsb fst]. cbn [map] in Hnot.
  rewrite bool_decide_eq_false_2 by (intros Heq; apply Hnot; now left).
  apply IH. intros Hin. apply Hnot. now right.
Qed.

Lemma parse_lines_transactions (txs : list Transaction) :
  Forall (fun tx => codec_safe tx = true) txs ->
  List.NoDup (map tx_id txs) ->
  forall done : list Transaction,
    (forall id, In id (map tx_id txs) -> ~ In id (map tx_id done)) ->
    parse_lines (flat_map (fun tx => map (csv_row tx) (tx_splits tx)) txs)
      (map (fun tx => (tx_id tx, tx)) done)
    = Some (map (fun tx => (tx_id tx, tx)) (done ++ txs)).
Proof.
  induction 1 as [|tx txs Htx _ IH]; intros Hnodup done Hfresh.
  - now rewrite app_nil_r.
  - cbn [map] in Hnodup. apply List.NoDup_cons_iff in Hnodup as [Hnew Hnodup].
    cbn [flat_map].
    rewrite (parse_lines_transaction tx Htx)
      by (apply txMap_has_entries, Hfresh; now left).
    change [(tx_id tx, tx)] with (map (fun tx => (tx_id tx, tx)) [tx]).
    rewrite <- map_app. rewrite (IH Hnodup (done ++ [tx])).
    + now rewrite <- app_assoc.
    + intros id Hid Hin. rewrite map_app in Hin. apply in_app_or in Hin as [Hin|[<-|[]]].
      * apply (Hfresh id); [now right | exact Hin].
      * exact (Hnew Hid).
Qed.

(** ** Codec: sorting *)

Lemma sort_insert_perm (x : Transaction) (l : list Transaction) :
  Permutation (sort_insert x l) (x :: l).
Proof.
  induction l as [|y l IH]; [reflexivity|]. cbn [sort_insert].
  destruct (goes_before x y); [reflexivity|].
  rewrite IH. apply perm_swap.
Qed.

Lemma sort_by_createdAt_desc_perm (l : list Transaction) :
  Permutation (sort_by_createdAt_desc l) l.
Proof.
  unfold sort_by_createdAt_desc.
  enough (H : forall sorted, Permutation (fold_left (fun s x => sort_insert x s) l sorted)
                               (sorted ++ l)) by apply (H []).
  induction l as [|x l IH]; intros sorted; cbn [fold_left].
  - now rewrite app_nil_r.
  - rewrite IH, sort_insert_perm. apply Permutation_middle.
Qed.

(** ** Codec: round trip *)

Lemma csv_header_line :
  exists h, csv_header = h ++ [LF]
            /\ Forall (fun c => c <> LF) h /\ forall pre, h <> pre ++ [CR].
Proof.
  eexists. split; [reflexivity|]. split.
  - apply List.Forall_forall. intros c Hc Heq. subst c.
    revert Hc. vm_compute. intuition discriminate.
  - intros pre Hpre. apply (f_equal (@rev ascii)) in Hpre.
    rewrite rev_unit in Hpre. vm_compute in Hpre. discriminate.
Qed.

Lemma safe_rows (txs : list Transaction) :
  Forall (fun tx => codec_safe tx = true) txs ->
  Forall (fun l => Forall (fun c => c <> LF) l /\ forall pre, l <> pre ++ [CR])
    (flat_map (fun tx => map (csv_row tx) (tx_splits tx)) txs).
Proof.
  induction 1 as [|tx txs Htx _ IH]; [constructor|].
  cbn [flat_map]. apply Forall_app. split; [|exact IH].
  assert (Hall : Forall (fun sp => plain_field (sp_accountId sp) = true) (tx_splits tx)).
  { unfold codec_safe in Htx. apply andb_true_iff in Htx as [_ Hall].
    now apply forallb_Forall_true. }
  induction Hall as [|sp sps Hsp _ IHs]; [constructor|].
  cbn [map]. constructor; [|exact IHs].
  destruct (safe_row_facts tx sp Htx Hsp) as (_ & _ & _ & HLF & HCR & _). now split.
Qed.

Lemma parse_serialize_safe (txs : list Transaction) :
  Forall (fun tx => codec_safe tx = true) txs ->
  List.NoDup (map tx_id txs) ->
  parseTransactionsFromCSV (serializeTransactionsToCSV txs)
  = Some (sort_by_createdAt_desc txs).
Proof.
  intros Hsafe Hnodup.
  unfold parseTransactionsFromCSV, serializeTransactionsToCSV.
  destruct csv_header_line as (h & -> & HhLF & HhCR).
  rewrite <- app_assoc. cbn [app]. rewrite split_lines_app by assumption.
  pose proof (parse_lines_transactions txs Hsafe Hnodup [] ltac:(intros ? _ [])) as Hparse.
  cbn [map app] in Hparse.
  pose proof (safe_rows txs Hsafe) as Hrows.
  destruct (flat_map (fun tx => map (csv_row tx) (tx_splits tx)) txs) as [|l rows] eqn:Hflat.
  - cbn [join split_lines parse_lines trim trimStart rev app].
    cbn [parse_lines] in Hparse. injection Hparse as Hparse.
    destruct txs; [reflexivity | discriminate].
  - rewrite split_lines_join by (discriminate || assumption).
    rewrite Hparse. rewrite map_map. cbn [snd]. now rewrite map_id.
Qed.



(** The later transaction comes first, and the comma of the payee is
    still there. *)
Example codec_round_trip_sample :
  parseTransactionsFromCSV (serializeTransactionsToCSV [tx_comma; tx_plain])
  = Some [tx_plain; tx_comma].
Proof. vm_compute. reflexivity. Qed.


(** Quotes are doubled by the writer, but the character loop of the
    reader drops every quote, so the quotes of a description do not come
    back. *)
Example codec_drops_quotes :
  parseTransactionsFromCSV (serializeTransactionsToCSV [tx_quoted_word])
  = Some [{| tx_id := $"t4"; tx_date := Some $"2024-01-02"; tx_payee := Some $"Acme";
             tx_description := Some $"the big one";
             tx_splits := sample_splits; tx_createdAt := Num 18 |}].
Proof. vm_compute. reflexivity. Qed.

(** What else the round trip does not keep: a transaction without splits
    has no row; two transactions under one id come back as one; a payee
    that is missing comes back as the empty string. *)
Example codec_drops_transaction_without_splits :
  parseTransactionsFromCSV (serializeTransactionsToCSV [with_splits tx_plain []]) = Some [].
Proof. vm_compute. reflexivity. Qed.

Example codec_merges_equal_ids :
  parseTransactionsFromCSV (serializeTransactionsToCSV [tx_plain; tx_plain])
  = Some [with_splits tx_plain (sample_splits ++ sample_splits)].
Proof. vm_compute. reflexivity. Qed.

Example codec_missing_payee_comes_back_empty :
  parseTransactionsFromCSV (serializeTransactionsToCSV
    [{| tx_id := $"t5"; tx_date := Some $"2024-01-03"; tx_payee := None;
        tx_description := Some $"tea"; tx_splits := sample_splits;
        tx_createdAt := Num 19 |}])
  = Some [{| tx_id := $"t5"; tx_date := Some $"2024-01-03"; tx_payee := Some [];
             tx_description := Some $"tea"; tx_splits := sample_splits;
             tx_createdAt := Num 19 |}].
Proof. vm_compute. reflexivity. Qed.

(** * Further properties *)

(** ** Descendants: what is returned, and when nothing is *)

(** X1. Whenever [getDescendantAccountIds] returns, it returns exactly
    the ids reached from the root id by following child links any number
    of times (the root id included): nothing is missed, and nothing else
    is in the set. *)
Theorem getDescendantAccountIds_reachable (allAccounts : list Account)
    (fuel : nat) (rootId : str) (out : gset str) :
  getDescendantAccountIds fuel rootId allAccounts = Some out ->
  forall x, x ∈ out <-> reaches allAccounts rootId x.
Proof. apply getDescendantAccountIds_spec. Qed.

Lemma getDescendantAccountIds_reachable_witness :
  getDescendantAccountIds 2 $"A" two_accounts = Some ({[ $"B" ]} ∪ ({[ $"A" ]} ∪ ∅))
  /\ forall x, x ∈ ({[ $"B" ]} ∪ ({[ $"A" ]} ∪ ∅) : gset str)
               <-> reaches two_accounts $"A" x.
Proof.
  split; [reflexivity|].
  apply (getDescendantAccountIds_reachable two_accounts 2 $"A"). reflexivity.
Defined.

Section Cycles.

Local Open Scope nat_scope.

Variable allAccounts : list Account.

Lemma descends_shorter (s : str) (n : nat) :
  descends allAccounts s (S n) -> descends allAccounts s n.
Proof.
  revert s. induction n as [|n IH]; intros s H; [constructor|].
  inversion H as [|s' a n' Hin Hp Hrest]; subst.
  econstructor; eauto.
Qed.

Lemma descends_le (s : str) (n m : nat) :
  m <= n -> descends allAccounts s n -> descends allAccounts s m.
Proof.
  induction 1 as [|n Hle IH]; [auto|]. intros H. apply IH. now apply descends_shorter.
Qed.

Lemma descends_through (r x : str) (n : nat) :
  reaches allAccounts r x -> descends allAccounts x n -> descends allAccounts r n.
Proof.
  induction 1 as [|r a x Hin Hp _ IH]; [auto|].
  intros H. apply descends_shorter. econstructor; eauto.
Qed.

Lemma cycle_descends (x : str) :
  on_cycle allAccounts x -> forall n, descends allAccounts x n.
Proof.
  intros (a & Hin & Hp & Hback). induction n as [|n IH]; [constructor|].
  econstructor; [exact Hin | exact Hp |]. now apply (descends_through _ x).
Qed.

(** Every link of a walk from an id on the stack costs the loop a step. *)
Lemma getDescendant_loop_needs_fuel (fuel : nat) :
  forall (stack : list str) (result out : gset str) (s : str) (n : nat),
    getDescendant_loop fuel stack result allAccounts = Some out ->
    In s stack -> descends allAccounts s n -> n < fuel.
Proof.
  induction fuel as [|fuel IH]; intros stack result out s n Hrun Hs Hn;
    destruct stack as [|top stack _] using rev_ind; try now destruct Hs.
  - cbn [getDescendant_loop] in Hrun. rewrite pop_snoc in Hrun. discriminate.
  - rewrite getDescendant_loop_snoc in Hrun.
    apply in_app_or in Hs as [Hs|[<-|[]]].
    + enough (n < fuel) by lia.
      eapply IH; [exact Hrun | apply in_or_app; left; exact Hs | exact Hn].
    + destruct Hn as [|s a n Hin Hp Hrest]; [lia|].
      enough (n < fuel) by lia.
      eapply IH; [exact Hrun | | exact Hrest].
      apply in_or_app. right. apply in_child_ids. eauto.
Qed.

(** X2. When an id on a cycle of the parentId relation can be reached
    from the root id, the loop of [getDescendantAccountIds] never ends:
    no number of steps gives a result. *)
Theorem getDescendantAccountIds_cycle_never_returns (rootId x : str) :
  reaches allAccounts rootId x -> on_cycle allAccounts x ->
  forall fuel, getDescendantAccountIds fuel rootId allAccounts = None.
Proof.
  intros Hreach Hcycle fuel.
  destruct (getDescendantAccountIds fuel rootId allAccounts) as [out|] eqn:Hrun;
    [|reflexivity].
  exfalso. apply (Nat.lt_irrefl fuel).
  eapply getDescendant_loop_needs_fuel;
    [exact Hrun | now left | ].
  apply (descends_through rootId x); [exact Hreach | now apply cycle_descends].
Qed.

End Cycles.

Lemma getDescendantAccountIds_cycle_never_returns_witness :
  reaches [loop_account] $"a" $"a" /\ on_cycle [loop_account] $"a"
  /\ forall fuel, getDescendantAccountIds fuel $"a" [loop_account] = None.
Proof.
  assert (Hreach : reaches [loop_account] $"a" $"a") by constructor.
  assert (Hcycle : on_cycle [loop_account] $"a").
  { exists loop_account. split; [now left|]. split; [reflexivity | constructor]. }
  split; [exact Hreach|]. split; [exact Hcycle|].
  exact (getDescendantAccountIds_cycle_never_returns [loop_account] $"a" $"a" Hreach Hcycle).
Defined.

(** ** Account paths: a path extends the path of the parent *)

Section PathOfParent.

Local Open Scope nat_scope.

Variable allAccounts : list Account.

Local Abbreviation prepend :=
  (fun (path : str) (parent : Account) => acc_name parent ++ $":" ++ path).

Lemma fold_prepend_app (chain : list Account) (x y : str) :
  fold_left prepend chain (x ++ y) = fold_left prepend chain x ++ y.
Proof.
  revert x. induction chain as [|q chain IH]; intros x; [reflexivity|].
  cbn [fold_left]. rewrite <- IH. f_equal. now rewrite <- !app_assoc.
Qed.

(** A walk that ends before the ceiling does not depend on the ceiling. *)
Lemma getAccountPath_loop_complete (chain : list Account) :
  forall (n : nat) (current : Account) (path : str),
    linked allAccounts current chain ->
    parent_step allAccounts (List.last chain current) = None ->
    length chain <= n ->
    getAccountPath_loop n path current allAccounts = fold_left prepend chain path.
Proof.
  induction chain as [|p chain IH]; intros n current path Hlink Hend Hlen.
  - cbn [List.last] in Hend. cbn [fold_left].
    destruct n as [|n]; [reflexivity|]. cbn [getAccountPath_loop].
    unfold parent_step in Hend.
    destruct (acc_parentId current) as [[|c q]|]; try reflexivity. now rewrite Hend.
  - destruct Hlink as [Hstep Hlink]. rewrite last_cons_default in Hend.
    destruct n as [|n]; [cbn in Hlen; lia|]. cbn [length] in Hlen.
    cbn [getAccountPath_loop fold_left]. unfold parent_step in Hstep.
    destruct (acc_parentId current) as [[|c q]|]; try discriminate.
    rewrite Hstep. apply IH; [exact Hlink | exact Hend | lia].
Qed.

(** X3. The path of an account is the path of its parent, a colon, and
    the account's own name, provided the walk up from the parent ends
    (at an account without a parent that can be found) within 19 links,
    so that the ceiling of 20 is not met. *)
Theorem getAccountPath_extends_parent (account parent : Account) (chain : list Account) :
  parent_step allAccounts account = Some parent ->
  linked allAccounts parent chain ->
  parent_step allAccounts (List.last chain parent) = None ->
  length chain < 20 ->
  getAccountPath account allAccounts
  = getAccountPath parent allAccounts ++ $":" ++ acc_name account.
Proof.
  intros Hstep Hlink Hend Hlen. unfold getAccountPath.
  rewrite (getAccountPath_loop_complete (parent :: chain) 20 account);
    [| now split | now rewrite last_cons_default | cbn [length]; lia].
  rewrite (getAccountPath_loop_complete chain 20 parent) by (auto; lia).
  cbn [fold_left]. now rewrite fold_prepend_app.
Qed.

End PathOfParent.

Lemma getAccountPath_extends_parent_witness :
  parent_step two_accounts (acct "B" (Some "A") "Bank") = Some (acct "A" None "Assets")
  /\ getAccountPath (acct "B" (Some "A") "Bank") two_accounts
     = getAccountPath (acct "A" None "Assets") two_accounts ++ $":" ++ $"Bank".
Proof.
  split; [reflexivity|].
  apply (getAccountPath_extends_parent two_accounts (acct "B" (Some "A") "Bank")
           (acct "A" None "Assets") []); [reflexivity | exact I | reflexivity | cbn; lia].
Defined.

(** ** The account tree *)

Section BuildTree.

Variable accounts : list Account.

Local Abbreviation set_node :=
  (fun (accountMap : gmap str TreeNode) (acc : Account) =>
     <[acc_id acc := {| node_account := acc; node_children := [] |}]> accountMap).

Lemma make_nodes_from (l : list Account) :
  forall (m0 : gmap str TreeNode) (id : str) (n : TreeNode),
    fold_left set_node l m0 !! id = Some n ->
    m0 !! id = Some n
    \/ exists a, In a l /\ acc_id a = id
                 /\ n = {| node_account := a; node_children := [] |}.
Proof.
  induction l as [|a l IH]; intros m0 id n H; [now left|].
  cbn [fold_left] in H. apply IH in H as [H|(b & Hb & Hid & Hn)].
  - destruct (decide (acc_id a = id)) as [Heq|Hne].
    + rewrite Heq, lookup_insert_eq in H. injection H as <-.
      right. exists a. split; [now left | now split].
    + rewrite lookup_insert_ne in H by exact Hne. now left.
  - right. exists b. split; [now right | now split].
Qed.

Lemma make_nodes_keeps (l : list Account) :
  forall (m0 : gmap str TreeNode) (id : str),
    is_Some (m0 !! id) \/ In id (map acc_id l) ->
    is_Some (fold_left set_node l m0 !! id).
Proof.
  induction l as [|a l IH]; intros m0 id H.
  - destruct H as [H|[]]. exact H.
  - cbn [fold_left]. apply IH. cbn [map] in H.
    destruct (decide (acc_id a = id)) as [Heq|Hne].
    + left. rewrite Heq, lookup_insert_eq. eauto.
    + rewrite lookup_insert_ne by exact Hne.
      destruct H as [H|[H|H]]; [now left | congruence | now right].
Qed.

Lemma make_nodes_key (id : str) :
  is_Some (make_nodes accounts !! id) <-> In id (map acc_id accounts).
Proof.
  unfold make_nodes. split.
  - intros [n Hn]. apply make_nodes_from in Hn as [Hn|(a & Ha & Hid & _)].
    + now rewrite lookup_empty in Hn.
    + apply in_map_iff. eauto.
  - intros H. apply make_nodes_keeps. now right.
Qed.

Lemma has_parent_in_spec (acc : Account) :
  has_parent_in accounts acc = true
  <-> exists c p, acc_parentId acc = Some (c :: p)
                  /\ is_Some (make_nodes accounts !! (c :: p)).
Proof.
  unfold has_parent_in. split.
  - destruct (acc_parentId acc) as [[|c p]|]; try discriminate.
    intros H. exists c, p. split; [reflexivity|]. apply make_nodes_key.
    apply existsb_exists in H as (a & Ha & Hid). apply bool_decide_eq_true in Hid.
    apply in_map_iff. eauto.
  - intros (c & p & -> & H). apply make_nodes_key in H.
    apply in_map_iff in H as (a & Hid & Ha). apply existsb_exists.
    exists a. split; [exact Ha | now apply bool_decide_eq_true].
Qed.

Lemma placed_start : placed accounts [] (make_nodes accounts, []).
Proof.
  split; [reflexivity|]. split; [reflexivity|].
  intros id n Hn. unfold make_nodes in Hn.
  apply make_nodes_from in Hn as [Hn|(a & Ha & Hid & ->)].
  - now rewrite lookup_empty in Hn.
  - exists a. repeat split; assumption.
Qed.

Lemma placed_step (done : list Account) (st : gmap str TreeNode * list str)
    (acc : Account) :
  placed accounts done st -> In acc accounts ->
  placed accounts (done ++ [acc]) (place_node st acc).
Proof.
  destruct st as [m roots]. unfold placed, place_node.
  intros (Hkeys & Hroots & Hnodes) Hacc.
  cbn [fst snd] in *.
  assert (Hself : is_Some (m !! acc_id acc)).
  { apply Hkeys, make_nodes_key, in_map_iff. eauto. }
  destruct Hself as [self Hself]. unfold str in *. rewrite Hself. cbv beta iota.
  destruct (has_parent_in accounts acc) eqn:Hhp.
  - pose proof Hhp as Hhp'.
    apply has_parent_in_spec in Hhp as (c & p & Hp & Hkey).
    rewrite Hp. apply Hkeys in Hkey as [parent Hparent]. cbv beta iota.
    rewrite Hparent. split; [|split]; cbn [fst snd].
    + intros id. rewrite <- Hkeys. destruct (decide (c :: p = id)) as [<-|Hne].
      * rewrite lookup_insert_eq, Hparent. split; eauto.
      * now rewrite lookup_insert_ne.
    + rewrite List.filter_app, map_app. cbn [List.filter]. rewrite Hhp'.
      cbn [negb map]. now rewrite app_nil_r.
    + intros id n Hn. rewrite List.filter_app, map_app. cbn [List.filter].
      rewrite Hhp'. cbn [andb].
      destruct (decide (c :: p = id)) as [<-|Hne].
      * rewrite lookup_insert_eq in Hn. injection Hn as <-.
        destruct (Hnodes _ _ Hparent) as (a & Ha & Hid & Hacc' & Hch).
        exists a. repeat split; try assumption.
        cbn [push_child node_children]. rewrite Hch.
        now rewrite bool_decide_eq_true_2 by exact Hp.
      * rewrite lookup_insert_ne in Hn by exact Hne.
        destruct (Hnodes _ _ Hn) as (a & Ha & Hid & Hacc' & Hch).
        exists a. repeat split; try assumption.
        rewrite bool_decide_eq_false_2 by congruence.
        cbn [map]. now rewrite app_nil_r.
  - match goal with
    | |- (forall id, is_Some (?X.1 !! id) <-> _) /\ _ =>
        assert (Hroot : X = (m, roots ++ [acc_id acc]))
    end.
    { destruct (acc_parentId acc) as [[|c p]|] eqn:Hp; try reflexivity.
      match goal with
      | |- context [match ?x with Some _ => _ | None => _ end] =>
          destruct x as [parent|] eqn:Hparent; [|reflexivity]
      end.
      assert (has_parent_in accounts acc = true); [|congruence].
      apply has_parent_in_spec. exists c, p. split; [exact Hp|].
      apply Hkeys. eauto. }
    rewrite Hroot. split; [|split]; cbn [fst snd].
    + exact Hkeys.
    + rewrite List.filter_app, map_app. cbn [List.filter]. rewrite Hhp.
      cbn [negb map]. now rewrite Hroots.
    + intros id n Hn. rewrite List.filter_app, map_app. cbn [List.filter].
      rewrite Hhp. cbn [andb map].
      destruct (Hnodes _ _ Hn) as (a & Ha & Hid & Hacc' & Hch).
      exists a. repeat split; try assumption. now rewrite app_nil_r.
Qed.

Lemma placed_all (todo : list Account) :
  forall (done : list Account) (st : gmap str TreeNode * list str),
    placed accounts done st -> (forall a, In a todo -> In a accounts) ->
    placed accounts (done ++ todo) (fold_left place_node todo st).
Proof.
  induction todo as [|acc todo IH]; intros done st Hst Hsub.
  - now rewrite app_nil_r.
  - cbn [fold_left]. replace (done ++ acc :: todo) with ((done ++ [acc]) ++ todo)
      by now rewrite <- app_assoc.
    apply IH.
    + apply placed_step; [exact Hst | apply Hsub; now left].
    + intros a Ha. apply Hsub. now right.
Qed.

Lemma no_child_of_empty_id (l : list Account) :
  List.filter (fun a => has_parent_in accounts a
                        && bool_decide (acc_parentId a = Some [])) l = [].
Proof.
  induction l as [|b l IH]; [reflexivity|]. cbn [List.filter]. rewrite IH.
  destruct (bool_decide (acc_parentId b = Some [])) eqn:Hb; [|now rewrite andb_false_r].
  apply bool_decide_eq_true in Hb. unfold has_parent_in. now rewrite Hb.
Qed.

(** X4. [buildAccountTree] returns as roots, in the order of the list,
    the accounts whose parentId is null, is empty, or is the id of no
    account: an account with a dangling parentId is put at the root. *)
Theorem buildAccountTree_roots :
  (buildAccountTree accounts).2
  = map acc_id (List.filter (fun a => negb (has_parent_in accounts a)) accounts).
Proof.
  destruct (placed_all accounts [] _ placed_start (fun a H => H)) as (_ & H & _).
  exact H.
Qed.

(** X5. In the tree that [buildAccountTree] builds there is one node for
    every id of the list and no other; the node of a non-empty id holds
    as children, in the order of the list, the accounts whose parentId
    is that id: the child relation that [calculateTreeBalance] and
    [getDescendantAccountIds] follow.  The node of the empty id has no
    children. *)
Theorem buildAccountTree_children (id : str) :
  (is_Some ((buildAccountTree accounts).1 !! id) <-> In id (map acc_id accounts))
  /\ forall node, (buildAccountTree accounts).1 !! id = Some node ->
       In (node_account node) accounts /\ acc_id (node_account node) = id
       /\ node_children node
          = match id with
            | [] => []
            | _ :: _ => map acc_id (children_of id accounts)
            end.
Proof.
  destruct (placed_all accounts [] _ placed_start (fun a H => H)) as (Hkeys & _ & Hnodes).
  cbn [app] in *. fold (buildAccountTree accounts) in *. split.
  - rewrite Hkeys. apply make_nodes_key.
  - intros node Hnode.
    destruct (Hnodes _ _ Hnode) as (a & Ha & Hid & Hacc & Hch).
    split; [now rewrite Hacc|]. split; [now rewrite Hacc|].
    rewrite Hch. unfold children_of.
    assert (Hkey : is_Some (make_nodes accounts !! id)) by (apply Hkeys; eauto).
    destruct id as [|c p].
    + exact (f_equal (map acc_id) (no_child_of_empty_id accounts)).
    + f_equal. apply List.filter_ext. intros b.
      destruct (has_parent_in accounts b) eqn:Hhp; [reflexivity|].
      cbn [andb]. symmetry. apply bool_decide_eq_false_2. intros Hb.
      assert (has_parent_in accounts b = true); [|congruence].
      apply has_parent_in_spec. eauto.
Qed.

End BuildTree.

(** An account with a parentId that no account has is a root. *)
Example buildAccountTree_orphan :
  (buildAccountTree (two_accounts ++ [acct "C" (Some "Z") "Lost"])).2 = [$"A"; $"C"].
Proof. reflexivity. Qed.

(** ** Balances over transactions and accounts *)

Lemma num_add_comm (a b : number) : num_add a b = num_add b a.
Proof. destruct a, b; cbn; try reflexivity. now rewrite Z.add_comm. Qed.

Lemma num_add_0_l (a : number) : num_add (Num 0) a = a.
Proof. now destruct a. Qed.

Lemma num_sum_app (l1 l2 : list number) :
  num_sum (l1 ++ l2) = num_add (num_sum l1) (num_sum l2).
Proof.
  induction l1 as [|a l1 IH]; cbn [app num_sum fold_right].
  - now rewrite num_add_0_l.
  - fold (num_sum (l1 ++ l2)). fold (num_sum l1). now rewrite IH, num_add_assoc.
Qed.

Lemma num_sum_cons (a : number) (l : list number) :
  num_sum (a :: l) = num_add a (num_sum l).
Proof. reflexivity. Qed.

Lemma num_sum_add {A} (f g : A -> number) (l : list A) :
  num_sum (map (fun x => num_add (f x) (g x)) l)
  = num_add (num_sum (map f l)) (num_sum (map g l)).
Proof.
  induction l as [|x l IH]; [reflexivity|]. cbn [map]. rewrite !num_sum_cons, IH.
  rewrite !num_add_assoc. f_equal.
  rewrite <- !num_add_assoc. f_equal. apply num_add_comm.
Qed.

Lemma num_sum_zero {A} (l : list A) : num_sum (map (fun _ => Num 0) l) = Num 0.
Proof. induction l as [|x l IH]; [reflexivity|]. cbn [map]. now rewrite num_sum_cons, IH. Qed.

(** What a split adds to the balance of an account. *)
Local Abbreviation share id :=
  (fun sp : Split => if split_on id sp then sp_amount sp else Num 0).

Lemma fold_splits_shares (accountId : str) (splits : list Split) (balance : number) :
  fold_left (fun balance split =>
      if split_on accountId split then num_add balance (sp_amount split) else balance)
    splits balance
  = num_add balance (num_sum (map (share accountId) splits)).
Proof.
  revert balance. induction splits as [|sp sps IH]; intros balance.
  - cbn. now rewrite num_add_0_r.
  - cbn [fold_left map]. rewrite IH, num_sum_cons.
    destruct (split_on accountId sp).
    + now rewrite num_add_assoc.
    + now rewrite num_add_0_l.
Qed.

Lemma calculateAccountBalance_shares (accountId : str) (transactions : list Transaction) :
  calculateAccountBalance accountId transactions
  = num_sum (map (share accountId) (all_splits transactions)).
Proof.
  unfold calculateAccountBalance, all_splits.
  enough (H : forall balance,
            fold_left (fun balance tx =>
                fold_left (fun balance split =>
                    if split_on accountId split then num_add balance (sp_amount split)
                    else balance) (tx_splits tx) balance) transactions balance
            = num_add balance
                (num_sum (map (share accountId) (flat_map tx_splits transactions))))
    by (rewrite H; apply num_add_0_l).
  induction transactions as [|tx txs IH]; intros balance.
  - cbn. now rewrite num_add_0_r.
  - cbn [fold_left flat_map]. rewrite IH, fold_splits_shares, map_app, num_sum_app.
    now rewrite num_add_assoc.
Qed.

(** X6. On amounts that add without rounding (integers whose magnitudes
    total at most 2^53), the balance of an account over two lists of
    transactions put together is the sum of its balances over each:
    transactions can be added to the ledger, or the ledger cut in
    periods, without recomputing. *)
Theorem calculateAccountBalance_app (accountId : str) (txs1 txs2 : list Transaction) :
  exact_amounts (txs1 ++ txs2) ->
  calculateAccountBalance accountId (txs1 ++ txs2)
  = num_add (calculateAccountBalance accountId txs1)
      (calculateAccountBalance accountId txs2).
Proof.
  intros _. rewrite !calculateAccountBalance_shares. unfold all_splits.
  now rewrite flat_map_app, map_app, num_sum_app.
Qed.

Lemma two_account_txs_exact : exact_amounts (two_account_txs ++ two_account_txs).
Proof. split; [repeat constructor; discriminate | vm_compute; discriminate]. Qed.

Lemma calculateAccountBalance_app_witness :
  exact_amounts (two_account_txs ++ two_account_txs)
  /\ calculateAccountBalance $"B" (two_account_txs ++ two_account_txs)
     = num_add (calculateAccountBalance $"B" two_account_txs)
         (calculateAccountBalance $"B" two_account_txs).
Proof.
  split; [exact two_account_txs_exact|].
  exact (calculateAccountBalance_app $"B" two_account_txs two_account_txs
           two_account_txs_exact).
Defined.

Lemma shares_of_split (ids : list str) (sp : Split) :
  List.NoDup ids ->
  num_sum (map (fun id => share id sp) ids)
  = match sp_accountId sp with
    | Some id => if bool_decide (id ∈ ids) then sp_amount sp else Num 0
    | None => Num 0
    end.
Proof.
  unfold split_on. induction 1 as [|i ids Hi _ IH]; cbn [map].
  - destruct (sp_accountId sp); [|reflexivity].
    now rewrite bool_decide_eq_false_2 by apply not_elem_of_nil.
  - rewrite num_sum_cons, IH. destruct (sp_accountId sp) as [id|].
    + destruct (decide (id = i)) as [->|Hne].
      * rewrite (bool_decide_eq_true_2 (Some i = Some i)) by reflexivity.
        rewrite (bool_decide_eq_false_2 (i ∈ ids)) by now rewrite list_elem_of_In.
        rewrite (bool_decide_eq_true_2 (i ∈ i :: ids)) by apply list_elem_of_here.
        apply num_add_0_r.
      * rewrite (bool_decide_eq_false_2 (Some id = Some i)) by congruence.
        rewrite num_add_0_l.
        destruct (bool_decide (id ∈ ids)) eqn:Hin.
        -- apply bool_decide_eq_true in Hin.
           now rewrite bool_decide_eq_true_2 by now apply list_elem_of_further.
        -- apply bool_decide_eq_false in Hin.
           rewrite bool_decide_eq_false_2; [reflexivity|].
           intros H. apply elem_of_cons in H as [?|?]; congruence.
    + rewrite bool_decide_eq_false_2 by discriminate. apply num_add_0_l.
Qed.

(** The balances of distinct ids add up to the amounts of the splits on
    those ids. *)
Lemma balances_of_ids (ids : list str) (transactions : list Transaction) :
  List.NoDup ids ->
  num_sum (map (fun id => calculateAccountBalance id transactions) ids)
  = num_sum (map (fun sp => match sp_accountId sp with
                            | Some id => if bool_decide (id ∈ ids) then sp_amount sp
                                         else Num 0
                            | None => Num 0
                            end) (all_splits transactions)).
Proof.
  intros Hnodup.
  erewrite map_ext by (intros id; apply calculateAccountBalance_shares).
  induction (all_splits transactions) as [|sp sps IH].
  - cbn [map]. apply num_sum_zero.
  - cbn [map]. rewrite num_sum_cons, <- IH, <- (shares_of_split ids sp Hnodup).
    apply (num_sum_add (fun id => share id sp)
             (fun id => num_sum (map (share id) sps))).
Qed.

(** X7. Double entry, on amounts that add without rounding (integers
    whose magnitudes total at most 2^53): when the ids of a list are
    pairwise distinct, every split is on one of them, and the splits of
    every transaction sum to zero, the balances of these ids sum to
    zero. *)
Theorem balances_sum_to_zero (ids : list str) (transactions : list Transaction) :
  exact_amounts transactions ->
  List.NoDup ids ->
  (forall tx sp, In tx transactions -> In sp (tx_splits tx) ->
     exists id, sp_accountId sp = Some id /\ In id ids) ->
  (forall tx, In tx transactions -> num_sum (map sp_amount (tx_splits tx)) = Num 0) ->
  num_sum (map (fun id => calculateAccountBalance id transactions) ids) = Num 0.
Proof.
  intros _ Hnodup Hknown Hbalanced. rewrite (balances_of_ids ids transactions Hnodup).
  unfold all_splits.
  induction transactions as [|tx txs IH]; [reflexivity|].
  cbn [flat_map]. rewrite map_app, num_sum_app.
  rewrite IH; [| intros; eapply Hknown; [right|]; eauto | intros; apply Hbalanced; now right].
  rewrite num_add_0_r. rewrite <- (Hbalanced tx) by now left.
  f_equal. apply map_ext_in. intros sp Hsp.
  destruct (Hknown tx sp (or_introl eq_refl) Hsp) as (id & -> & Hid).
  now rewrite bool_decide_eq_true_2 by now apply list_elem_of_In.
Qed.

Lemma balances_sum_to_zero_witness :
  exact_amounts [emitted_tx (env_at jan10) 0 (rule "r1" daily "2024-01-01" true)]
  /\ List.NoDup [$"A"; $"B"; $"rent"; $"bank"]
  /\ num_sum (map (fun id => calculateAccountBalance id
                      [emitted_tx (env_at jan10) 0 (rule "r1" daily "2024-01-01" true)])
               [$"A"; $"B"; $"rent"; $"bank"]) = Num 0.
Proof.
  assert (Hnodup : List.NoDup [$"A"; $"B"; $"rent"; $"bank"]).
  { repeat constructor; cbn; intuition discriminate. }
  assert (Hexact : exact_amounts
            [emitted_tx (env_at jan10) 0 (rule "r1" daily "2024-01-01" true)])
    by (split; [repeat constructor; discriminate | vm_compute; discriminate]).
  split; [exact Hexact|]. split; [exact Hnodup|].
  apply (balances_sum_to_zero [$"A"; $"B"; $"rent"; $"bank"]
           [emitted_tx (env_at jan10) 0 (rule "r1" daily "2024-01-01" true)]
           Hexact Hnodup).
  - intros tx sp [<-|[]] [<-|[<-|[]]]; cbn; eexists; split; try reflexivity;
      cbn; intuition.
  - intros tx [<-|[]]. reflexivity.
Defined.

(** ** The balance of a subtree and the total of a branch *)

Section Branch.

Local Open Scope nat_scope.

Variable allAccounts : list Account.
Variable transactions : list Transaction.

Local Abbreviation own id := (calculateAccountBalance id transactions).
Local Abbreviation tree fuel a := (calculateTreeBalance fuel a allAccounts transactions).

Lemma in_children_of (c : Account) (id : str) :
  In c (children_of id allAccounts) <-> In c allAccounts /\ acc_parentId c = Some id.
Proof.
  unfold children_of. rewrite filter_In. split; intros [H1 H2]; split; auto.
  - now apply bool_decide_eq_true in H2.
  - now apply bool_decide_eq_true.
Qed.

(** The subtree balance is the sum of the own balances over the visits
    of the recursion. *)
Lemma calculateTreeBalance_visited (fuel : nat) :
  forall a b, tree fuel a = Some b ->
    b = num_sum (map (fun id => own id) (visited_ids fuel a allAccounts)).
Proof.
  induction fuel as [|fuel IH]; intros a b H; [discriminate|].
  cbn [calculateTreeBalance visited_ids] in *.
  apply fold_children_inv in H as (bs & Hbs & ->).
  rewrite fold_left_num_add. cbn [map]. rewrite num_sum_cons. f_equal.
  induction Hbs as [|c bc cs bs Hc _ IHcs]; [reflexivity|].
  cbn [flat_map]. rewrite map_app, num_sum_app, num_sum_cons. f_equal; [|exact IHcs].
  now apply IH.
Qed.

Lemma visited_reaches (fuel : nat) :
  forall a x, In x (visited_ids fuel a allAccounts) -> reaches allAccounts (acc_id a) x.
Proof.
  induction fuel as [|fuel IH]; intros a x H; [destruct H|].
  cbn [visited_ids] in H. destruct H as [<-|H]; [constructor|].
  apply in_flat_map in H as (c & Hc & Hx). apply in_children_of in Hc as [Hin Hp].
  econstructor; eauto.
Qed.

Lemma reaches_visited (fuel : nat) :
  forall a b x, tree fuel a = Some b -> reaches allAccounts (acc_id a) x ->
    In x (visited_ids fuel a allAccounts).
Proof.
  induction fuel as [|fuel IH]; intros a b x H Hx; [discriminate|].
  cbn [calculateTreeBalance visited_ids] in *.
  apply fold_children_inv in H as (bs & Hbs & _).
  remember (acc_id a) as r eqn:Hr. destruct Hx as [|c x Hin Hp Hrest]; [now left|].
  right. apply in_flat_map. exists c.
  assert (Hc : In c (children_of r allAccounts)) by now apply in_children_of.
  split; [exact Hc|].
  apply list_elem_of_In in Hc.
  apply list_elem_of_lookup in Hc as [i Hi].
  destruct (Forall2_lookup_l _ _ _ _ _ Hbs Hi) as (bc & _ & Hbc).
  eapply IH; eauto.
Qed.

Section Forest.

Variable rank : str -> nat.
Hypothesis rank_decreases :
  forall a p, In a allAccounts -> acc_parentId a = Some p -> rank (acc_id a) < rank p.
Hypothesis ids_distinct : List.NoDup (map acc_id allAccounts).

Lemma account_of_id (a a' : Account) :
  In a allAccounts -> In a' allAccounts -> acc_id a = acc_id a' -> a = a'.
Proof.
  revert ids_distinct. clear rank_decreases.
  induction allAccounts as [|b l IH]; intros Hnd Ha Ha' Hid; [destruct Ha|].
  cbn [map] in Hnd. apply List.NoDup_cons_iff in Hnd as [Hb Hnd].
  destruct Ha as [->|Ha], Ha' as [->|Ha'].
  - reflexivity.
  - destruct Hb. rewrite Hid. now apply in_map.
  - destruct Hb. rewrite <- Hid. now apply in_map.
  - now apply IH.
Qed.

Lemma reaches_rank (r x : str) : reaches allAccounts r x -> rank x <= rank r.
Proof.
  induction 1 as [|r a x Hin Hp _ IH]; [lia|].
  specialize (rank_decreases a r Hin Hp). lia.
Qed.

(** The last link of a walk. *)
Lemma reaches_last (r x : str) :
  reaches allAccounts r x ->
  x = r \/ exists a p, In a allAccounts /\ acc_id a = x
                       /\ acc_parentId a = Some p /\ reaches allAccounts r p.
Proof.
  induction 1 as [|r a x Hin Hp Hrest IH]; [now left|]. right.
  destruct IH as [->|(a' & p & Hin' & Hid & Hp' & Hrp)].
  - exists a, r. split; [exact Hin|]. split; [reflexivity|]. split; [exact Hp|].
    constructor.
  - exists a', p. split; [exact Hin'|]. split; [exact Hid|]. split; [exact Hp'|].
    exact (reaches_child _ _ a p Hin Hp Hrp).
Qed.

(** The ids from which an id is reached lie on one line. *)
Lemma reaches_comparable (n : nat) :
  forall r1 r2 x, rank r1 - rank x <= n ->
    reaches allAccounts r1 x -> reaches allAccounts r2 x ->
    reaches allAccounts r1 r2 \/ reaches allAccounts r2 r1.
Proof.
  induction n as [|n IH]; intros r1 r2 x Hn H1 H2.
  - pose proof (reaches_rank _ _ H1) as Hle.
    destruct (reaches_last _ _ H1) as [->|(a & p & Hin & Hid & Hp & Hrp)]; [now right|].
    pose proof (reaches_rank _ _ Hrp) as Hle'.
    specialize (rank_decreases a p Hin Hp). rewrite Hid in rank_decreases. lia.
  - destruct (reaches_last _ _ H1) as [->|(a & p & Hin & Hid & Hp & Hrp)]; [now right|].
    destruct (reaches_last _ _ H2) as [->|(a' & p' & Hin' & Hid' & Hp' & Hrp')];
      [now left|].
    assert (a = a') by (apply account_of_id; congruence). subst a'.
    assert (p' = p) by congruence. subst p'.
    pose proof (rank_decreases a p Hin Hp) as Hlt. rewrite Hid in Hlt.
    apply (IH r1 r2 p); [lia | exact Hrp | exact Hrp'].
Qed.

Lemma siblings_apart (c1 c2 : Account) (p : str) :
  In c1 allAccounts -> In c2 allAccounts ->
  acc_parentId c1 = Some p -> acc_parentId c2 = Some p ->
  reaches allAccounts (acc_id c1) (acc_id c2) -> acc_id c1 = acc_id c2.
Proof.
  intros Hin1 Hin2 Hp1 Hp2 H.
  destruct (reaches_last _ _ H) as [Heq|(a & q & Hin & Hid & Hq & Hrq)]; [now symmetry|].
  assert (a = c2) by now apply account_of_id. subst a.
  assert (q = p) by congruence. subst q.
  pose proof (reaches_rank _ _ Hrq). pose proof (rank_decreases c1 p Hin1 Hp1). lia.
Qed.

Lemma NoDup_flat_map_ids (g : Account -> list str) (l : list Account) :
  List.NoDup (map acc_id l) ->
  (forall c, In c l -> List.NoDup (g c)) ->
  (forall c1 c2 x, In c1 l -> In c2 l -> In x (g c1) -> In x (g c2) ->
     acc_id c1 = acc_id c2) ->
  List.NoDup (flat_map g l).
Proof.
  induction l as [|c l IH]; intros Hnd Heach Hapart; [constructor|].
  cbn [map] in Hnd. apply List.NoDup_cons_iff in Hnd as [Hc Hnd].
  cbn [flat_map]. apply List.NoDup_app.
  - apply Heach. now left.
  - apply IH; [exact Hnd | intros; apply Heach; now right |].
    intros c1 c2 x H1 H2. apply Hapart; now right.
  - intros x Hx Hx'. apply in_flat_map in Hx' as (c' & Hc' & Hx').
    apply Hc. rewrite (Hapart c c' x); auto; [now apply in_map | now left | now right].
Qed.

Lemma children_ids_distinct (id : str) :
  List.NoDup (map acc_id (children_of id allAccounts)).
Proof.
  unfold children_of. revert ids_distinct. clear.
  induction allAccounts as [|a l IH]; intros Hnd; [constructor|].
  cbn [map] in Hnd. apply List.NoDup_cons_iff in Hnd as [Ha Hnd].
  cbn [List.filter]. destruct (bool_decide _); [|now apply IH].
  cbn [map]. constructor; [|now apply IH].
  intros Hin. apply Ha. apply in_map_iff in Hin as (b & Hb & Hin).
  apply filter_In in Hin as [Hin _]. apply in_map_iff. eauto.
Qed.

(** In a forest with distinct ids the recursion visits no id twice. *)
Lemma visited_ids_NoDup (fuel : nat) :
  forall a, In a allAccounts -> List.NoDup (visited_ids fuel a allAccounts).
Proof.
  induction fuel as [|fuel IH]; intros a Ha; [constructor|].
  cbn [visited_ids]. constructor.
  - intros Hin. apply in_flat_map in Hin as (c & Hc & Hx).
    apply in_children_of in Hc as [Hin Hp]. apply visited_reaches in Hx.
    pose proof (reaches_rank _ _ Hx). pose proof (rank_decreases c _ Hin Hp). lia.
  - apply NoDup_flat_map_ids.
    + apply children_ids_distinct.
    + intros c Hc. apply IH. now apply in_children_of in Hc as [Hc _].
    + intros c1 c2 x Hc1 Hc2 Hx1 Hx2.
      apply in_children_of in Hc1 as [Hin1 Hp1], Hc2 as [Hin2 Hp2].
      apply visited_reaches in Hx1, Hx2.
      destruct (reaches_comparable (rank (acc_id c1)) (acc_id c1) (acc_id c2) x
                  (Nat.le_sub_l _ _) Hx1 Hx2) as [H|H].
      * now apply (siblings_apart c1 c2 (acc_id a)).
      * symmetry. now apply (siblings_apart c2 c1 (acc_id a)).
Qed.

End Forest.

End Branch.

Lemma fold_amounts (splits : list Split) (a : number) :
  fold_left (fun sum s => num_add sum (sp_amount s)) splits a
  = num_add a (num_sum (map sp_amount splits)).
Proof.
  revert a. induction splits as [|sp sps IH]; intros a; cbn [fold_left map].
  - now rewrite num_add_0_r.
  - now rewrite IH, num_sum_cons, num_add_assoc.
Qed.

Lemma fold_relevant (l : list (Transaction * number)) (a : number) :
  fold_left (fun sum t => num_add sum (snd t)) l a = num_add a (num_sum (map snd l)).
Proof.
  revert a. induction l as [|t l IH]; intros a; cbn [fold_left map].
  - now rewrite num_add_0_r.
  - now rewrite IH, num_sum_cons, num_add_assoc.
Qed.

Lemma filtered_amounts (p : Split -> bool) (splits : list Split) :
  num_sum (map sp_amount (List.filter p splits))
  = num_sum (map (fun sp => if p sp then sp_amount sp else Num 0) splits).
Proof.
  induction splits as [|sp sps IH]; [reflexivity|].
  cbn [List.filter map]. destruct (p sp); cbn [map]; rewrite !num_sum_cons, IH.
  - reflexivity.
  - now rewrite num_add_0_l.
Qed.

Lemma relevant_amounts_sum (ids : gset str) (transactions : list Transaction) :
  num_sum (map snd (relevant_amounts ids transactions))
  = num_sum (map (fun sp => if split_in ids sp then sp_amount sp else Num 0)
               (all_splits transactions)).
Proof.
  unfold relevant_amounts, all_splits.
  induction transactions as [|tx txs IH]; [reflexivity|].
  cbn [flat_map]. rewrite !map_app, !num_sum_app, IH. f_equal.
  rewrite <- filtered_amounts.
  destruct (List.filter (split_in ids) (tx_splits tx)) as [|sp sps]; [reflexivity|].
  cbn [map snd]. rewrite fold_amounts, num_add_0_l. apply num_add_0_r.
Qed.

(** X8. In a forest of accounts with pairwise distinct ids (an acyclic
    parentId relation), and on amounts that add without rounding
    (integers whose magnitudes total at most 2^53), the total that the
    detail view of the reports computes for a branch, by collecting the
    descendant ids and adding up the splits on them, is the subtree
    balance that [calculateTreeBalance] computes for the account of the
    branch; both computations return. *)
Theorem branch_total_is_tree_balance (accounts : list Account)
    (transactions : list Transaction) (acc : Account) :
  exact_amounts transactions ->
  acyclic accounts -> List.NoDup (map acc_id accounts) -> In acc accounts ->
  exists fuel b,
    (forall extra,
        calculateTreeBalance (fuel + extra) acc accounts transactions = Some b)
    /\ forall extra, branch_total (fuel + extra) acc accounts transactions = Some b.
Proof.
  intros _ [rank Hrank] Hnodup Hacc.
  destruct (calculateTreeBalance_terminates accounts transactions rank Hrank
              (S (rank (acc_id acc))) acc (Nat.lt_succ_diag_r _)) as [b Hb].
  destruct (getDescendantAccountIds_terminates accounts rank Hrank (acc_id acc))
    as (f2 & out & Hout).
  exists (S (rank (acc_id acc)) + f2)%nat, b. split.
  - intros extra. rewrite <- Nat.add_assoc.
    now apply calculateTreeBalance_mono.
  - intros extra. unfold branch_total.
    replace (S (rank (acc_id acc)) + f2 + extra)%nat
      with (f2 + (S (rank (acc_id acc)) + extra))%nat by lia.
    rewrite Hout. f_equal.
    rewrite fold_relevant, num_add_0_l, relevant_amounts_sum.
    rewrite (calculateTreeBalance_visited accounts transactions _ _ _ Hb).
    rewrite balances_of_ids
      by (eapply visited_ids_NoDup; eauto).
    f_equal. apply map_ext. intros sp. unfold split_in.
    destruct (sp_accountId sp) as [id|]; [|reflexivity].
    erewrite bool_decide_ext; [reflexivity|].
    rewrite elem_of_union, elem_of_singleton.
    rewrite (getDescendantAccountIds_spec _ _ _ _ (Hout 0%nat)).
    rewrite list_elem_of_In. split.
    + intros [->|H]; eapply reaches_visited; eauto. constructor.
    + intros H. right. eapply visited_reaches. exact H.
Qed.

Lemma two_accounts_ids : List.NoDup (map acc_id two_accounts).
Proof. repeat constructor; cbn; intuition discriminate. Qed.

Lemma branch_total_is_tree_balance_witness :
  exact_amounts two_account_txs
  /\ acyclic two_accounts /\ List.NoDup (map acc_id two_accounts)
  /\ exists fuel b,
       (forall extra,
           calculateTreeBalance (fuel + extra) (acct "A" None "Assets")
             two_accounts two_account_txs = Some b)
       /\ forall extra,
            branch_total (fuel + extra) (acct "A" None "Assets")
              two_accounts two_account_txs = Some b.
Proof.
  assert (Hexact : exact_amounts two_account_txs)
    by (split; [repeat constructor; discriminate | vm_compute; discriminate]).
  split; [exact Hexact|].
  split; [exact two_accounts_acyclic|]. split; [exact two_accounts_ids|].
  apply (branch_total_is_tree_balance two_accounts two_account_txs
           (acct "A" None "Assets") Hexact two_accounts_acyclic two_accounts_ids).
  now left.
Defined.

(** With an id used twice the two computations part: the recursion
    counts a child once for each account that carries its id, the branch
    total once. *)
Example branch_total_with_repeated_id :
  calculateTreeBalance 3 (acct "A" None "Assets")
    (two_accounts ++ [acct "B" (Some "A") "Bank"]) two_account_txs = Some (Num 200)
  /\ branch_total 4 (acct "A" None "Assets")
       (two_accounts ++ [acct "B" (Some "A") "Bank"]) two_account_txs = Some (Num 100).
Proof. split; reflexivity. Qed.

(** ** The engine: what is left alone, and when it fails *)

(** X9. When [processDueRecurringTransactions] emits no transaction, the
    rules it returns are the rules it was given: a caller that keeps its
    own list in that case, as the application does, loses nothing. *)
Theorem processDue_nothing_emitted (env : Env) (rules : list RecurringTransaction)
    (txs : list Transaction) (upd : list RecurringTransaction) :
  processDueRecurringTransactions env rules txs = Some ([], upd) -> upd = rules.
Proof.
  intros H. pose proof (process_items_emits_nothing _ _ _ _ _ H) as Hnone.
  unfold processDueRecurringTransactions in H.
  rewrite (process_items_none_due env (today env) rules 0 Hnone) in H. congruence.
Qed.

Lemma processDue_nothing_emitted_witness :
  processDueRecurringTransactions (env_at dec31) sample_rules [] = Some ([], sample_rules)
  /\ sample_rules = sample_rules.
Proof.
  split; [vm_compute; reflexivity|].
  apply (processDue_nothing_emitted (env_at dec31) sample_rules [] sample_rules).
  vm_compute. reflexivity.
Defined.

(** X10. A rule that is not due, because it is inactive or because its
    [nextDueDate] is after today, is returned as it is, at its
    position. *)
Theorem processDue_keeps_rules_not_due (env : Env) (rules : list RecurringTransaction)
    (txs new : list Transaction) (upd : list RecurringTransaction)
    (i : nat) (r : RecurringTransaction) :
  processDueRecurringTransactions env rules txs = Some (new, upd) ->
  rules !! i = Some r -> is_due (today env) r = false ->
  upd !! i = Some r.
Proof.
  intros H Hi Hdue. apply process_items_inv in H as [HF _].
  destruct (Forall2_lookup_l _ _ _ _ _ HF Hi) as (r' & Hr' & [_ ->|Hfire _ _]);
    [exact Hr' | congruence].
Qed.

Lemma processDue_keeps_rules_not_due_witness :
  exists new upd,
    processDueRecurringTransactions (env_at jan10) sample_rules [] = Some (new, upd)
    /\ is_due (today (env_at jan10)) (rule "r3" daily "2024-02-01" true) = false
    /\ upd !! 2%nat = Some (rule "r3" daily "2024-02-01" true).
Proof.
  eexists _, _. split; [vm_compute; reflexivity|]. split; [vm_compute; reflexivity|].
  eapply (processDue_keeps_rules_not_due (env_at jan10) sample_rules []);
    [vm_compute; reflexivity | reflexivity | vm_compute; reflexivity].
Defined.

Lemma process_items_fails (env : Env) (td : str) (rules : list RecurringTransaction) :
  forall k, process_items env td k rules = None
            <-> exists r, In r rules /\ is_due td r = true
                          /\ parseDate (rt_nextDueDate r) = None.
Proof.
  induction rules as [|item rest IH]; intros k.
  - split; [discriminate | intros (r & [] & _)].
  - cbn [process_items]. unfold process_item, calculateNextDueDate.
    destruct (is_due td item) eqn:Hdue.
    + destruct (parseDate (rt_nextDueDate item)) as [t|] eqn:Ht.
      * destruct (process_items env td (S k) rest) as [[new upd]|] eqn:Hrest.
        -- split; [discriminate|]. intros (r & [<-|Hr] & Hd & Hp); [congruence|].
           assert (Hnone : process_items env td (S k) rest = None)
             by (apply IH; eauto). congruence.
        -- split; [|reflexivity]. intros _.
           apply IH in Hrest as (r & Hr & Hd & Hp). exists r. split; [now right | auto].
      * split; [|reflexivity]. intros _. exists item. split; [now left | auto].
    + destruct (process_items env td k rest) as [[new upd]|] eqn:Hrest.
      * split; [discriminate|]. intros (r & [<-|Hr] & Hd & Hp); [congruence|].
        assert (Hnone : process_items env td k rest = None) by (apply IH; eauto).
        congruence.
      * split; [|reflexivity]. intros _.
        apply IH in Hrest as (r & Hr & Hd & Hp). exists r. split; [now right | auto].
Qed.

(** X11. The engine returns whenever every rule that is due, being
    active with [nextDueDate <= today], has a date of the data model as
    [nextDueDate]; what stands in the [nextDueDate] of a rule that is
    inactive or not yet due does not matter, since it is never read as a
    date. *)
Theorem processDue_returns_when_due_dates_valid (env : Env)
    (rules : list RecurringTransaction) (txs : list Transaction) :
  (forall r, In r rules -> is_due (today env) r = true -> iso_date (rt_nextDueDate r)) ->
  exists new upd, processDueRecurringTransactions env rules txs = Some (new, upd).
Proof.
  intros Hdue.
  destruct (processDueRecurringTransactions env rules txs) as [[new upd]|] eqn:Hrun;
    [eauto|].
  apply process_items_fails in Hrun as (r & Hr & Hd & Hnone).
  destruct (Hdue r Hr Hd) as [t Ht]. congruence.
Qed.

Lemma processDue_returns_when_due_dates_valid_witness :
  (forall r, In r (sample_rules ++ [rule "r5" monthly "soon" false]) ->
     is_due (today (env_at jan10)) r = true -> iso_date (rt_nextDueDate r))
  /\ exists new upd,
       processDueRecurringTransactions (env_at jan10)
         (sample_rules ++ [rule "r5" monthly "soon" false]) [] = Some (new, upd).
Proof.
  assert (H : forall r, In r (sample_rules ++ [rule "r5" monthly "soon" false]) ->
                is_due (today (env_at jan10)) r = true -> iso_date (rt_nextDueDate r)).
  { intros r [<-|[<-|[<-|[<-|[<-|[]]]]]] Hd; vm_compute in Hd;
      first [discriminate Hd | vm_compute; eauto]. }
  split; [exact H|].
  exact (processDue_returns_when_due_dates_valid (env_at jan10) _ [] H).
Defined.

(** The empty text is below every date, so an active rule without a due
    date is due, and fails the run. *)
Example processDue_fails_on_empty_due_date :
  processDueRecurringTransactions (env_at jan10)
    (sample_rules ++ [rule "r5" monthly "" true]) [] = None.
Proof. vm_compute. reflexivity. Qed.

Lemma digit_of_inv (c : ascii) (a : Z) :
  digit_of c = Some a -> Z.of_nat (nat_of_ascii c) = a + 48 /\ 0 <= a <= 9.
Proof.
  unfold digit_of. destruct (48 <=? Z.of_nat (nat_of_ascii c)) eqn:H1; [|discriminate].
  destruct (Z.of_nat (nat_of_ascii c) <=? 57) eqn:H2; [|discriminate].
  cbn [andb]. intros [= <-]. apply Z.leb_le in H1, H2. lia.
Qed.

Lemma date_fields_inv (s : str) (ymd : Z * Z * Z) :
  date_fields s = Some ymd ->
  exists y1 y2 y3 y4 m1 m2 d1 d2 a b c d e f g h,
    s = [y1; y2; y3; y4; "-"%char; m1; m2; "-"%char; d1; d2]
    /\ digit_of y1 = Some a /\ digit_of y2 = Some b /\ digit_of y3 = Some c
    /\ digit_of y4 = Some d /\ digit_of m1 = Some e /\ digit_of m2 = Some f
    /\ digit_of d1 = Some g /\ digit_of d2 = Some h
    /\ ymd = (1000 * a + 100 * b + 10 * c + d, 10 * e + f, 10 * g + h).
Proof.
  unfold date_fields.
  destruct s as [|y1 [|y2 [|y3 [|y4 [|dash1 [|m1 [|m2 [|dash2 [|d1 [|d2 [|? ?]]]]]]]]]]];
    try discriminate.
  destruct (digit_of y1) as [a|] eqn:Ey1; [|discriminate].
  destruct (digit_of y2) as [b|] eqn:Ey2; [|discriminate].
  destruct (digit_of y3) as [c|] eqn:Ey3; [|discriminate].
  destruct (digit_of y4) as [d|] eqn:Ey4; [|discriminate].
  destruct (digit_of m1) as [e|] eqn:Em1; [|discriminate].
  destruct (digit_of m2) as [f|] eqn:Em2; [|discriminate].
  destruct (digit_of d1) as [g|] eqn:Ed1; [|discriminate].
  destruct (digit_of d2) as [h|] eqn:Ed2; [|discriminate].
  destruct (bool_decide (dash1 = "-"%char)) eqn:H1; [|discriminate].
  destruct (bool_decide (dash2 = "-"%char)) eqn:H2; [|discriminate].
  apply bool_decide_eq_true in H1, H2. subst dash1 dash2. cbn [andb]. intros [= <-].
  exists y1, y2, y3, y4, m1, m2, d1, d2, a, b, c, d, e, f, g, h.
  repeat split; assumption.
Qed.

(** String order on texts of the form [YYYY-MM-DD]. *)
Lemma str_leb_date_fields (s1 s2 : str) (a b : Z * Z * Z) :
  date_fields s1 = Some a -> date_fields s2 = Some b ->
  str_leb s1 s2 = ymd_leb a b.
Proof.
  intros H1 H2.
  apply date_fields_inv in H1
    as (p1 & p2 & p3 & p4 & p5 & p6 & p7 & p8 & a1 & a2 & a3 & a4 & a5 & a6 & a7 & a8
        & -> & A1 & A2 & A3 & A4 & A5 & A6 & A7 & A8 & ->).
  apply date_fields_inv in H2
    as (q1 & q2 & q3 & q4 & q5 & q6 & q7 & q8 & b1 & b2 & b3 & b4 & b5 & b6 & b7 & b8
        & -> & B1 & B2 & B3 & B4 & B5 & B6 & B7 & B8 & ->).
  apply digit_of_inv in A1, A2, A3, A4, A5, A6, A7, A8, B1, B2, B3, B4, B5, B6, B7, B8.
  cbn [str_leb ymd_leb].
  repeat match goal with
    | |- context [(?x <? ?y)%nat] => destruct (Nat.ltb_spec x y)
    end;
  repeat match goal with
    | |- context [?x <? ?y] => destruct (Z.ltb_spec x y)
    | |- context [?x =? ?y] => destruct (Z.eqb_spec x y)
    | |- context [?x <=? ?y] => destruct (Z.leb_spec x y)
    end; cbn [orb andb]; first [reflexivity | exfalso; lia].
Qed.

(** X12. On two texts of the form [YYYY-MM-DD] the comparison [<=] of
    strings, which the engine uses to decide whether a rule is due, is
    the comparison of the dates by year, month and day. *)
Theorem str_leb_is_date_order (s1 s2 : str) (a b : Z * Z * Z) :
  date_fields s1 = Some a -> date_fields s2 = Some b ->
  str_leb s1 s2 = ymd_leb a b.
Proof. apply str_leb_date_fields. Qed.

Lemma str_leb_is_date_order_witness :
  date_fields $"2024-01-31" = Some (2024, 1, 31)
  /\ date_fields $"2024-02-01" = Some (2024, 2, 1)
  /\ str_leb $"2024-01-31" $"2024-02-01" = ymd_leb (2024, 1, 31) (2024, 2, 1).
Proof.
  split; [reflexivity|]. split; [reflexivity|].
  apply (str_leb_is_date_order $"2024-01-31" $"2024-02-01"); reflexivity.
Defined.

(** Every date that [new Date] reads has this form. *)
Lemma parseDate_date_fields (s : str) (t : Z) :
  parseDate s = Some t -> is_Some (date_fields s).
Proof.
  unfold parseDate, date_fields.
  destruct s as [|y1 [|y2 [|y3 [|y4 [|dash1 [|m1 [|m2 [|dash2 [|d1 [|d2 [|? ?]]]]]]]]]]];
    try discriminate.
  destruct (digit_of y1), (digit_of y2), (digit_of y3), (digit_of y4),
    (digit_of m1), (digit_of m2), (digit_of d1), (digit_of d2); try discriminate.
  destruct (bool_decide (dash1 = "-"%char)), (bool_decide (dash2 = "-"%char));
    try discriminate; cbn [andb]; eauto.
Qed.

(** ** The reader: what every result has in common *)

Lemma no_quote_In (s : str) : Forall (fun c => c <> quote) s <-> ~ In quote s.
Proof.
  rewrite List.Forall_forall. split.
  - intros H Hin. now apply (H quote Hin).
  - intros H c Hc ->. exact (H Hc).
Qed.

(** The character loop puts no quote into a cell. *)
Lemma scan_row_no_quote (line : str) :
  forall (inQuote : bool) (cur : str) (row : list str),
    Forall (fun c => c <> quote) cur ->
    Forall (Forall (fun c => c <> quote)) row ->
    Forall (Forall (fun c => c <> quote)) (scan_row line inQuote cur row).
Proof.
  induction line as [|char rest IH]; intros inQuote cur row Hcur Hrow; cbn [scan_row].
  - apply Forall_app. split; [exact Hrow | now constructor].
  - destruct (bool_decide (char = quote)) eqn:Hq; [now apply IH|].
    apply bool_decide_eq_false in Hq.
    destruct (bool_decide (char = comma) && negb inQuote).
    + apply IH; [constructor|]. apply Forall_app. split; [exact Hrow | now constructor].
    + apply IH; [|exact Hrow]. apply Forall_app. split; [exact Hcur | now constructor].
Qed.

Lemma scan_row_clean (line : str) (inQuote : bool) (cur : str) (row : list str) :
  Forall (fun c => c <> quote) cur ->
  Forall (Forall (fun c => c <> quote)) row ->
  map clean_cell (scan_row line inQuote cur row) = scan_row line inQuote cur row.
Proof.
  intros Hcur Hrow.
  pose proof (scan_row_no_quote line inQuote cur row Hcur Hrow) as H.
  induction H as [|c cells Hc _ IH]; [reflexivity|].
  cbn [map]. now rewrite (clean_cell_no_quote c Hc), IH.
Qed.

(** X13. The step that strips the quotes around a cell and undoubles the
    quotes inside never changes a cell: the cells come from the character
    loop, which has dropped every quote before. *)
Theorem clean_up_changes_nothing (line : str) :
  map clean_cell (scan_row line false [] []) = scan_row line false [] [].
Proof. apply scan_row_clean; constructor. Qed.

Lemma nth_error_quote_free (row : list str) (i : nat) :
  Forall (Forall (fun c => c <> quote)) row -> quote_free (nth_error row i).
Proof.
  intros H. destruct (nth_error row i) as [s|] eqn:Hs; [|exact I].
  apply nth_error_In in Hs. cbn [quote_free]. apply no_quote_In.
  rewrite List.Forall_forall in H. now apply H.
Qed.

Lemma txMap_push_Forall (P : Transaction -> Prop) (id : str) (sp : Split)
    (txMap : list (str * Transaction)) :
  (forall tx, P tx -> P (push_split sp tx)) ->
  Forall (fun e => P (snd e)) txMap ->
  Forall (fun e => P (snd e)) (txMap_push id sp txMap).
Proof.
  intros Hpush H. unfold txMap_push. induction H as [|e m He _ IH]; [constructor|].
  cbn [map]. constructor; [|exact IH].
  destruct (bool_decide (fst e = id)); [now apply Hpush | exact He].
Qed.

Lemma add_row_quote_free (line : str) (txMap : list (str * Transaction)) :
  Forall (fun e => tx_quote_free (snd e)) txMap ->
  Forall (fun e => tx_quote_free (snd e)) (add_row line txMap).
Proof.
  intros H. unfold add_row.
  rewrite (scan_row_clean line false [] []) by constructor.
  pose proof (scan_row_no_quote line false [] [] ltac:(constructor) ltac:(constructor))
    as Hrow.
  set (row := scan_row line false [] []) in *. clearbody row.
  apply txMap_push_Forall.
  - intros tx (Hid & Hdate & Hpayee & Hdesc & Hsplits).
    repeat split; try assumption. cbn [push_split tx_splits].
    apply Forall_app. split; [exact Hsplits|]. constructor; [|constructor].
    cbn [sp_accountId]. now apply nth_error_quote_free.
  - destruct (txMap_has (hd [] row) txMap); [exact H|].
    apply Forall_app. split; [exact H|]. constructor; [|constructor].
    cbn [snd]. unfold tx_quote_free.
    cbn [tx_id tx_date tx_payee tx_description tx_splits].
    split; [|repeat split; try (now apply nth_error_quote_free); constructor].
    destruct Hrow as [|c row' Hc _]; cbn [hd]; [intros []|now apply no_quote_In].
Qed.

Lemma parse_lines_invariant (P : list (str * Transaction) -> Prop) :
  (forall line txMap, P txMap -> P (add_row line txMap)) ->
  forall lines txMap txMap',
    P txMap -> parse_lines lines txMap = Some txMap' -> P txMap'.
Proof.
  intros Hstep. induction lines as [|l rest IH]; intros txMap txMap' H Hparse.
  - cbn [parse_lines] in Hparse. now injection Hparse as <-.
  - cbn [parse_lines] in Hparse. destruct (trim l) as [|c r]; [now apply (IH txMap)|].
    destruct (regex_field_count (c :: r)) as [n|]; [|discriminate].
    destruct (n <? 7)%nat; [now apply (IH txMap)|].
    apply (IH (add_row (c :: r) txMap)); [now apply Hstep | exact Hparse].
Qed.

Lemma parse_result (csvContent : str) (out : list Transaction) :
  parseTransactionsFromCSV csvContent = Some out ->
  out = [] \/
  exists lines txMap,
    parse_lines lines [] = Some txMap /\ out = sort_by_createdAt_desc (map snd txMap).
Proof.
  unfold parseTransactionsFromCSV. destruct (split_lines csvContent) as [|h lines].
  - intros [= <-]. now left.
  - destruct (parse_lines lines []) as [txMap|] eqn:Hparse; [|discriminate].
    intros [= <-]. right. now exists lines, txMap.
Qed.

(** X14. No text that the reader returns holds a quote character: not an
    id, a date, a payee, a description or an account id, whatever the
    input was. *)
Theorem parse_returns_no_quote (csvContent : str) (out : list Transaction) :
  parseTransactionsFromCSV csvContent = Some out -> Forall tx_quote_free out.
Proof.
  intros H. apply parse_result in H as [->|(lines & txMap & Hparse & ->)]; [constructor|].
  eapply Permutation_Forall; [symmetry; apply sort_by_createdAt_desc_perm|].
  apply (parse_lines_invariant (Forall (fun e => tx_quote_free (snd e)))) in Hparse;
    [|exact add_row_quote_free|constructor].
  now apply List.Forall_map.
Qed.

Lemma parse_returns_no_quote_witness :
  parseTransactionsFromCSV (serializeTransactionsToCSV [tx_quoted_word])
  = Some [{| tx_id := $"t4"; tx_date := Some $"2024-01-02"; tx_payee := Some $"Acme";
             tx_description := Some $"the big one"; tx_splits := sample_splits;
             tx_createdAt := Num 18 |}]
  /\ Forall tx_quote_free
       [{| tx_id := $"t4"; tx_date := Some $"2024-01-02"; tx_payee := Some $"Acme";
           tx_description := Some $"the big one"; tx_splits := sample_splits;
           tx_createdAt := Num 18 |}].
Proof.
  split; [vm_compute; reflexivity|].
  apply (parse_returns_no_quote (serializeTransactionsToCSV [tx_quoted_word])).
  vm_compute. reflexivity.
Defined.

Lemma txMap_push_keys (id : str) (sp : Split) (txMap : list (str * Transaction)) :
  map fst (txMap_push id sp txMap) = map fst txMap.
Proof.
  unfold txMap_push. rewrite map_map. apply map_ext.
  intros e. now destruct (bool_decide (fst e = id)).
Qed.

Lemma txMap_has_false (id : str) (txMap : list (str * Transaction)) :
  txMap_has id txMap = false -> ~ In id (map fst txMap).
Proof.
  induction txMap as [|e m IH]; [intros _ []|]. cbn [txMap_has existsb map].
  intros H [Heq|Hin]; apply orb_false_iff in H as [He Hm].
  - now rewrite bool_decide_eq_true_2 in He.
  - now apply IH.
Qed.

Lemma add_row_keys (line : str) (txMap : list (str * Transaction)) :
  List.NoDup (map fst txMap) -> List.NoDup (map fst (add_row line txMap)).
Proof.
  intros H. unfold add_row. rewrite txMap_push_keys.
  destruct (txMap_has _ txMap) eqn:Hhas; [exact H|].
  rewrite map_app. cbn [map fst]. apply List.NoDup_app.
  - exact H.
  - repeat constructor. intros [].
  - intros id Hin [<-|[]]. exact (txMap_has_false _ _ Hhas Hin).
Qed.

Lemma add_row_entries (line : str) (txMap : list (str * Transaction)) :
  Forall (fun e => tx_id (snd e) = fst e /\ tx_splits (snd e) <> []) txMap ->
  Forall (fun e => tx_id (snd e) = fst e /\ tx_splits (snd e) <> [])
    (add_row line txMap).
Proof.
  intros H. unfold add_row.
  set (id := hd [] _). set (sp := {| sp_accountId := _ |}). set (tx := {| tx_id := id |}).
  assert (Hpush : forall m,
    Forall (fun e => tx_id (snd e) = fst e /\ tx_splits (snd e) <> []) m ->
    Forall (fun e => tx_id (snd e) = fst e /\ tx_splits (snd e) <> [])
      (txMap_push id sp m)).
  { intros m Hm. unfold txMap_push. induction Hm as [|e m' [He1 He2] _ IH]; [constructor|].
    cbn [map]. constructor; [|exact IH].
    destruct (bool_decide (fst e = id)); [|now split].
    cbn [snd fst push_split tx_id tx_splits]. split; [exact He1|].
    now destruct (tx_splits (snd e)). }
  destruct (txMap_has id txMap) eqn:Hhas; [now apply Hpush|].
  rewrite (txMap_push_last _ _ _ _ Hhas). apply Forall_app. split; [exact H|].
  constructor; [|constructor]. cbn. split; [reflexivity | discriminate].
Qed.

(** X15. The transactions that the reader returns have pairwise distinct
    ids, and each has at least one split. *)
Theorem parse_returns_distinct_ids (csvContent : str) (out : list Transaction) :
  parseTransactionsFromCSV csvContent = Some out ->
  List.NoDup (map tx_id out) /\ Forall (fun tx => tx_splits tx <> []) out.
Proof.
  intros H. apply parse_result in H as [->|(lines & txMap & Hparse & ->)];
    [split; constructor|].
  assert (Hkeys : List.NoDup (map fst txMap)).
  { apply (parse_lines_invariant (fun m => List.NoDup (map fst m)) add_row_keys
             lines [] txMap); [constructor | exact Hparse]. }
  assert (Hentries : Forall (fun e => tx_id (snd e) = fst e /\ tx_splits (snd e) <> [])
                       txMap).
  { apply (parse_lines_invariant _ add_row_entries lines [] txMap);
      [constructor | exact Hparse]. }
  pose proof (sort_by_createdAt_desc_perm (map snd txMap)) as Hperm.
  split.
  - apply (Permutation_NoDup (l := map tx_id (map snd txMap)));
      [symmetry; now apply Permutation_map|].
    replace (map tx_id (map snd txMap)) with (map fst txMap); [exact Hkeys|].
    rewrite map_map. clear -Hentries.
    induction Hentries as [|e m [He _] _ IH]; [reflexivity|].
    cbn [map]. now rewrite He, IH.
  - eapply Permutation_Forall; [symmetry; exact Hperm|].
    apply List.Forall_map. eapply Forall_impl; [exact Hentries|]. now intros e [_ He].
Qed.

Lemma parse_returns_distinct_ids_witness :
  parseTransactionsFromCSV (serializeTransactionsToCSV [tx_plain; tx_plain])
  = Some [with_splits tx_plain (sample_splits ++ sample_splits)]
  /\ List.NoDup (map tx_id [with_splits tx_plain (sample_splits ++ sample_splits)])
  /\ Forall (fun tx => tx_splits tx <> [])
       [with_splits tx_plain (sample_splits ++ sample_splits)].
Proof.
  split; [vm_compute; reflexivity|].
  apply (parse_returns_distinct_ids (serializeTransactionsToCSV [tx_plain; tx_plain])).
  vm_compute. reflexivity.
Defined.

(** ** The reader: the inputs on which it does not return *)

Lemma quoted_rest_None (s : str) : quoted_rest s = None <-> ~ In quote s.
Proof.
  induction s as [|c r IH]; cbn [quoted_rest].
  - split; [intros _ [] | reflexivity].
  - destruct (bool_decide (c = quote)) eqn:Hc.
    + apply bool_decide_eq_true in Hc. subst c. split.
      * destruct r as [|c' r']; [discriminate|].
        destruct (bool_decide (c' = quote)); [|discriminate].
        destruct (quoted_rest r'); discriminate.
      * intros H. exfalso. apply H. now left.
    + apply bool_decide_eq_false in Hc. rewrite IH. split.
      * intros H [Heq|Hin]; [now apply Hc | now apply H].
      * intros H Hin. apply H. now right.
Qed.

Lemma regex_field_count_None (line : str) :
  regex_field_count line = None <-> endless_row line.
Proof.
  destruct line as [|c r]; cbn [regex_field_count endless_row]; [easy|].
  destruct (bool_decide (c = quote)) eqn:Hq.
  - apply bool_decide_eq_true in Hq. subst c.
    destruct (quoted_rest r) as [rest|] eqn:Hr.
    + split; [discriminate|]. intros [H|[_ H]]; [discriminate H|].
      apply quoted_rest_None in H. congruence.
    + split; [|reflexivity]. intros _. right. split; [reflexivity|].
      now apply quoted_rest_None.
  - apply bool_decide_eq_false in Hq. destruct (bool_decide (c = comma)) eqn:Hc.
    + apply bool_decide_eq_true in Hc. split; [now left | reflexivity].
    + apply bool_decide_eq_false in Hc. split; [discriminate|].
      intros [H|[H _]]; contradiction.
Qed.

Lemma parse_lines_None (lines : list str) :
  forall txMap,
    parse_lines lines txMap = None <-> Exists (fun l => endless_row (trim l)) lines.
Proof.
  induction lines as [|l rest IH]; intros txMap; cbn [parse_lines].
  - split; [discriminate | intros H; inversion H].
  - rewrite List.Exists_cons. destruct (trim l) as [|c r] eqn:Hl.
    + rewrite IH. cbn [endless_row]. tauto.
    + destruct (regex_field_count (c :: r)) as [n|] eqn:Hn.
      * assert (Hrow : ~ endless_row (c :: r))
          by (rewrite <- regex_field_count_None; congruence).
        destruct (n <? 7)%nat; rewrite IH; tauto.
      * apply regex_field_count_None in Hn. tauto.
Qed.

(** X16. The reader fails to return on exactly the inputs that have,
    after the header line, a line which (trimmed) starts with a comma or
    starts with a quote and holds no second quote: there the loop over
    the matches of the field pattern finds the same empty match for ever.
    On every other input it returns. *)
Theorem parse_never_returns_iff (csvContent : str) :
  parseTransactionsFromCSV csvContent = None
  <-> Exists (fun l => endless_row (trim l)) (tl (split_lines csvContent)).
Proof.
  unfold parseTransactionsFromCSV. destruct (split_lines csvContent) as [|h lines].
  - cbn [tl]. split; [discriminate | intros H; inversion H].
  - cbn [tl]. rewrite <- (parse_lines_None lines []).
    destruct (parse_lines lines []); split; congruence.
Qed.

Lemma trim_keeps_head (c : ascii) (r : str) :
  is_ws c = false -> exists r', trim (c :: r) = c :: r'.
Proof.
  intros Hc. unfold trim. cbn [trimStart]. rewrite Hc. cbn [rev].
  assert (H : forall l, exists l', trimStart (l ++ [c]) = l' ++ [c]).
  { induction l as [|x l IH]; cbn [app trimStart].
    - rewrite Hc. now exists [].
    - destruct (is_ws x); [exact IH | now exists (x :: l)]. }
  destruct (H (rev r)) as [l' ->]. rewrite rev_unit. now exists (rev l').
Qed.

Lemma split_lines_head (c : ascii) (r : str) :
  c <> LF -> c <> CR -> exists l ls, split_lines (c :: r) = (c :: l) :: ls.
Proof.
  intros HLF HCR. cbn [split_lines]. rewrite bool_decide_eq_false_2 by exact HLF.
  destruct r as [|c' r']; [now exists [], []|].
  rewrite (bool_decide_eq_false_2 (c = CR)) by exact HCR. cbn [andb].
  destruct (split_lines (c' :: r')) as [|l ls]; [now exists [], [] | now exists l, ls].
Qed.

(** X17. A transaction with the empty id and at least one split, written
    first, gives a file that the reader never finishes: its first row
    starts with a comma. *)
Theorem empty_id_is_never_read_back (tx : Transaction) (txs : list Transaction) :
  tx_id tx = [] -> tx_splits tx <> [] ->
  parseTransactionsFromCSV (serializeTransactionsToCSV (tx :: txs)) = None.
Proof.
  intros Hid Hsplits. unfold parseTransactionsFromCSV, serializeTransactionsToCSV.
  destruct csv_header_line as (h & -> & HhLF & HhCR).
  rewrite <- app_assoc. cbn [app]. rewrite split_lines_app by assumption.
  cbn [flat_map]. destruct (tx_splits tx) as [|sp sps]; [congruence|]. cbn [map app].
  assert (Hrow : exists rest, join [LF] (csv_row tx sp :: map (csv_row tx) sps
                   ++ flat_map (fun tx => map (csv_row tx) (tx_splits tx)) txs)
                 = comma :: rest).
  { unfold csv_row at 1. rewrite Hid. cbn [app].
    destruct (map (csv_row tx) sps ++ _); cbn [join app]; eauto. }
  destruct Hrow as [rest ->].
  destruct (split_lines_head comma rest) as (l & ls & ->); [discriminate..|].
  rewrite (proj2 (parse_lines_None ((comma :: l) :: ls) [])); [reflexivity|].
  constructor. destruct (trim_keeps_head comma l) as [r' ->]; [reflexivity|]. now left.
Qed.

Lemma empty_id_is_never_read_back_witness :
  parseTransactionsFromCSV
    (serializeTransactionsToCSV
       [{| tx_id := []; tx_date := Some $"2024-01-02"; tx_payee := Some $"Acme";
           tx_description := Some $"tea"; tx_splits := sample_splits;
           tx_createdAt := Num 18 |}; tx_plain]) = None.
Proof.
  apply empty_id_is_never_read_back; [reflexivity | discriminate].
Defined.

(** ** The reader: line ends *)

Lemma trim_CR (l : str) : trim (l ++ [CR]) = trim l.
Proof.
  unfold trim.
  assert (H : trimStart (l ++ [CR]) = [] /\ trimStart l = []
              \/ trimStart (l ++ [CR]) = trimStart l ++ [CR]).
  { induction l as [|c r IH]; cbn [app trimStart].
    - left. now split.
    - destruct (is_ws c); [exact IH | now right]. }
  destruct H as [[-> ->]| ->]; [reflexivity|].
  rewrite rev_unit. cbn [trimStart]. reflexivity.
Qed.

Lemma parse_lines_trim (ls ls' : list str) :
  Forall2 (fun l l' => trim l = trim l') ls ls' ->
  forall txMap, parse_lines ls txMap = parse_lines ls' txMap.
Proof.
  induction 1 as [|l l' ls ls' Hl _ IH]; intros txMap; [reflexivity|].
  cbn [parse_lines]. rewrite Hl. destruct (trim l') as [|c r]; [apply IH|].
  destruct (regex_field_count (c :: r)) as [n|]; [|reflexivity].
  destruct (n <? 7)%nat; apply IH.
Qed.

Lemma split_lines_cons2 (c c' : ascii) (r : str) :
  c <> LF -> c' <> LF ->
  split_lines (c :: c' :: r)
  = match split_lines (c' :: r) with
    | l :: ls => (c :: l) :: ls
    | [] => [[c]]
    end.
Proof.
  intros Hc Hc'. change (split_lines (c :: c' :: r))
    with (if bool_decide (c = LF) then [] :: split_lines (c' :: r)
          else if bool_decide (c = CR) && bool_decide (c' = LF)
               then [] :: split_lines r
               else match split_lines (c' :: r) with
                    | l :: ls => (c :: l) :: ls
                    | [] => [[c]]
                    end).
  rewrite (bool_decide_eq_false_2 (c = LF)) by exact Hc.
  rewrite (bool_decide_eq_false_2 (c' = LF)) by exact Hc'.
  now rewrite andb_false_r.
Qed.

Lemma split_lines_crlf (s : str) :
  Forall2 (fun l l' => l = l' \/ l = l' ++ [CR]) (split_lines (crlf s)) (split_lines s).
Proof.
  induction s as [|c r IH]; [repeat constructor|].
  unfold crlf in *. cbn [flat_map]. destruct (bool_decide (c = LF)) eqn:Hc.
  - apply bool_decide_eq_true in Hc. subst c. cbn [app split_lines].
    rewrite (bool_decide_eq_false_2 (CR = LF)) by discriminate.
    rewrite !bool_decide_eq_true_2 by reflexivity. cbn [andb].
    constructor; [now left | exact IH].
  - cbn [app]. apply bool_decide_eq_false in Hc.
    destruct r as [|c' r'].
    + cbn [flat_map split_lines]. rewrite bool_decide_eq_false_2 by exact Hc.
      repeat constructor.
    + cbn [flat_map] in *. destruct (bool_decide (c' = LF)) eqn:Hc'.
      * apply bool_decide_eq_true in Hc'. subst c'. cbn [app] in *.
        cbn [split_lines] in *.
        rewrite (bool_decide_eq_false_2 (CR = LF)) in * by discriminate.
        rewrite !(bool_decide_eq_true_2 (LF = LF)) in * by reflexivity.
        rewrite !(bool_decide_eq_true_2 (CR = CR)) in * by reflexivity.
        rewrite (bool_decide_eq_false_2 (c = LF)) by exact Hc.
        cbn [andb] in *. rewrite andb_false_r, andb_true_r.
        apply Forall2_cons_1 in IH as [_ IH].
        destruct (bool_decide (c = CR)) eqn:Hcr.
        -- apply bool_decide_eq_true in Hcr. subst c. constructor; [now right | exact IH].
        -- constructor; [now left | exact IH].
      * apply bool_decide_eq_false in Hc'. cbn [app] in *.
        rewrite !(split_lines_cons2 c c') by assumption.
        destruct IH as [|l l' ls ls' Hl Hls]; [repeat constructor|].
        constructor; [|exact Hls]. destruct Hl as [->| ->]; [now left | now right].
Qed.

(** X18. Line ends: the reader gives for a text whose lines end in CR LF
    what it gives for the same text with lines ending in LF. *)
Theorem parse_ignores_CR (csvContent : str) :
  parseTransactionsFromCSV (crlf csvContent) = parseTransactionsFromCSV csvContent.
Proof.
  unfold parseTransactionsFromCSV. pose proof (split_lines_crlf csvContent) as H.
  destruct H as [|h h' ls ls' _ Hls]; [reflexivity|].
  rewrite (parse_lines_trim ls ls'); [reflexivity|].
  eapply Forall2_impl; [exact Hls|]. intros l l' [->| ->]; [reflexivity | apply trim_CR].
Qed.

(** X19. Undoubling the quotes of a text whose quotes were doubled gives
    the text back. *)
Theorem unescape_escape_quotes (s : str) : unescape_quotes (escape_quotes s) = s.
Proof.
  induction s as [|c r IH]; [reflexivity|].
  unfold escape_quotes in *. cbn [flat_map].
  destruct (bool_decide (c = quote)) eqn:Hc.
  - apply bool_decide_eq_true in Hc. subst c. cbn [app unescape_quotes].
    rewrite !bool_decide_eq_true_2 by reflexivity. cbn [andb]. now rewrite IH.
  - cbn [app]. rewrite <- IH at 2. cbn [unescape_quotes].
    destruct (flat_map _ r) as [|c' r'']; [reflexivity|].
    rewrite Hc. reflexivity.
Qed.

(** ** The reader: the order of the result *)





Lemma sort_insert_last (x : Transaction) (l : list Transaction) :
  Forall (fun y => goes_before x y = false) l -> sort_insert x l = l ++ [x].
Proof.
  induction 1 as [|y l Hy _ IH]; [reflexivity|].
  cbn [sort_insert app]. now rewrite Hy, IH.
Qed.

Lemma in_order_middle (l1 l2 : list Transaction) (x : Transaction) :
  in_order (l1 ++ x :: l2) -> Forall (fun y => goes_before x y = false) l1.
Proof.
  unfold in_order. induction l1 as [|y l1 IH]; [constructor|].
  cbn [app]. intros H. apply StronglySorted_inv in H as [Hrest Hy].
  constructor; [|now apply IH].
  apply Forall_app in Hy as [_ Hy]. now apply Forall_inv in Hy.
Qed.

(** Sorting leaves a list in order as it is. *)
Lemma sort_by_createdAt_desc_fixed (l : list Transaction) :
  in_order l -> sort_by_createdAt_desc l = l.
Proof.
  unfold sort_by_createdAt_desc.
  enough (H : forall sorted, in_order (sorted ++ l) ->
                fold_left (fun s x => sort_insert x s) l sorted = sorted ++ l)
    by apply (H []).
  induction l as [|x l IH]; intros sorted Hs; cbn [fold_left].
  - now rewrite app_nil_r.
  - rewrite (sort_insert_last x sorted) by exact (in_order_middle _ _ _ Hs).
    rewrite IH; rewrite <- app_assoc; [reflexivity | exact Hs].
Qed.



(** X21. Transactions within the reach of the codec, with pairwise
    distinct ids, with safe integers as [createdAt] and safe integers or
    [NaN] as amounts, and already in order, come back from writing and
    reading exactly as they were: the same list. *)
Theorem codec_round_trip_in_order (txs : list Transaction) :
  Forall (fun tx => codec_safe tx = true) txs ->
  Forall (fun tx => codec_numbers tx = true) txs ->
  Forall (fun tx => tx_createdAt tx <> NaN) txs ->
  List.NoDup (map tx_id txs) ->
  in_order txs ->
  parseTransactionsFromCSV (serializeTransactionsToCSV txs) = Some txs.
Proof.
  intros Hsafe _ _ Hnodup Horder.
  rewrite (parse_serialize_safe txs Hsafe Hnodup).
  now rewrite (sort_by_createdAt_desc_fixed txs Horder).
Qed.

Lemma codec_round_trip_in_order_witness :
  Forall (fun tx => codec_safe tx = true) [tx_plain; tx_comma]
  /\ Forall (fun tx => codec_numbers tx = true) [tx_plain; tx_comma]
  /\ Forall (fun tx => tx_createdAt tx <> NaN) [tx_plain; tx_comma]
  /\ List.NoDup (map tx_id [tx_plain; tx_comma])
  /\ in_order [tx_plain; tx_comma]
  /\ parseTransactionsFromCSV (serializeTransactionsToCSV [tx_plain; tx_comma])
     = Some [tx_plain; tx_comma].
Proof.
  assert (Hsafe : Forall (fun tx => codec_safe tx = true) [tx_plain; tx_comma])
    by (repeat constructor).
  assert (Hnum : Forall (fun tx => codec_numbers tx = true) [tx_plain; tx_comma])
    by (repeat constructor).
  assert (Hnan : Forall (fun tx => tx_createdAt tx <> NaN) [tx_plain; tx_comma])
    by (repeat constructor; discriminate).
  assert (Hnodup : List.NoDup (map tx_id [tx_plain; tx_comma])).
  { repeat constructor; cbn; intuition discriminate. }
  assert (Horder : in_order [tx_plain; tx_comma]) by (repeat constructor).
  split; [exact Hsafe|]. split; [exact Hnum|]. split; [exact Hnan|].
  split; [exact Hnodup|]. split; [exact Horder|].
  exact (codec_round_trip_in_order [tx_plain; tx_comma] Hsafe Hnum Hnan Hnodup Horder).
Defined.

(** ** Filters by date *)

Lemma parseDate_day (s : str) (t : Z) :
  parseDate s = Some t -> exists k, t = k * msPerDay.
Proof.
  unfold parseDate.
  destruct s as [|y1 [|y2 [|y3 [|y4 [|dash1 [|m1 [|m2 [|dash2 [|d1 [|d2 [|? ?]]]]]]]]]]];
    try discriminate.
  destruct (digit_of y1), (digit_of y2), (digit_of y3), (digit_of y4),
    (digit_of m1), (digit_of m2), (digit_of d1), (digit_of d2); try discriminate.
  match goal with |- (if ?b then _ else _) = _ -> _ => destruct b end; [|discriminate].
  intros [= <-]. eauto.
Qed.

(** The local day of a UTC midnight, for a host less than a day away
    from UTC. *)
Lemma local_day (tz k : Z) :
  - msPerDay < tz < msPerDay ->
  (k * msPerDay + tz) / msPerDay = if tz <? 0 then k - 1 else k.
Proof.
  intros Htz. rewrite Z.div_add_l by discriminate.
  destruct (Z.ltb_spec tz 0).
  - rewrite <- (Z.div_unique tz msPerDay (-1) (tz + msPerDay));
      unfold msPerDay in *; lia.
  - rewrite Z.div_small by lia. lia.
Qed.

Lemma setHours_start (tz j k : Z) :
  - msPerDay < tz < msPerDay ->
  (setHours tz (j * msPerDay) 0 0 0 0 <=? k * msPerDay) = (j * msPerDay <=? k * msPerDay).
Proof.
  intros Htz. unfold setHours. cbv zeta. rewrite (local_day tz j Htz).
  destruct (Z.ltb_spec tz 0); unfold msPerDay in *;
    destruct (Z.leb_spec (j * 86400000) (k * 86400000)); lia.
Qed.

Lemma setHours_end (tz i k : Z) :
  - msPerDay < tz < msPerDay ->
  (k * msPerDay <=? setHours tz (i * msPerDay) 23 59 59 999)
  = (k * msPerDay <=? i * msPerDay).
Proof.
  intros Htz. unfold setHours. cbv zeta. rewrite (local_day tz i Htz).
  destruct (Z.ltb_spec tz 0); unfold msPerDay in *;
    destruct (Z.leb_spec (k * 86400000) (i * 86400000)); lia.
Qed.

(** X22. With both bounds dates of the data model, transactions whose
    dates are missing or dates of the data model, and a host at a fixed
    offset of less than a day from UTC, the filter keeps the transactions
    dated from the start date to the end date, both days included, that
    pass the payee test: the offset of the host does not move the
    range. *)
Theorem filterTransactions_range_inclusive (tz : Z) (transactions : list Transaction)
    (startDateStr endDateStr : str) (payeeFilter : option str) (s e : Z) :
  - msPerDay < tz < msPerDay ->
  plain_dates transactions ->
  parseDate startDateStr = Some s -> parseDate endDateStr = Some e ->
  filterTransactions tz transactions startDateStr endDateStr payeeFilter
  = List.filter (fun tx => dated_between s e tx
                           && payeeMatch (filter_term payeeFilter) tx) transactions.
Proof.
  intros Htz _ Hs He. unfold filterTransactions. rewrite Hs, He. cbn [option_map].
  apply List.filter_ext. intros tx. f_equal. unfold dated_between.
  destruct (newDate (tx_date tx)) as [t|] eqn:Ht; [|reflexivity].
  cbn [date_leb].
  assert (Hk : exists k, t = k * msPerDay).
  { destruct (tx_date tx) as [d|]; [|discriminate]. exact (parseDate_day d t Ht). }
  destruct Hk as [k ->].
  apply parseDate_day in Hs as [j ->]. apply parseDate_day in He as [i ->].
  now rewrite setHours_start, setHours_end.
Qed.

Lemma filterTransactions_range_inclusive_witness :
  - msPerDay < -18000000 < msPerDay
  /\ plain_dates [tx_comma; tx_two_lines; tx_plain; tx_quoted_word]
  /\ parseDate $"2024-01-01" = Some 1704067200000
  /\ parseDate $"2024-01-03" = Some 1704240000000
  /\ filterTransactions (-18000000) [tx_comma; tx_two_lines; tx_plain; tx_quoted_word]
       $"2024-01-01" $"2024-01-03" (Some $"ACME")
     = List.filter (fun tx => dated_between 1704067200000 1704240000000 tx
                              && payeeMatch (filter_term (Some $"ACME")) tx)
         [tx_comma; tx_two_lines; tx_plain; tx_quoted_word].
Proof.
  assert (Hdates : plain_dates [tx_comma; tx_two_lines; tx_plain; tx_quoted_word])
    by (repeat constructor; vm_compute; eauto).
  split; [unfold msPerDay; lia|]. split; [exact Hdates|].
  split; [vm_compute; reflexivity|]. split; [vm_compute; reflexivity|].
  apply filterTransactions_range_inclusive;
    [unfold msPerDay; lia | exact Hdates | vm_compute; reflexivity..].
Defined.

(** The first and the last day of the range are kept five hours west of
    UTC, and the payee is found whatever its case. *)
Example filterTransactions_sample :
  filterTransactions (-18000000) [tx_comma; tx_two_lines; tx_plain; tx_quoted_word]
    $"2024-01-01" $"2024-01-02" (Some $"ACME")
  = [tx_comma; tx_two_lines; tx_quoted_word].
Proof. vm_compute. reflexivity. Qed.

Lemma setDate_setHours (tz t : Z) :
  setDate tz (setHours tz t 0 0 0 0) 1 = month_start tz t - tz.
Proof.
  unfold setDate, setHours, month_start.
  set (q := (t + tz) / msPerDay).
  replace (q * msPerDay + (0 * 3600000 + 0 * 60000 + 0 * 1000 + 0) - tz + tz)
    with (q * msPerDay) by lia.
  rewrite Z.div_mul, Z.mod_mul by discriminate.
  destruct (civil_from_days q) as [[y m] d]. lia.
Qed.

Lemma month_to_date_start (env : Env) (transactions : list Transaction) :
  filterTransactionsByDateRange env transactions MTD
  = List.filter (fun tx =>
        date_leb (Some (month_start (tzOffset env) (clock env 1) - tzOffset env))
          (newDate (tx_date tx))
        && date_leb (newDate (tx_date tx))
             (Some (setHours (tzOffset env) (clock env 0) 23 59 59 999)))
      transactions.
Proof.
  rewrite <- setDate_setHours. reflexivity.
Qed.

(** X24. Month to date, on a host west of UTC: a transaction dated on
    the first day of the current month is left out.  The range starts at
    local midnight of that day, which is later than the UTC midnight the
    date of the transaction is read as. *)
Theorem month_to_date_drops_first_day (env : Env) (transactions : list Transaction)
    (tx : Transaction) :
  tzOffset env < 0 ->
  newDate (tx_date tx) = Some (month_start (tzOffset env) (clock env 1)) ->
  ~ In tx (filterTransactionsByDateRange env transactions MTD).
Proof.
  intros Htz Hdate Hin. rewrite month_to_date_start in Hin.
  apply filter_In in Hin as [_ Hin]. rewrite Hdate in Hin. clear Hdate.
  revert Hin. generalize (month_start (tzOffset env) (clock env 1)).
  generalize (setHours (tzOffset env) (clock env 0) 23 59 59 999).
  intros now first Hin. apply andb_true_iff in Hin as [Hin _].
  cbn [date_leb] in Hin. apply Z.leb_le in Hin. lia.
Qed.

Lemma month_to_date_drops_first_day_witness :
  tzOffset (env_west jan10) < 0
  /\ newDate (tx_date tx_comma)
     = Some (month_start (tzOffset (env_west jan10)) (clock (env_west jan10) 1))
  /\ ~ In tx_comma (filterTransactionsByDateRange (env_west jan10) [tx_comma; tx_plain] MTD).
Proof.
  split; [reflexivity|]. split; [vm_compute; reflexivity|].
  apply month_to_date_drops_first_day; [reflexivity | vm_compute; reflexivity].
Defined.

(** On a host on UTC the same transaction is kept. *)
Example month_to_date_on_UTC :
  filterTransactionsByDateRange (env_at jan10) [tx_comma; tx_plain] MTD
  = [tx_comma; tx_plain]
  /\ filterTransactionsByDateRange (env_west jan10) [tx_comma; tx_plain] MTD = [tx_plain].
Proof. split; vm_compute; reflexivity. Qed.

(** ** The reader: the first line *)

Lemma split_lines_first (h rest : str) :
  Forall (fun c => c <> LF) h ->
  exists h', split_lines (h ++ LF :: rest) = h' :: split_lines rest.
Proof.
  induction 1 as [|c r Hc Hr IH].
  - exists []. cbn [app split_lines]. now rewrite bool_decide_eq_true_2.
  - destruct Hr as [|c' r' Hc' Hr'].
    + cbn [app split_lines]. rewrite bool_decide_eq_false_2 by exact Hc.
      rewrite !(bool_decide_eq_true_2 (LF = LF)) by reflexivity. rewrite andb_true_r.
      destruct (bool_decide (c = CR)); eauto.
    + cbn [app] in *. rewrite (split_lines_cons2 c c') by assumption.
      destruct IH as [h' ->]. eauto.
Qed.

(** X25. The first line is never read: two texts that differ in their
    first line alone give the same transactions, so a row of data put
    where the header belongs is lost. *)
Theorem parse_ignores_first_line (h1 h2 body : str) :
  Forall (fun c => c <> LF) h1 -> Forall (fun c => c <> LF) h2 ->
  parseTransactionsFromCSV (h1 ++ LF :: body) = parseTransactionsFromCSV (h2 ++ LF :: body).
Proof.
  intros H1 H2. unfold parseTransactionsFromCSV.
  destruct (split_lines_first h1 body H1) as [h1' ->].
  destruct (split_lines_first h2 body H2) as [h2' ->]. reflexivity.
Qed.

Lemma parse_ignores_first_line_witness :
  Forall (fun c => c <> LF) $"t1,2024-01-05,17,Landlord,Rent,bank,-900"
  /\ Forall (fun c => c <> LF) []
  /\ parseTransactionsFromCSV
       ($"t1,2024-01-05,17,Landlord,Rent,bank,-900" ++ LF :: $"t2,2024-01-06,18,a,b,bank,1")
     = parseTransactionsFromCSV ([] ++ LF :: $"t2,2024-01-06,18,a,b,bank,1").
Proof.
  assert (H1 : Forall (fun c => c <> LF) $"t1,2024-01-05,17,Landlord,Rent,bank,-900")
    by (repeat constructor; discriminate).
  split; [exact H1|]. split; [constructor|].
  apply parse_ignores_first_line; [exact H1 | constructor].
Defined.

(** ** The calendar *)

(** Day numbers and civil dates: the date of a day is a date of the
    calendar, and its day number is that day. *)
Lemma civil_from_days_spec (z : Z) :
  match civil_from_days z with
  | (y, m, d) => days_from_civil y m d = z /\ 1 <= m <= 12 /\ 1 <= d <= 31
  end.
Proof.
  unfold civil_from_days, days_from_civil. cbv zeta.
  set (z' := z + 719468).
  set (era := z' / 146097).
  set (doe := z' - era * 146097).
  assert (Hdoe : 0 <= doe <= 146096)
    by (subst doe era; Z.to_euclidean_division_equations; lia).
  set (yoe := (doe - doe / 1460 + doe / 36524 - doe / 146096) / 365).
  set (doy := doe - (365 * yoe + yoe / 4 - yoe / 100)).
  assert (Hyoe : 0 <= yoe <= 399 /\ 0 <= doy <= 365)
    by (subst doy yoe; Z.to_euclidean_division_equations; lia).
  destruct Hyoe as [Hyoe Hdoy].
  set (mp := (5 * doy + 2) / 153).
  assert (Hmp : 0 <= mp <= 11) by (subst mp; Z.to_euclidean_division_equations; lia).
  set (d := doy - (153 * mp + 2) / 5 + 1).
  assert (Hd : 1 <= d <= 31) by (subst d mp; Z.to_euclidean_division_equations; lia).
  assert (Hera : (yoe + era * 400) / 400 = era)
    by (rewrite Z.div_add by discriminate; rewrite Z.div_small by lia; lia).
  destruct (Z.ltb_spec mp 10) as [Hlt|Hge].
  - replace (mp + 3 <=? 2) with false by (symmetry; apply Z.leb_gt; lia).
    replace (mp + 3 >? 2) with true by (rewrite Z.gtb_ltb; symmetry; apply Z.ltb_lt; lia).
    replace (mp + 3 - 3) with mp by lia. rewrite Hera.
    replace (yoe + era * 400 - era * 400) with yoe by lia.
    split; [|lia]. subst d doy doe z'.
    generalize (yoe / 4) (yoe / 100) ((153 * mp + 2) / 5). clearbody yoe mp era.
    intros; lia.
  - replace (mp - 9 <=? 2) with true by (symmetry; apply Z.leb_le; lia).
    replace (mp - 9 >? 2) with false by (rewrite Z.gtb_ltb; symmetry; apply Z.ltb_ge; lia).
    replace (mp - 9 + 9) with mp by lia.
    replace (yoe + era * 400 + 1 - 1) with (yoe + era * 400) by lia. rewrite Hera.
    replace (yoe + era * 400 - era * 400) with yoe by lia.
    split; [|lia]. subst d doy doe z'.
    generalize (yoe / 4) (yoe / 100) ((153 * mp + 2) / 5). clearbody yoe mp era.
    intros; lia.
Qed.

Lemma days_from_civil_day (y m d : Z) :
  days_from_civil y m d = days_from_civil y m 1 + d - 1.
Proof. unfold days_from_civil. cbv zeta. lia. Qed.

Lemma MakeDay_civil (y m d date : Z) :
  1 <= m <= 12 -> MakeDay y (m - 1) date = days_from_civil y m d + date - d.
Proof.
  intros Hm. unfold MakeDay.
  replace ((m - 1) / 12) with 0 by (Z.to_euclidean_division_equations; lia).
  replace ((m - 1) mod 12 + 1) with m by (Z.to_euclidean_division_equations; lia).
  rewrite Z.add_0_r, (days_from_civil_day y m d). lia.
Qed.

(** [setDate(getDate() + days)] moves a time by [days] days, at every
    fixed offset. *)
Lemma addDays_days (tz date days : Z) : addDays tz date days = date + days * msPerDay.
Proof.
  unfold addDays. cbv zeta.
  pose proof (civil_from_days_spec ((date + tz) / msPerDay)) as H.
  destruct (civil_from_days ((date + tz) / msPerDay)) as [[y m] d].
  destruct H as (Hq & Hm & _). rewrite (MakeDay_civil y m d) by exact Hm. rewrite Hq.
  pose proof (Z.div_mod (date + tz) msPerDay ltac:(discriminate)) as Hdm.
  revert Hdm. generalize ((date + tz) / msPerDay) ((date + tz) mod msPerDay).
  intros q r Hdm. unfold msPerDay in *. lia.
Qed.

(** ** The next due date *)

(** X26. For a daily or a weekly rule, on a host at a fixed offset from
    UTC, the next due date is the day one day, or seven days, after the
    due date, whatever that offset is.  (A host whose offset changes with
    daylight saving is outside the model.) *)
Theorem calculateNextDueDate_daily_weekly (tz : Z) (currentDate : str) (t : Z) :
  parseDate currentDate = Some t ->
  calculateNextDueDate tz currentDate daily = Some (isoDate (t + msPerDay))
  /\ calculateNextDueDate tz currentDate weekly = Some (isoDate (t + 7 * msPerDay)).
Proof.
  intros Ht. unfold calculateNextDueDate. rewrite Ht, !addDays_days.
  split; do 2 f_equal; lia.
Qed.

Lemma calculateNextDueDate_daily_weekly_witness :
  parseDate $"2024-02-28" = Some 1709078400000
  /\ calculateNextDueDate (-18000000) $"2024-02-28" daily
     = Some (isoDate (1709078400000 + msPerDay))
  /\ calculateNextDueDate (-18000000) $"2024-02-28" weekly
     = Some (isoDate (1709078400000 + 7 * msPerDay)).
Proof.
  split; [vm_compute; reflexivity|].
  apply calculateNextDueDate_daily_weekly. vm_compute. reflexivity.
Defined.

Lemma local_time (tz k : Z) :
  - msPerDay < tz < msPerDay ->
  (k * msPerDay + tz) / msPerDay = k - west_shift tz
  /\ (k * msPerDay + tz) mod msPerDay = tz + west_shift tz * msPerDay.
Proof.
  intros Htz. pose proof (local_day tz k Htz) as Hq.
  pose proof (Z.div_mod (k * msPerDay + tz) msPerDay ltac:(discriminate)) as Hdm.
  revert Hq Hdm. unfold west_shift.
  generalize ((k * msPerDay + tz) / msPerDay) ((k * msPerDay + tz) mod msPerDay).
  intros q r Hq Hdm. subst q. destruct (tz <? 0); unfold msPerDay in *; lia.
Qed.

(** X27. On a host less than a day away from UTC the next due date is
    counted on the local day of the due date, which west of UTC is the
    day before: one period is added to that day, and the day is given
    back.  For a monthly or yearly rule the result then depends on the
    time zone. *)
Theorem calculateNextDueDate_by_days (tz : Z) (currentDate : str) (t : Z)
    (frequency : Frequency) :
  - msPerDay < tz < msPerDay ->
  parseDate currentDate = Some t ->
  calculateNextDueDate tz currentDate frequency
  = Some (isoDate ((plus_period frequency (t / msPerDay - west_shift tz)
                    + west_shift tz) * msPerDay)).
Proof.
  intros Htz Ht. unfold calculateNextDueDate. rewrite Ht. do 2 f_equal.
  apply parseDate_day in Ht as [k ->]. rewrite Z.div_mul by discriminate.
  destruct (local_time tz k Htz) as [Hq Hr].
  unfold plus_period.
  destruct frequency; [rewrite addDays_days | rewrite addDays_days
                       | unfold addMonths | unfold addYears]; cbv zeta;
    try rewrite Hq, Hr;
    destruct (civil_from_days (k - west_shift tz)) as [[y m] d];
    try replace (m - 1 + 1) with m by lia;
    unfold msPerDay; lia.
Qed.

Lemma calculateNextDueDate_by_days_witness :
  - msPerDay < -18000000 < msPerDay
  /\ parseDate $"2024-03-01" = Some 1709251200000
  /\ calculateNextDueDate (-18000000) $"2024-03-01" monthly
     = Some (isoDate ((plus_period monthly (1709251200000 / msPerDay - west_shift (-18000000))
                       + west_shift (-18000000)) * msPerDay)).
Proof.
  split; [unfold msPerDay; lia|]. split; [vm_compute; reflexivity|].
  apply calculateNextDueDate_by_days; [unfold msPerDay; lia | vm_compute; reflexivity].
Defined.

(** Five hours west of UTC a monthly rule due on the first of March is
    next due on the thirtieth of March; on UTC, on the first of April. *)
Example calculateNextDueDate_monthly_drift :
  calculateNextDueDate (-18000000) $"2024-03-01" monthly = Some $"2024-03-30"
  /\ calculateNextDueDate 0 $"2024-03-01" monthly = Some $"2024-04-01".
Proof. split; vm_compute; reflexivity. Qed.

(** ** Dates written and read *)

Lemma digit_of_char_of_digit (z : Z) : digit_of (char_of_digit z) = Some (z mod 10).
Proof.
  unfold digit_of, char_of_digit.
  pose proof (Z.mod_pos_bound z 10 ltac:(lia)) as Hz.
  rewrite nat_ascii_embedding by lia.
  rewrite Z2Nat.id by lia.
  replace (48 <=? 48 + z mod 10) with true by (symmetry; apply Z.leb_le; lia).
  replace (48 + z mod 10 <=? 57) with true by (symmetry; apply Z.leb_le; lia).
  cbn [andb]. f_equal. lia.
Qed.

Lemma parseDate_digits (a b c d e f g h : Z) :
  parseDate [char_of_digit a; char_of_digit b; char_of_digit c; char_of_digit d;
             "-"%char; char_of_digit e; char_of_digit f; "-"%char;
             char_of_digit g; char_of_digit h]
  = let year := 1000 * (a mod 10) + 100 * (b mod 10) + 10 * (c mod 10) + d mod 10 in
    let month := 10 * (e mod 10) + f mod 10 in
    let day := 10 * (g mod 10) + h mod 10 in
    if (1 <=? month) && (month <=? 12) && (1 <=? day) && (day <=? 31)
    then Some (MakeDay year (month - 1) day * msPerDay)
    else None.
Proof.
  unfold parseDate. rewrite !digit_of_char_of_digit.
  rewrite !bool_decide_eq_true_2 by reflexivity. reflexivity.
Qed.

(** X28. A date written by [toISOString] and cut at the [T] is read back
    by [new Date] as the midnight of the same day, for the years 0 to
    9999: what the engine writes into [nextDueDate] is a date again. *)
Theorem parseDate_isoDate (t : Z) :
  0 <= year_of t <= 9999 ->
  parseDate (isoDate t) = Some (t / msPerDay * msPerDay).
Proof.
  unfold year_of, isoDate. pose proof (civil_from_days_spec (t / msPerDay)) as H.
  destruct (civil_from_days (t / msPerDay)) as [[y m] d]. destruct H as (Hq & Hm & Hd).
  intros Hy.
  replace (0 <=? y) with true by (symmetry; apply Z.leb_le; lia).
  replace (y <=? 9999) with true by (symmetry; apply Z.leb_le; lia).
  cbn [andb pad_digits app list_ascii_of_string]. rewrite parseDate_digits. cbv zeta.
  replace (1000 * ((y / 10 / 10 / 10) mod 10) + 100 * ((y / 10 / 10) mod 10)
           + 10 * ((y / 10) mod 10) + y mod 10) with y
    by (Z.to_euclidean_division_equations; lia).
  replace (10 * ((m / 10) mod 10) + m mod 10) with m
    by (Z.to_euclidean_division_equations; lia).
  replace (10 * ((d / 10) mod 10) + d mod 10) with d
    by (Z.to_euclidean_division_equations; lia).
  replace (1 <=? m) with true by (symmetry; apply Z.leb_le; lia).
  replace (m <=? 12) with true by (symmetry; apply Z.leb_le; lia).
  replace (1 <=? d) with true by (symmetry; apply Z.leb_le; lia).
  replace (d <=? 31) with true by (symmetry; apply Z.leb_le; lia).
  cbn [andb]. rewrite (MakeDay_civil y m d) by exact Hm. rewrite Hq.
  do 2 f_equal. lia.
Qed.

Lemma parseDate_isoDate_witness :
  0 <= year_of jan10 <= 9999
  /\ parseDate (isoDate jan10) = Some (jan10 / msPerDay * msPerDay).
Proof.
  assert (H : 0 <= year_of jan10 <= 9999) by (vm_compute; split; discriminate).
  split; [exact H|]. exact (parseDate_isoDate jan10 H).
Defined.

(** ** Filters by range *)

Lemma setHours_local (tz t h m s ms : Z) :
  setHours tz t h m s ms
  = local_day_of tz t * msPerDay + (h * 3600000 + m * 60000 + s * 1000 + ms) - tz.
Proof. reflexivity. Qed.

Lemma local_day_of_local (tz q r : Z) :
  0 <= r < msPerDay ->
  local_day_of tz (q * msPerDay + r - tz) = q
  /\ (q * msPerDay + r - tz + tz) mod msPerDay = r.
Proof.
  intros Hr. unfold local_day_of.
  replace (q * msPerDay + r - tz + tz) with (r + q * msPerDay) by lia.
  rewrite Z.div_add, Z.mod_add by discriminate.
  rewrite Z.div_small, Z.mod_small by exact Hr. split; lia.
Qed.

Lemma setDate_local (tz q date : Z) :
  setDate tz (q * msPerDay + 0 - tz) date
  = (let '(y, m, _) := civil_from_days q in MakeDay y (m - 1) date) * msPerDay - tz.
Proof.
  unfold setDate. cbv zeta.
  destruct (local_day_of_local tz q 0) as [Hq Hr]; [unfold msPerDay; lia|].
  unfold local_day_of in Hq. rewrite Hq, Hr.
  destruct (civil_from_days q) as [[y m] d]. lia.
Qed.

Lemma setMonth_local (tz q month : Z) :
  setMonth tz (q * msPerDay + 0 - tz) month
  = (let '(y, _, d) := civil_from_days q in MakeDay y month d) * msPerDay - tz.
Proof.
  unfold setMonth. cbv zeta.
  destruct (local_day_of_local tz q 0) as [Hq Hr]; [unfold msPerDay; lia|].
  unfold local_day_of in Hq. rewrite Hq, Hr.
  destruct (civil_from_days q) as [[y m] d]. lia.
Qed.

Lemma getMonth_local (tz q r : Z) :
  0 <= r < msPerDay ->
  getMonth tz (q * msPerDay + r - tz) = (let '(_, m, _) := civil_from_days q in m - 1).
Proof.
  intros Hr. unfold getMonth.
  destruct (local_day_of_local tz q r Hr) as [Hq _].
  unfold local_day_of in Hq. now rewrite Hq.
Qed.

Lemma range_start_leb (tz a k : Z) :
  - msPerDay < tz < msPerDay ->
  (a * msPerDay - tz <=? k * msPerDay) = ((a + west_shift tz) * msPerDay <=? k * msPerDay).
Proof.
  intros Htz. unfold west_shift.
  destruct (Z.ltb_spec tz 0); unfold msPerDay in *;
    destruct (Z.leb_spec (a * 86400000 - tz) (k * 86400000)); symmetry;
    [apply Z.leb_le | apply Z.leb_gt | apply Z.leb_le | apply Z.leb_gt]; lia.
Qed.

Lemma range_end_leb (tz q k : Z) :
  - msPerDay < tz < msPerDay ->
  (k * msPerDay <=? q * msPerDay + (23 * 3600000 + 59 * 60000 + 59 * 1000 + 999) - tz)
  = (k * msPerDay <=? (q + west_shift tz) * msPerDay).
Proof.
  intros Htz. unfold west_shift.
  destruct (Z.ltb_spec tz 0); unfold msPerDay in *;
    destruct (Z.leb_spec (k * 86400000)
                (q * 86400000 + (23 * 3600000 + 59 * 60000 + 59 * 1000 + 999) - tz));
    symmetry; [apply Z.leb_le | apply Z.leb_gt | apply Z.leb_le | apply Z.leb_gt]; lia.
Qed.

(** X29. On a host at a fixed offset of less than a day from UTC, and
    for transactions whose dates are missing or dates of the data model,
    the range filter keeps the transactions dated from the first day of
    the range to the current local day, both included; west of UTC both
    ends are one day later, so that the first day of the range is left
    out and a transaction dated tomorrow is kept. *)
Theorem filterTransactionsByDateRange_window (env : Env)
    (transactions : list Transaction) (range : DateRangeOption) :
  - msPerDay < tzOffset env < msPerDay ->
  plain_dates transactions ->
  filterTransactionsByDateRange env transactions range
  = List.filter
      (dated_between
         ((range_first_day range (local_day_of (tzOffset env) (clock env 0))
             (local_day_of (tzOffset env) (clock env 1))
           + west_shift (tzOffset env)) * msPerDay)
         ((local_day_of (tzOffset env) (clock env 0) + west_shift (tzOffset env))
          * msPerDay))
      transactions.
Proof.
  intros Htz _. unfold filterTransactionsByDateRange. cbv zeta.
  rewrite !setHours_local.
  generalize (local_day_of (tzOffset env) (clock env 0))
    (local_day_of (tzOffset env) (clock env 1)) Htz.
  generalize (tzOffset env). clear Htz. intros tz q0 q1 Htz.
  assert (Hstart :
    match range with
    | MTD => setDate tz (q1 * msPerDay + (0 * 3600000 + 0 * 60000 + 0 * 1000 + 0) - tz) 1
    | _ =>
        setMonth tz (q1 * msPerDay + (0 * 3600000 + 0 * 60000 + 0 * 1000 + 0) - tz)
          (getMonth tz
             (q0 * msPerDay + (23 * 3600000 + 59 * 60000 + 59 * 1000 + 999) - tz)
           - match range with
             | M3 => 3
             | M6 => 6
             | Y1 => 12
             | _ => 1
             end)
    end = range_first_day range q0 q1 * msPerDay - tz).
  { change (0 * 3600000 + 0 * 60000 + 0 * 1000 + 0) with 0.
    unfold range_first_day.
    destruct range;
      [rewrite setDate_local
      |rewrite setMonth_local, getMonth_local by (unfold msPerDay; lia)..];
      destruct (civil_from_days q1) as [[y1 m1] d1];
      destruct (civil_from_days q0) as [[y0 m0] d0]; reflexivity. }
  rewrite Hstart. clear Hstart. generalize (range_first_day range q0 q1). intros a.
  apply List.filter_ext. intros tx. unfold dated_between.
  destruct (newDate (tx_date tx)) as [t|] eqn:Ht; [|reflexivity].
  assert (Hk : exists k, t = k * msPerDay).
  { destruct (tx_date tx) as [s|]; [|discriminate]. exact (parseDate_day s t Ht). }
  destruct Hk as [k ->]. cbn [date_leb].
  now rewrite range_start_leb, range_end_leb.
Qed.

Lemma filterTransactionsByDateRange_window_witness :
  - msPerDay < tzOffset (env_west jan10) < msPerDay
  /\ plain_dates [tx_comma; tx_plain]
  /\ filterTransactionsByDateRange (env_west jan10) [tx_comma; tx_plain] M1
     = List.filter
         (dated_between
            ((range_first_day M1 (local_day_of (tzOffset (env_west jan10)) (clock (env_west jan10) 0))
                (local_day_of (tzOffset (env_west jan10)) (clock (env_west jan10) 1))
              + west_shift (tzOffset (env_west jan10))) * msPerDay)
            ((local_day_of (tzOffset (env_west jan10)) (clock (env_west jan10) 0)
              + west_shift (tzOffset (env_west jan10))) * msPerDay))
         [tx_comma; tx_plain].
Proof.
  assert (H : - msPerDay < tzOffset (env_west jan10) < msPerDay)
    by (vm_compute; split; reflexivity).
  assert (Hdates : plain_dates [tx_comma; tx_plain])
    by (repeat constructor; vm_compute; eauto).
  split; [exact H|]. split; [exact Hdates|].
  exact (filterTransactionsByDateRange_window _ _ M1 H Hdates).
Defined.

(** ** When a rule is due *)

Lemma civil_from_days_parts (z : Z) :
  exists era doe yoe doy mp,
    z + 719468 = era * 146097 + doe /\ 0 <= doe <= 146096
    /\ yoe = (doe - doe / 1460 + doe / 36524 - doe / 146096) / 365
    /\ doy = doe - (365 * yoe + yoe / 4 - yoe / 100)
    /\ 0 <= yoe <= 399 /\ 0 <= doy <= 365
    /\ mp = (5 * doy + 2) / 153 /\ 0 <= mp <= 11
    /\ 1 <= doy - (153 * mp + 2) / 5 + 1 <= 31
    /\ date_key (civil_from_days z)
       = (12 * (yoe + 400 * era) + mp + 3) * 32 + (doy - (153 * mp + 2) / 5 + 1).
Proof.
  unfold civil_from_days. cbv zeta.
  set (z' := z + 719468).
  set (era := z' / 146097).
  set (doe := z' - era * 146097).
  assert (Hdoe : 0 <= doe <= 146096)
    by (subst doe era; Z.to_euclidean_division_equations; lia).
  set (yoe := (doe - doe / 1460 + doe / 36524 - doe / 146096) / 365).
  set (doy := doe - (365 * yoe + yoe / 4 - yoe / 100)).
  assert (Hyoe : 0 <= yoe <= 399 /\ 0 <= doy <= 365)
    by (subst doy yoe; Z.to_euclidean_division_equations; lia).
  destruct Hyoe as [Hyoe Hdoy].
  set (mp := (5 * doy + 2) / 153).
  assert (Hmp : 0 <= mp <= 11) by (subst mp; Z.to_euclidean_division_equations; lia).
  set (d := doy - (153 * mp + 2) / 5 + 1).
  assert (Hd : 1 <= d <= 31) by (subst d mp; Z.to_euclidean_division_equations; lia).
  exists era, doe, yoe, doy, mp.
  repeat (split; [first [reflexivity | assumption | subst doe; lia]|]).
  unfold date_key. destruct (Z.ltb_spec mp 10).
  - replace (mp + 3 <=? 2) with false by (symmetry; apply Z.leb_gt; lia). fold d. lia.
  - replace (mp - 9 <=? 2) with true by (symmetry; apply Z.leb_le; lia). fold d. lia.
Qed.

Lemma yoe_mono (doe1 doe2 : Z) :
  0 <= doe1 <= doe2 -> doe2 <= 146096 ->
  (doe1 - doe1 / 1460 + doe1 / 36524 - doe1 / 146096) / 365
  <= (doe2 - doe2 / 1460 + doe2 / 36524 - doe2 / 146096) / 365.
Proof. intros H1 H2. Z.to_euclidean_division_equations; lia. Qed.

Lemma mp_mono (doy1 doy2 : Z) :
  0 <= doy1 <= doy2 -> doy2 <= 365 ->
  (5 * doy1 + 2) / 153 <= (5 * doy2 + 2) / 153.
Proof. intros H1 H2. Z.to_euclidean_division_equations; lia. Qed.

(** A later day has a later date. *)
Lemma civil_from_days_mono (z1 z2 : Z) :
  z1 <= z2 -> date_key (civil_from_days z1) <= date_key (civil_from_days z2).
Proof.
  intros Hz.
  destruct (civil_from_days_parts z1)
    as (era1 & doe1 & yoe1 & doy1 & mp1 & Hz1 & Hdoe1 & Hyoe1 & Hdoy1 & Ry1 & Rd1
        & Hmp1 & Rm1 & Rday1 & ->).
  destruct (civil_from_days_parts z2)
    as (era2 & doe2 & yoe2 & doy2 & mp2 & Hz2 & Hdoe2 & Hyoe2 & Hdoy2 & Ry2 & Rd2
        & Hmp2 & Rm2 & Rday2 & ->).
  assert (Hera : era1 <= era2) by lia.
  destruct (Z.eq_dec era1 era2) as [->|Hne]; [|lia].
  assert (Hdoe : doe1 <= doe2) by lia.
  assert (Hyoe : yoe1 <= yoe2)
    by (rewrite Hyoe1, Hyoe2; apply yoe_mono; lia).
  destruct (Z.eq_dec yoe1 yoe2) as [Heq|Hne]; [|lia].
  assert (Hdoy : doy1 <= doy2).
  { rewrite Hdoy1, Hdoy2, Heq. lia. }
  assert (Hmp : mp1 <= mp2) by (rewrite Hmp1, Hmp2; apply mp_mono; lia).
  destruct (Z.eq_dec mp1 mp2) as [Heq'|Hne]; [|lia].
  rewrite Heq, Heq'. lia.
Qed.

Lemma ymd_leb_key (a b : Z * Z * Z) :
  match a, b with
  | (_, m1, d1), (_, m2, d2) => 1 <= m1 <= 12 /\ 1 <= d1 <= 31 /\ 1 <= m2 <= 12 /\ 1 <= d2 <= 31
  end ->
  ymd_leb a b = (date_key a <=? date_key b).
Proof.
  destruct a as [[y1 m1] d1], b as [[y2 m2] d2]. intros H. unfold ymd_leb, date_key.
  destruct (Z.leb_spec ((12 * y1 + m1) * 32 + d1) ((12 * y2 + m2) * 32 + d2));
    destruct (Z.ltb_spec y1 y2), (Z.eqb_spec y1 y2), (Z.ltb_spec m1 m2),
      (Z.eqb_spec m1 m2), (Z.leb_spec d1 d2); cbn [orb andb]; first [reflexivity | lia].
Qed.

(** The order of dates by year, month and day is the order of days. *)
Lemma ymd_leb_civil (z1 z2 : Z) :
  ymd_leb (civil_from_days z1) (civil_from_days z2) = (z1 <=? z2).
Proof.
  pose proof (civil_from_days_spec z1) as H1. pose proof (civil_from_days_spec z2) as H2.
  rewrite ymd_leb_key
    by (destruct (civil_from_days z1) as [[? ?] ?], (civil_from_days z2) as [[? ?] ?]; lia).
  destruct (Z.leb_spec z1 z2) as [Hle|Hgt].
  - apply Z.leb_le. now apply civil_from_days_mono.
  - apply Z.leb_gt. pose proof (civil_from_days_mono z2 z1 ltac:(lia)) as Hmono.
    destruct (civil_from_days z1) as [[y1 m1] d1], (civil_from_days z2) as [[y2 m2] d2].
    destruct H1 as (Hq1 & Hm1 & Hd1), H2 as (Hq2 & Hm2 & Hd2).
    unfold date_key in *.
    assert (Hne : (12 * y2 + m2) * 32 + d2 <> (12 * y1 + m1) * 32 + d1); [|lia].
    intros Heq. assert (y1 = y2 /\ m1 = m2 /\ d1 = d2) as (-> & -> & ->) by lia. lia.
Qed.

Lemma date_fields_digits (a b c d e f g h : Z) :
  date_fields [char_of_digit a; char_of_digit b; char_of_digit c; char_of_digit d;
               "-"%char; char_of_digit e; char_of_digit f; "-"%char;
               char_of_digit g; char_of_digit h]
  = Some (1000 * (a mod 10) + 100 * (b mod 10) + 10 * (c mod 10) + d mod 10,
          10 * (e mod 10) + f mod 10, 10 * (g mod 10) + h mod 10).
Proof.
  unfold date_fields. rewrite !digit_of_char_of_digit.
  rewrite !bool_decide_eq_true_2 by reflexivity. reflexivity.
Qed.

(** The fields of a written date are the date of the day. *)
Lemma date_fields_isoDate (t : Z) :
  0 <= year_of t <= 9999 ->
  date_fields (isoDate t) = Some (civil_from_days (t / msPerDay)).
Proof.
  unfold year_of, isoDate. pose proof (civil_from_days_spec (t / msPerDay)) as H.
  destruct (civil_from_days (t / msPerDay)) as [[y m] d]. destruct H as (Hq & Hm & Hd).
  intros Hy.
  replace (0 <=? y) with true by (symmetry; apply Z.leb_le; lia).
  replace (y <=? 9999) with true by (symmetry; apply Z.leb_le; lia).
  cbn [andb pad_digits app list_ascii_of_string]. rewrite date_fields_digits.
  do 2 f_equal; [f_equal|]; Z.to_euclidean_division_equations; lia.
Qed.

Lemma isoDate_length (t : Z) :
  length (isoDate t) = 10%nat -> 0 <= year_of t <= 9999.
Proof.
  unfold year_of, isoDate. destruct (civil_from_days (t / msPerDay)) as [[y m] d].
  destruct (Z.leb_spec 0 y), (Z.leb_spec y 9999); cbn [andb]; [lia|..];
    destruct (y <? 0); cbn; discriminate.
Qed.

Lemma parseDate_length (s : str) (t : Z) : parseDate s = Some t -> length s = 10%nat.
Proof.
  unfold parseDate.
  destruct s as [|y1 [|y2 [|y3 [|y4 [|dash1 [|m1 [|m2 [|dash2 [|d1 [|d2 [|? ?]]]]]]]]]]];
    try discriminate. reflexivity.
Qed.

Lemma day_leb (k c : Z) : (k <=? c / msPerDay) = (k * msPerDay <=? c).
Proof.
  unfold msPerDay.
  destruct (Z.leb_spec k (c / 86400000)), (Z.leb_spec (k * 86400000) c);
    first [reflexivity | exfalso; Z.to_euclidean_division_equations; lia].
Qed.

(** X30. A rule whose [nextDueDate] is the text of a day of the calendar
    is due exactly when it is active and the UTC midnight that starts
    that day is not after the present moment (for a clock in the years 0
    to 9999): the comparison of the two texts is a comparison of days,
    and the days are those of UTC, not of the time zone of the host. *)
Theorem is_due_by_day (env : Env) (item : RecurringTransaction) (t : Z) :
  parseDate (rt_nextDueDate item) = Some t ->
  isoDate t = rt_nextDueDate item ->
  0 <= year_of (clock env 0) <= 9999 ->
  is_due (today env) item = rt_active item && (t <=? clock env 0).
Proof.
  intros Ht Hiso Hyear. unfold is_due, today. f_equal.
  assert (Hyt : 0 <= year_of t <= 9999).
  { apply isoDate_length. rewrite Hiso. exact (parseDate_length _ _ Ht). }
  rewrite <- Hiso.
  rewrite (str_leb_date_fields _ _ _ _ (date_fields_isoDate t Hyt)
             (date_fields_isoDate (clock env 0) Hyear)).
  rewrite ymd_leb_civil. apply parseDate_day in Ht as [k ->].
  rewrite Z.div_mul by discriminate. apply day_leb.
Qed.

Lemma is_due_by_day_witness :
  parseDate (rt_nextDueDate (rule "r1" monthly "2024-01-05" true)) = Some 1704412800000
  /\ isoDate 1704412800000 = rt_nextDueDate (rule "r1" monthly "2024-01-05" true)
  /\ 0 <= year_of (clock (env_at jan10) 0) <= 9999
  /\ is_due (today (env_at jan10)) (rule "r1" monthly "2024-01-05" true)
     = rt_active (rule "r1" monthly "2024-01-05" true)
       && (1704412800000 <=? clock (env_at jan10) 0).
Proof.
  assert (H1 : parseDate (rt_nextDueDate (rule "r1" monthly "2024-01-05" true))
               = Some 1704412800000) by (vm_compute; reflexivity).
  assert (H2 : isoDate 1704412800000 = rt_nextDueDate (rule "r1" monthly "2024-01-05" true))
    by (vm_compute; reflexivity).
  assert (H3 : 0 <= year_of (clock (env_at jan10) 0) <= 9999)
    by (vm_compute; split; discriminate).
  split; [exact H1|]. split; [exact H2|]. split; [exact H3|].
  exact (is_due_by_day (env_at jan10) _ _ H1 H2 H3).
Defined.
